(** * A chunk-streaming sandbox (main.js): model and verified properties

    The program is a single JavaScript module built on three.js.  Its state is
    a handful of module-level variables ([player], [chunks],
    [playerStructures], [vehicles], [keys], [scene], ...) and the three.js
    objects they point to.  The embedding below keeps that shape:

    - three.js objects live in a heap of cells addressed by locations, so that
      two references to one object are one location and [clone()] is a fresh
      one;
    - the body of every function of the module is a function on [World],
      written in the order of the source statements, for a module whose
      bindings are all initialised;
    - the module as the browser loads it is [Shipped]: there [init()] and
      [animate()] run (lines 13-14) before [const keys] (line 54) and
      [let vehicles] (line 63) are evaluated, a function that touches one
      of the two throws a [ReferenceError], and a call that throws leaves
      what it did before;
    - numbers are exact: world coordinates are rationals ([Q]), chunk
      coordinates and loop counters are integers ([Z]).  Rounding of IEEE
      doubles, and the exponent notation that JavaScript uses to print
      integers from 1e21 on, are outside the model; where a double can
      round onto a bound that the exact number stays below, the properties
      are stated with the bound included;
    - the host's non-deterministic or transcendental built-ins
      ([Math.random], [Date.now], [Math.sin], [Math.cos], the printing of a
      fractional number) are fields of an environment [Env], together with
      the two configuration variables [chunkSize] and [loadedRadius], which
      the module never reassigns.  [Math.random] and [Date.now] are indexed
      by the calls that main.js itself makes: three.js draws random numbers
      of its own in between (for the uuid of each object it constructs),
      which only makes the values main.js sees other values of an
      arbitrary sequence.

    The camera and the renderer carry no state that any function below reads
    and are left out. *)

From Stdlib Require Import QArith Qround Lqa DecimalString DecimalZ DecimalPos.
From stdpp Require Import gmap strings list fin_maps.
From Stdlib Require Import Ascii.

Local Open Scope Z_scope.

(** ** JavaScript primitives *)

Module JS.

(** [String(n)] for an integral number: decimal digits, ["-"] in front of a
    negative one, ["0"] for zero. *)
Definition ToString (n : Z) : string :=
  NilZero.string_of_int (Z.to_int n).

(** A number as the module's arithmetic sees it after [Number(...)]: an
    integer, or [NaN]. *)
Definition num : Type := option Z.
Definition NaN : num := None.

(** One or more decimal digits. *)
Definition StrDecimalDigits (s : string) : num :=
  Z.of_uint <$> NilZero.uint_of_string s.

(** [Number(s)] on the integer fragment of the StringNumericLiteral grammar:
    the empty string is [0], an optional sign is followed by decimal digits,
    anything else is [NaN].  White space, fractions, exponents, radix
    prefixes and [Infinity] are not modelled: no key built by [chunkKey]
    contains them. *)
Definition Number (s : string) : num :=
  match s with
  | EmptyString => Some 0
  | String c s' =>
      if Ascii.eqb c "-"%char then Z.opp <$> StrDecimalDigits s'
      else if Ascii.eqb c "+"%char then StrDecimalDigits s'
      else StrDecimalDigits s
  end.

(** [s.split(sep)] for a one-character separator. *)
Fixpoint split (sep : ascii) (s : string) : list string :=
  match s with
  | EmptyString => [EmptyString]
  | String c s' =>
      if Ascii.eqb c sep then EmptyString :: split sep s'
      else match split sep s' with
           | h :: t => String c h :: t
           | [] => [String c EmptyString]
           end
  end.

(** [a - b], [Math.abs(a)] and [a > b] with [NaN] propagating; a comparison
    with [NaN] is false. *)
Definition sub (a : num) (b : Z) : num := (fun x => x - b) <$> a.
Definition abs (a : num) : num := Z.abs <$> a.
Definition gt (a : num) (b : Z) : bool :=
  match a with
  | Some x => b <? x
  | None => false
  end.

(** [Math.floor] of a finite number. *)
Definition Math_floor (x : Q) : Z := Qfloor x.

(** [String.prototype.toLowerCase] on ASCII text: the letters A-Z are
    mapped, every other character is left as it is (JavaScript also maps
    the capitals outside ASCII, which no key that main.js tests for
    contains). *)
Definition lower_ascii (c : ascii) : ascii :=
  let n := nat_of_ascii c in
  if (Nat.leb 65 n && Nat.leb n 90)%bool then ascii_of_nat (n + 32) else c.

Fixpoint toLowerCase (s : string) : string :=
  match s with
  | EmptyString => EmptyString
  | String c s' => String (lower_ascii c) (toLowerCase s')
  end.

(** An insertion-ordered [Map] with string keys, as [forEach] walks it. *)
Section Map.
Context {V : Type}.

Definition has (m : list (string * V)) (k : string) : bool :=
  existsb (fun e => String.eqb (fst e) k) m.

Fixpoint get (m : list (string * V)) (k : string) : option V :=
  match m with
  | [] => None
  | (k', v) :: m' => if String.eqb k' k then Some v else get m' k
  end.

(** [m.set(k, v)]: an existing key keeps its place, a new one goes last. *)
Fixpoint set (m : list (string * V)) (k : string) (v : V) : list (string * V) :=
  match m with
  | [] => [(k, v)]
  | (k', v') :: m' =>
      if String.eqb k' k then (k, v) :: m' else (k', v') :: set m' k v
  end.

Fixpoint delete (m : list (string * V)) (k : string) : list (string * V) :=
  match m with
  | [] => []
  | (k', v') :: m' =>
      if String.eqb k' k then m' else (k', v') :: delete m' k
  end.

Definition keys (m : list (string * V)) : list string := fst <$> m.
End Map.

End JS.

(** ** three.js objects and the heap *)

(** Locations are natural numbers, handed out in increasing order. *)
Abbreviation loc := nat.

Record Vector3 := mkVector3 { vx : Q; vy : Q; vz : Q }.
Record Euler := mkEuler { ex : Q; ey : Q; ez : Q }.

Inductive Geometry :=
| BoxGeometry (width height depth : Q)
| CylinderGeometry (radiusTop radiusBottom height : Q) (radialSegments : Z)
| CapsuleGeometry (radius length : Q) (capSegments radialSegments : Z).

Record Material := mkMaterial { color : Z; flatShading : bool }.

(** A [Mesh], [Group] or light.  [position] and [rotation] are references to
    the object's own [Vector3] and [Euler]; a [Group] or a light has no
    geometry and no material. *)
Record Object3D := mkObject3D {
  geometry : option loc;
  material : option loc;
  position : loc;
  rotation : loc;
  children : list loc
}.

Inductive cell :=
| CVector3 (v : Vector3)
| CEuler (e : Euler)
| CGeometry (g : Geometry)
| CMaterial (m : Material)
| CObject3D (o : Object3D).

(** An entry of [playerStructures]: the four clones made by [saveStructure]. *)
Record Structure := mkStructure {
  s_geometry : loc;
  s_material : loc;
  s_position : loc;
  s_rotation : loc
}.

(** ** The module's state *)

Record World := mkWorld {
  heap : gmap loc cell;
  next : loc;                                (* first location never handed out *)
  scene : list loc;                          (* scene.children *)
  player_x : Q;
  player_y : Q;
  player_z : Q;
  player_mesh : option loc;                  (* null until init() *)
  chunks : list (string * loc);              (* Map: chunkID => group *)
  playerStructures : list (string * Structure);
  keys : gmap string bool;
  vehicles : list loc;
  dirLight : option loc;
  random_calls : nat;                        (* main.js's Math.random() calls so far *)
  now_calls : nat                            (* main.js's Date.now() calls so far *)
}.

(** The configuration variables and the host's built-ins. *)
Record Env := mkEnv {
  chunkSize : Q;
  loadedRadius : Z;
  Math_random : nat -> Q;                    (* the n-th value main.js draws *)
  Date_now : nat -> Z;                       (* the n-th clock reading of main.js *)
  Math_sin : Q -> Q;
  Math_cos : Q -> Q;
  Number_toString : Q -> string              (* printing of a random number *)
}.

Definition set_heap (f : gmap loc cell -> gmap loc cell) (w : World) : World :=
  mkWorld (f (heap w)) (next w) (scene w) (player_x w) (player_y w) (player_z w)
    (player_mesh w) (chunks w) (playerStructures w) (keys w) (vehicles w)
    (dirLight w) (random_calls w) (now_calls w).

Definition set_next (f : loc -> loc) (w : World) : World :=
  mkWorld (heap w) (f (next w)) (scene w) (player_x w) (player_y w) (player_z w)
    (player_mesh w) (chunks w) (playerStructures w) (keys w) (vehicles w)
    (dirLight w) (random_calls w) (now_calls w).

Definition set_scene (f : list loc -> list loc) (w : World) : World :=
  mkWorld (heap w) (next w) (f (scene w)) (player_x w) (player_y w) (player_z w)
    (player_mesh w) (chunks w) (playerStructures w) (keys w) (vehicles w)
    (dirLight w) (random_calls w) (now_calls w).

Definition set_player_mesh (m : option loc) (w : World) : World :=
  mkWorld (heap w) (next w) (scene w) (player_x w) (player_y w) (player_z w)
    m (chunks w) (playerStructures w) (keys w) (vehicles w)
    (dirLight w) (random_calls w) (now_calls w).

Definition set_chunks (f : list (string * loc) -> list (string * loc))
    (w : World) : World :=
  mkWorld (heap w) (next w) (scene w) (player_x w) (player_y w) (player_z w)
    (player_mesh w) (f (chunks w)) (playerStructures w) (keys w) (vehicles w)
    (dirLight w) (random_calls w) (now_calls w).

Definition set_playerStructures
    (f : list (string * Structure) -> list (string * Structure))
    (w : World) : World :=
  mkWorld (heap w) (next w) (scene w) (player_x w) (player_y w) (player_z w)
    (player_mesh w) (chunks w) (f (playerStructures w)) (keys w) (vehicles w)
    (dirLight w) (random_calls w) (now_calls w).

Definition set_keys (f : gmap string bool -> gmap string bool)
    (w : World) : World :=
  mkWorld (heap w) (next w) (scene w) (player_x w) (player_y w) (player_z w)
    (player_mesh w) (chunks w) (playerStructures w) (f (keys w)) (vehicles w)
    (dirLight w) (random_calls w) (now_calls w).

Definition set_vehicles (f : list loc -> list loc) (w : World) : World :=
  mkWorld (heap w) (next w) (scene w) (player_x w) (player_y w) (player_z w)
    (player_mesh w) (chunks w) (playerStructures w) (keys w) (f (vehicles w))
    (dirLight w) (random_calls w) (now_calls w).

Definition set_dirLight (l : option loc) (w : World) : World :=
  mkWorld (heap w) (next w) (scene w) (player_x w) (player_y w) (player_z w)
    (player_mesh w) (chunks w) (playerStructures w) (keys w) (vehicles w)
    l (random_calls w) (now_calls w).

Definition set_random_calls (f : nat -> nat) (w : World) : World :=
  mkWorld (heap w) (next w) (scene w) (player_x w) (player_y w) (player_z w)
    (player_mesh w) (chunks w) (playerStructures w) (keys w) (vehicles w)
    (dirLight w) (f (random_calls w)) (now_calls w).

Definition set_now_calls (f : nat -> nat) (w : World) : World :=
  mkWorld (heap w) (next w) (scene w) (player_x w) (player_y w) (player_z w)
    (player_mesh w) (chunks w) (playerStructures w) (keys w) (vehicles w)
    (dirLight w) (random_calls w) (f (now_calls w)).

(** ** Heap operations

    A reference in JavaScript always points to a live object of the class
    the code expects, so a location that holds no cell, or a cell of another
    class, has no counterpart in a run of the program; neither has a [null]
    dereference once [init] has run.  The operations below leave the world
    unchanged in those cases. *)

(** [new C(...)]: the next location, now holding [c]. *)
Definition alloc (c : cell) (w : World) : loc * World :=
  (next w, set_next S (set_heap <[next w := c]> w)).

Definition object_at (w : World) (l : loc) : option Object3D :=
  match heap w !! l with
  | Some (CObject3D o) => Some o
  | _ => None
  end.

Definition vector_at (w : World) (l : loc) : option Vector3 :=
  match heap w !! l with
  | Some (CVector3 v) => Some v
  | _ => None
  end.

(** Assignment to the components of the [Vector3] or [Euler] held by a
    cell, and to the [children] of an object. *)
Definition on_vector (f : Vector3 -> Vector3) (c : cell) : cell :=
  match c with
  | CVector3 v => CVector3 (f v)
  | _ => c
  end.

Definition on_euler (f : Euler -> Euler) (c : cell) : cell :=
  match c with
  | CEuler e => CEuler (f e)
  | _ => c
  end.

Definition push_child (child : loc) (c : cell) : cell :=
  match c with
  | CObject3D o =>
      CObject3D (mkObject3D (geometry o) (material o) (position o)
                   (rotation o) (children o ++ [child]))
  | _ => c
  end.

(** [o.position.<field> = ...] and [o.rotation.<field> = ...]: follow the
    reference held by the object at [o], then assign. *)
Definition heap_modify_position (o : loc) (f : Vector3 -> Vector3)
    (h : gmap loc cell) : gmap loc cell :=
  match h !! o with
  | Some (CObject3D obj) => alter (on_vector f) (position obj) h
  | _ => h
  end.

Definition heap_modify_rotation (o : loc) (f : Euler -> Euler)
    (h : gmap loc cell) : gmap loc cell :=
  match h !! o with
  | Some (CObject3D obj) => alter (on_euler f) (rotation obj) h
  | _ => h
  end.

Arguments heap_modify_position : simpl never.
Arguments heap_modify_rotation : simpl never.

Definition modify_position (o : loc) (f : Vector3 -> Vector3) (w : World) : World :=
  set_heap (heap_modify_position o f) w.

Definition modify_rotation (o : loc) (f : Euler -> Euler) (w : World) : World :=
  set_heap (heap_modify_rotation o f) w.

(** [o.position.set(x, y, z)]. *)
Definition position_set (o : loc) (x y z : Q) (w : World) : World :=
  modify_position o (fun _ => mkVector3 x y z) w.

(** The [Object3D] constructor: a zero position, a zero rotation, no child. *)
Definition new_Object3D (geo mat : option loc) (w : World) : loc * World :=
  let '(p, w) := alloc (CVector3 (mkVector3 0 0 0)) w in
  let '(r, w) := alloc (CEuler (mkEuler 0 0 0)) w in
  alloc (CObject3D (mkObject3D geo mat p r [])) w.

(** [new THREE.Mesh(geo, mat)] and [new THREE.Group()]. *)
Definition new_Mesh (geo mat : loc) (w : World) : loc * World :=
  new_Object3D (Some geo) (Some mat) w.

Definition new_Group (w : World) : loc * World :=
  new_Object3D None None w.

(** [parent.add(child)]. *)
Definition add (parent child : loc) (w : World) : World :=
  set_heap (alter (push_child child) parent) w.

(** [x.clone()] for a geometry, a material, a [Vector3] or an [Euler]: a new
    object with the same contents.  The module clones nothing else, and
    [Object3D.clone] is not modelled. *)
Definition clone (l : loc) (w : World) : loc * World :=
  match heap w !! l with
  | Some (CObject3D _) | None => (l, w)
  | Some c => alloc c w
  end.

Definition scene_add (o : loc) (w : World) : World :=
  set_scene (fun s => s ++ [o]) w.

(** [Array.prototype.indexOf] then [splice]: the first occurrence goes. *)
Fixpoint remove_first (o : loc) (s : list loc) : list loc :=
  match s with
  | [] => []
  | x :: s' => if Nat.eqb x o then s' else x :: remove_first o s'
  end.

Definition scene_remove (o : loc) (w : World) : World :=
  set_scene (remove_first o) w.

(** One call of [Math.random()] and of [Date.now()] by main.js. *)
Definition random (E : Env) (w : World) : Q * World :=
  (Math_random E (random_calls w), set_random_calls S w).

Definition now (E : Env) (w : World) : Z * World :=
  (Date_now E (now_calls w), set_now_calls S w).

(** ** The functions of main.js

    Each definition is the body of the function of that name.  The bodies
    of [updatePlayer], [handleKeys], [handleKeysUp], [animateVehicles] and
    [buildVehicle] read or write [keys] or [vehicles]: they are given here
    for initialised bindings, and in [Shipped] for the bindings as main.js
    leaves them. *)

Local Open Scope Q_scope.

(** [Math.PI] is the double 884279719003555 / 2^48. *)
Definition Math_PI : Q := 884279719003555 # 281474976710656.

(** The template literal [`${a}_${b}`] of [chunkID] and [updateChunks]. *)
Definition chunkKey (a b : Z) : string :=
  JS.ToString a +:+ "_" +:+ JS.ToString b.

(** [chunkID(x, z)]. *)
Definition chunkID (E : Env) (x z : Q) : string :=
  chunkKey (JS.Math_floor (x / chunkSize E)) (JS.Math_floor (z / chunkSize E)).

(** [const [x, z] = id.split("_").map(Number)]: a missing element is
    [undefined], which the subtraction that follows turns into [NaN]. *)
Definition parseID (id : string) : JS.num * JS.num :=
  let parts := JS.Number <$> JS.split "_" id in
  (nth 0 parts JS.NaN, nth 1 parts JS.NaN).

(** [saveStructure(mesh)]. *)
Definition saveStructure (E : Env) (mesh : loc) (w : World) : World :=
  let '(t, w) := now E w in
  let '(r, w) := random E w in
  let id := JS.ToString t +:+ "_" +:+ Number_toString E r in
  match object_at w mesh with
  | Some o =>
      match geometry o, material o with
      | Some g, Some m =>
          let '(g', w) := clone g w in
          let '(m', w) := clone m w in
          let '(p', w) := clone (position o) w in
          let '(r', w) := clone (rotation o) w in
          set_playerStructures
            (fun s => JS.set s id (mkStructure g' m' p' r')) w
      | _, _ => w
      end
  | None => w
  end.

(** The tail of [buildVehicle]: [if(mesh){ scene.add(mesh);
    vehicles.push(mesh); saveStructure(mesh); }]. *)
Definition register_vehicle (E : Env) (mesh : loc) (w : World) : World :=
  let w := scene_add mesh w in
  let w := set_vehicles (fun v => v ++ [mesh]) w in
  saveStructure E mesh w.

(** The body of [case "plane":], up to its [break]: the mesh it builds. *)
Definition plane (w : World) : loc * World :=
  let '(geo, w) := alloc (CGeometry (BoxGeometry 2 (2#5) 4)) w in
  let '(mat, w) := alloc (CMaterial (mkMaterial 0xffff00 false)) w in
  let '(mesh, w) := new_Mesh geo mat w in
  let '(wgeo, w) := alloc (CGeometry (BoxGeometry 4 (1#10) 1)) w in
  let '(wmat, w) := alloc (CMaterial (mkMaterial 0xffff00 false)) w in
  let '(wing, w) := new_Mesh wgeo wmat w in
  let w := modify_position wing (fun v => mkVector3 (vx v) 0 (vz v)) w in
  let w := modify_position wing (fun v => mkVector3 (vx v) (vy v) 0) w in
  let w := add mesh wing w in
  let w := position_set mesh (player_x w + 2) (player_y w + 1) (player_z w) w in
  (mesh, w).

(** The body of [case "boat":]. *)
Definition boat (w : World) : loc * World :=
  let '(geo, w) := alloc (CGeometry (CylinderGeometry 1 1 (1#2) 8)) w in
  let '(mat, w) := alloc (CMaterial (mkMaterial 0x0000ff false)) w in
  let '(mesh, w) := new_Mesh geo mat w in
  let w := modify_rotation mesh (fun e => mkEuler (ex e) (ey e) (Math_PI / 2)) w in
  let w := position_set mesh (player_x w + 2) (1#4) (player_z w) w in
  (mesh, w).

(** [buildVehicle(type)]: the [switch] has the two cases ["plane"] and
    ["boat"] and no default, so [mesh] stays [undefined] for any other
    type. *)
Definition buildVehicle (E : Env) (type : string) (w : World) : World :=
  if String.eqb type "plane" then
    let '(mesh, w) := plane w in register_vehicle E mesh w
  else if String.eqb type "boat" then
    let '(mesh, w) := boat w in register_vehicle E mesh w
  else w.

(** One round of the terrain loop of [createChunk]. *)
Definition terrainBlock (E : Env) (cx cz : Z) (group : loc) (w : World) : World :=
  let '(r, w) := random E w in
  let x := (r - (1#2)) * chunkSize E + inject_Z cx * chunkSize E in
  let '(r, w) := random E w in
  let z := (r - (1#2)) * chunkSize E + inject_Z cz * chunkSize E in
  let '(r, w) := random E w in
  let y := r * 2 in
  let '(geo, w) := alloc (CGeometry (BoxGeometry 1 y 1)) w in
  let '(mat, w) := alloc (CMaterial (mkMaterial 0x333333 false)) w in
  let '(block, w) := new_Mesh geo mat w in
  let w := position_set block x (y / 2) z w in
  add group block w.

(** One round of the building loop of [createChunk]. *)
Definition building (E : Env) (cx cz : Z) (group : loc) (w : World) : World :=
  let '(r, w) := random E w in
  let wd := r * 3 + 1 in
  let '(r, w) := random E w in
  let h := r * 5 + 3 in
  let '(r, w) := random E w in
  let d := r * 3 + 1 in
  let '(geo, w) := alloc (CGeometry (BoxGeometry wd h d)) w in
  let '(mat, w) := alloc (CMaterial (mkMaterial 0x555555 true)) w in
  let '(bld, w) := new_Mesh geo mat w in
  let '(r, w) := random E w in
  let x := inject_Z cx * chunkSize E + (r - (1#2)) * chunkSize E in
  let '(r, w) := random E w in
  let z := inject_Z cz * chunkSize E + (r - (1#2)) * chunkSize E in
  let w := position_set bld x (h / 2) z w in
  add group bld w.

(** [createChunk(cx, cz, id)] with the two loop bounds as parameters: main.js
    has 50 terrain blocks and 3 buildings, its earlier revision 100 and 5. *)
Definition createChunkWith (blocks buildings : nat)
    (E : Env) (cx cz : Z) (id : string) (w : World) : World :=
  let '(group, w) := new_Group w in
  let w := Nat.iter blocks (terrainBlock E cx cz group) w in
  let w := Nat.iter buildings (building E cx cz group) w in
  let w := scene_add group w in
  set_chunks (fun m => JS.set m id group) w.

Definition createChunk : Env -> Z -> Z -> string -> World -> World :=
  createChunkWith 50 3.

(** [unloadChunk(id)]. *)
Definition unloadChunk (id : string) (w : World) : World :=
  match JS.get (chunks w) id with
  | None => w
  | Some chunk => set_chunks (fun m => JS.delete m id) (scene_remove chunk w)
  end.

(** [player.mesh.position]. *)
Definition player_position (w : World) : option Vector3 :=
  m ← player_mesh w; o ← object_at w m; vector_at w (position o).

(** The chunk the player's mesh stands in: the two [Math.floor] lines that
    open [updateChunks]. *)
Definition playerChunk (E : Env) (w : World) : option (Z * Z) :=
  p ← player_position w;
  Some (JS.Math_floor (vx p / chunkSize E), JS.Math_floor (vz p / chunkSize E)).

(** [-loadedRadius, ..., loadedRadius]: the values both [for] loops take. *)
Definition offsets (E : Env) : list Z :=
  seqZ (- loadedRadius E) (2 * loadedRadius E + 1).

(** The body of the inner [for] loop. *)
Definition loadOne (E : Env) (cx cz dx dz : Z) (w : World) : World :=
  let id := chunkKey (cx + dx) (cz + dz) in
  if JS.has (chunks w) id then w else createChunk E (cx + dx) (cz + dz) id w.

Definition loadNear (E : Env) (cx cz : Z) (w : World) : World :=
  foldl (fun w dx => foldl (fun w dz => loadOne E cx cz dx dz w) w (offsets E))
        w (offsets E).

(** The test of the [forEach] callback. *)
Definition far (E : Env) (cx cz : Z) (id : string) : bool :=
  let '(x, z) := parseID id in
  JS.gt (JS.abs (JS.sub x cx)) (loadedRadius E)
  || JS.gt (JS.abs (JS.sub z cz)) (loadedRadius E).

Definition unloadIfFar (E : Env) (cx cz : Z) (id : string) (w : World) : World :=
  if far E cx cz id then unloadChunk id w else w.

(** [chunks.forEach(...)]: the entries are visited in insertion order; the
    callback deletes at most the entry it is visiting, so walking the
    entries present at the start visits the same ones. *)
Definition unloadFar (E : Env) (cx cz : Z) (w : World) : World :=
  foldl (fun w e => unloadIfFar E cx cz (fst e) w) w (chunks w).

(** [updateChunks()]. *)
Definition updateChunks (E : Env) (w : World) : World :=
  match playerChunk E w with
  | Some (cx, cz) => unloadFar E cx cz (loadNear E cx cz w)
  | None => w
  end.

(** [keys[k]] in a condition. *)
Definition pressed (w : World) (k : string) : bool :=
  match keys w !! k with
  | Some b => b
  | None => false
  end.

Definition player_move (f : Vector3 -> Vector3) (w : World) : World :=
  match player_mesh w with
  | Some m => modify_position m f w
  | None => w
  end.

(** [if (keys[k]) player.mesh.position.<c> op= speed]. *)
Definition on_key (k : string) (f : Vector3 -> Vector3) (w : World) : World :=
  if pressed w k then player_move f w else w.

(** The body of [updatePlayer(delta)], with [keys] initialised. *)
Definition updatePlayer (delta : Q) (w : World) : World :=
  let speed := 10 * delta in
  let w := on_key "w" (fun v => mkVector3 (vx v) (vy v) (vz v - speed)) w in
  let w := on_key "s" (fun v => mkVector3 (vx v) (vy v) (vz v + speed)) w in
  let w := on_key "a" (fun v => mkVector3 (vx v - speed) (vy v) (vz v)) w in
  on_key "d" (fun v => mkVector3 (vx v + speed) (vy v) (vz v)) w.

(** The callback of [animateVehicles]:
    [v.position.y += Math.sin(Date.now()*0.001)*delta]. *)
Definition hover (E : Env) (delta : Q) (v : loc) (w : World) : World :=
  let '(t, w) := now E w in
  let dy := Math_sin E (inject_Z t * (1#1000)) * delta in
  modify_position v (fun p => mkVector3 (vx p) (vy p + dy) (vz p)) w.

(** The body of [animateVehicles(delta)], with [vehicles] initialised. *)
Definition animateVehicles (E : Env) (delta : Q) (w : World) : World :=
  foldl (fun w v => hover E delta v w) w (vehicles w).

(** [animateImmersion(delta)]. *)
Definition animateImmersion (E : Env) (delta : Q) (w : World) : World :=
  let '(t, w) := now E w in
  let time := inject_Z t * (1#1000) in
  match dirLight w with
  | Some l =>
      let w := modify_position l
                 (fun p => mkVector3 (Math_sin E time * 50) (vy p) (vz p)) w in
      modify_position l
        (fun p => mkVector3 (vx p) (vy p) (Math_cos E time * 50)) w
  | None => w
  end.

(** One frame of [animate()], [delta] being what [clock.getDelta()]
    returns; scheduling the next frame and rendering are the host's. *)
Definition animate (E : Env) (delta : Q) (w : World) : World :=
  let w := updatePlayer delta w in
  let w := updateChunks E w in
  let w := animateVehicles E delta w in
  animateImmersion E delta w.

(** A keyboard event. *)
Record KeyboardEvent := mkEvent { key : string; type : string }.

(** The bodies of [handleKeys(event)] and [handleKeysUp(event)], with
    [keys] initialised. *)
Definition handleKeys (E : Env) (event : KeyboardEvent) (w : World) : World :=
  let w := set_keys <[JS.toLowerCase (key event) :=
                        String.eqb (type event) "keydown"]> w in
  let w := if String.eqb (key event) "p" then buildVehicle E "plane" w else w in
  if String.eqb (key event) "b" then buildVehicle E "boat" w else w.

Definition handleKeysUp (event : KeyboardEvent) (w : World) : World :=
  set_keys <[JS.toLowerCase (key event) := false]> w.

(** The module's variables before [init()]: what the declarations of
    lines 4-11 give [player], [chunks] and [playerStructures].  [scene],
    [dirLight] and [player.mesh] are not set yet ([scene] holds the empty
    list of children that [new THREE.Scene()] starts with), and [keys] and
    [vehicles] hold what [const keys = {}] and [let vehicles = []] give
    them.  [init()] starts from here. *)
Definition boot : World :=
  mkWorld ∅ 0%nat [] 0 2 0 None [] [] ∅ [] None 0%nat 0%nat.

(** [init()], run once when the module loads: first the scene, the lights
    and the player's mesh, ... *)
Definition init_scene : World :=
  let w := boot in
  let '(ambient, w) := new_Object3D None None w in
  let w := scene_add ambient w in
  let '(dir, w) := new_Object3D None None w in
  let w := set_dirLight (Some dir) w in
  let w := position_set dir 20 50 20 w in
  let w := scene_add dir w in
  let '(playerGeo, w) := alloc (CGeometry (CapsuleGeometry (1#2) (3#2) 4 8)) w in
  let '(playerMat, w) := alloc (CMaterial (mkMaterial 0xff0000 false)) w in
  let '(mesh, w) := new_Mesh playerGeo playerMat w in
  let w := set_player_mesh (Some mesh) w in
  let w := position_set mesh (player_x w) (player_y w) (player_z w) w in
  scene_add mesh w.

(** ... then [updateChunks()], to load the first chunks. *)
Definition init (E : Env) : World :=
  updateChunks E init_scene.

(** What the host can do to the module once it is loaded: deliver a
    [keydown] or a [keyup] event, or run a frame.  [step] and [reachable]
    run the bodies above, that is a module whose bindings are all
    initialised; the one state that main.js as it is loaded can be in is
    the first of the reachable ones, [init E] (see [Shipped] below). *)
Inductive step (E : Env) : World -> World -> Prop :=
| step_keydown k w :
    step E w (handleKeys E (mkEvent k "keydown") w)
| step_keyup k w :
    step E w (handleKeysUp (mkEvent k "keyup") w)
| step_frame delta w :
    step E w (animate E delta w).

Inductive reachable (E : Env) : World -> Prop :=
| reachable_init : reachable E (init E)
| reachable_step w w' : reachable E w -> step E w w' -> reachable E w'.

(** ** The module as it is loaded

    The functions above are the bodies of main.js's functions in a module
    whose bindings are all initialised.  main.js itself calls [init()] and
    [animate()] at lines 13-14, above the declarations [const keys = {}]
    (line 54) and [let vehicles = []] (line 63).  Function declarations are
    hoisted, so the two calls find their functions; [const] and [let]
    bindings are not initialised before their declaration is evaluated, and
    reading or assigning one before that throws a [ReferenceError].

    [Shipped] is the module with that order.  A state records which of the
    two declarations have been evaluated; a call completes normally or
    throws; a call that throws leaves what it did up to the throw.  Inside
    [Shipped] a function is named as in main.js, and the definition of
    [Shipped.f] uses the body [f] defined above. *)

Module Shipped.

(** [ReferenceError: Cannot access 'name' before initialization]. *)
Inductive error :=
| ReferenceError (name : string).

(** How a call ends. *)
Inductive completion :=
| Normal
| Throw (e : error).

(** The module's variables and objects, and which of [keys] and [vehicles]
    are initialised.  As long as one of them is not, the field of that name
    in [world] stands for nothing: no function reads it. *)
Record State := mkState {
  keys_initialised : bool;
  vehicles_initialised : bool;
  world : World
}.

Definition on_world (f : World -> World) (s : State) : State :=
  mkState (keys_initialised s) (vehicles_initialised s) (f (world s)).

(** [r], and then [f] unless [r] threw. *)
Definition and_then (r : completion * State)
    (f : State -> completion * State) : completion * State :=
  match r with
  | (Normal, s) => f s
  | (Throw e, s) => (Throw e, s)
  end.

(** [if(mesh){ scene.add(mesh); vehicles.push(mesh); saveStructure(mesh); }]:
    [scene.add(mesh)] is done when [vehicles] is looked up. *)
Definition register_vehicle (E : Env) (mesh : loc) (s : State)
    : completion * State :=
  let s := on_world (scene_add mesh) s in
  if vehicles_initialised s then
    (Normal,
     on_world (fun w => saveStructure E mesh
                          (set_vehicles (fun v => v ++ [mesh]) w)) s)
  else (Throw (ReferenceError "vehicles"), s).

(** [buildVehicle(type)]. *)
Definition buildVehicle (E : Env) (type : string) (s : State)
    : completion * State :=
  if String.eqb type "plane" then
    let '(mesh, w) := plane (world s) in
    register_vehicle E mesh (on_world (fun _ => w) s)
  else if String.eqb type "boat" then
    let '(mesh, w) := boat (world s) in
    register_vehicle E mesh (on_world (fun _ => w) s)
  else (Normal, s).

(** [handleKeys(event)]: the assignment looks [keys] up before it
    evaluates [event.key.toLowerCase()]. *)
Definition handleKeys (E : Env) (event : KeyboardEvent) (s : State)
    : completion * State :=
  if keys_initialised s then
    let s := on_world (set_keys <[JS.toLowerCase (key event) :=
                                    String.eqb (type event) "keydown"]>) s in
    and_then
      (if String.eqb (key event) "p" then buildVehicle E "plane" s
       else (Normal, s))
      (fun s => if String.eqb (key event) "b" then buildVehicle E "boat" s
                else (Normal, s))
  else (Throw (ReferenceError "keys"), s).

(** [handleKeysUp(event)]. *)
Definition handleKeysUp (event : KeyboardEvent) (s : State)
    : completion * State :=
  if keys_initialised s then (Normal, on_world (handleKeysUp event) s)
  else (Throw (ReferenceError "keys"), s).

(** [updatePlayer(delta)]: [keys["w"]] is the first thing it evaluates
    after [speed]. *)
Definition updatePlayer (delta : Q) (s : State) : completion * State :=
  if keys_initialised s then (Normal, on_world (updatePlayer delta) s)
  else (Throw (ReferenceError "keys"), s).

(** [animateVehicles(delta)]: [vehicles.forEach] looks [vehicles] up. *)
Definition animateVehicles (E : Env) (delta : Q) (s : State)
    : completion * State :=
  if vehicles_initialised s then (Normal, on_world (animateVehicles E delta) s)
  else (Throw (ReferenceError "vehicles"), s).

(** One frame of [animate()]. *)
Definition animate (E : Env) (delta : Q) (s : State) : completion * State :=
  and_then (updatePlayer delta s) (fun s =>
  let s := on_world (updateChunks E) s in
  and_then (animateVehicles E delta s) (fun s =>
  (Normal, on_world (animateImmersion E delta) s))).

(** The module when [init()] (line 13) has returned: [init] touches
    neither [keys] nor [vehicles]. *)
Definition initialised (E : Env) : State :=
  mkState false false (init E).

(** The evaluation of the module: the declarations of lines 4-11 and
    [init()], then [animate()] (line 14), whose first frame reads [delta]
    from the clock, then [const keys = {}] (line 54) and
    [let vehicles = []] (line 63).  A throw ends the evaluation: what comes
    after it is never evaluated. *)
Definition load (E : Env) (delta : Q) : completion * State :=
  and_then (animate E delta (initialised E)) (fun s =>
  let s := mkState true (vehicles_initialised s)
             (set_keys (fun _ => ∅) (world s)) in
  (Normal, mkState (keys_initialised s) true
             (set_vehicles (fun _ => []) (world s)))).

(** What the host does to the module after the evaluation, whether or not
    it threw: the listeners that [init] has registered get their events,
    and the frame that [animate] has requested before anything else runs.
    An exception thrown by a listener or by a frame is reported and
    dropped. *)
Inductive step (E : Env) : State -> State -> Prop :=
| keydown k s :
    step E s (handleKeys E (mkEvent k "keydown") s).2
| keyup k s :
    step E s (handleKeysUp (mkEvent k "keyup") s).2
| frame delta s :
    step E s (animate E delta s).2.

Inductive reachable (E : Env) : State -> Prop :=
| loaded delta : reachable E (load E delta).2
| stepped s s' : reachable E s -> step E s s' -> reachable E s'.

End Shipped.


(** ** Notions used to state the properties *)

(** [c] occurs in [s]. *)
Fixpoint occurs (c : ascii) (s : string) : bool :=
  match s with
  | EmptyString => false
  | String c' s' => Ascii.eqb c' c || occurs c s'
  end.

(** main.js's configuration, with a host whose random numbers are all 0,
    whose clock counts its own readings and whose sine is flat. *)
Definition E0 : Env :=
  mkEnv 50 2 (fun _ => 0) (fun n => Z.of_nat n) (fun _ => 0) (fun _ => 1)
    (fun _ => "0"%string).

(** The heap after [new THREE.Mesh(geo, mat)], [mesh.position.set(p)] and
    [g.add(mesh)], in a world whose next free location is [n]: the five
    cells of the mesh are [n] (geometry), [n+1] (material), [n+2]
    (position), [n+3] (rotation) and [n+4] (the mesh). *)
Definition mesh_heap (n g : loc) (geo : Geometry) (mat : Material)
    (p : Vector3) (h : gmap loc cell) : gmap loc cell :=
  alter (push_child (4 + n)%nat) g
    (alter (on_vector (fun _ => p)) (2 + n)%nat
       (<[(4 + n)%nat := CObject3D (mkObject3D (Some n) (Some (1 + n)%nat)
                                      (2 + n)%nat (3 + n)%nat [])]>
          (<[(3 + n)%nat := CEuler (mkEuler 0 0 0)]>
             (<[(2 + n)%nat := CVector3 (mkVector3 0 0 0)]>
                (<[(1 + n)%nat := CMaterial mat]>
                   (<[n := CGeometry geo]> h)))))).

Definition geometry_at (w : World) (l : loc) : option Geometry :=
  match heap w !! l with
  | Some (CGeometry g) => Some g
  | _ => None
  end.

(** What a renderer sees of the mesh at [m]: its geometry and where its
    centre is. *)
Definition primitive_at (w : World) (m : loc) : option (Geometry * Vector3) :=
  o ← object_at w m;
  gl ← geometry o;
  geo ← geometry_at w gl;
  p ← vector_at w (position o);
  Some (geo, p).

(** The primitives of the chunk registered under [id]. *)
Definition chunk_children (w : World) (id : string) : list loc :=
  match JS.get (chunks w) id with
  | Some g => match object_at w g with
              | Some o => children o
              | None => []
              end
  | None => []
  end.

(** The geometry and the position [terrainBlock] and [building] give their
    mesh when [rc] random numbers have been drawn before. *)
Definition terrain_geometry (E : Env) (rc : nat) : Geometry :=
  BoxGeometry 1 (Math_random E (2 + rc)%nat * 2) 1.

Definition terrain_position (E : Env) (cx cz : Z) (rc : nat) : Vector3 :=
  mkVector3
    ((Math_random E rc - (1#2)) * chunkSize E + inject_Z cx * chunkSize E)
    (Math_random E (2 + rc)%nat * 2 / 2)
    ((Math_random E (1 + rc)%nat - (1#2)) * chunkSize E + inject_Z cz * chunkSize E).

Definition building_geometry (E : Env) (rc : nat) : Geometry :=
  BoxGeometry (Math_random E rc * 3 + 1)
              (Math_random E (1 + rc)%nat * 5 + 3)
              (Math_random E (2 + rc)%nat * 3 + 1).

Definition building_position (E : Env) (cx cz : Z) (rc : nat) : Vector3 :=
  mkVector3
    (inject_Z cx * chunkSize E + (Math_random E (3 + rc)%nat - (1#2)) * chunkSize E)
    ((Math_random E (1 + rc)%nat * 5 + 3) / 2)
    (inject_Z cz * chunkSize E + (Math_random E (4 + rc)%nat - (1#2)) * chunkSize E).

(** The mesh at [m] was added to the group at [g] and is a box [geo]
    centred at [p] with [good geo p]; its cells were allocated after the
    group. *)
Definition placed (good : Geometry -> Vector3 -> Prop) (g : loc) (w : World)
    (m : loc) : Prop :=
  exists o gl geo p,
    heap w !! m = Some (CObject3D o) /\
    geometry o = Some gl /\
    heap w !! gl = Some (CGeometry geo) /\
    heap w !! position o = Some (CVector3 p) /\
    (g < gl < next w)%nat /\ (g < position o < next w)%nat /\
    (g < m < next w)%nat /\
    good geo p.

(** Every object allocated from [n0] on refers to a position and a rotation
    allocated from [n0] on. *)
Definition fresh_objects (n0 : loc) (w : World) : Prop :=
  forall l o, (n0 <= l < next w)%nat -> heap w !! l = Some (CObject3D o) ->
    (n0 <= position o < next w)%nat /\ (n0 <= rotation o < next w)%nat.

(** The invariant of the two loops of [createChunk]: [h0] is the heap and
    [n0] the next free location when [createChunk] was called, [g] the
    group, [k] the number of meshes added so far. *)
Definition built (good : Geometry -> Vector3 -> Prop) (h0 : gmap loc cell)
    (n0 g : loc) (k : nat) (w : World) : Prop :=
  (n0 <= g < next w)%nat /\
  (forall l, (l < n0)%nat \/ (next w <= l)%nat -> heap w !! l = h0 !! l) /\
  fresh_objects n0 w /\
  exists o, heap w !! g = Some (CObject3D o) /\
            length (children o) = k /\
            Forall (placed good g w) (children o).

(** The square of side [chunkSize] centred on the chunk's corner
    [(cx * chunkSize, cz * chunkSize)], its edges included: the exact
    offset [(r - 0.5) * chunkSize] stays below [chunkSize / 2] for
    [r < 1], but the double that the code computes can round onto it. *)
Definition in_centred_square (E : Env) (cx cz : Z) (p : Vector3) : Prop :=
  (inject_Z cx * chunkSize E - chunkSize E / 2 <= vx p
   /\ vx p <= inject_Z cx * chunkSize E + chunkSize E / 2) /\
  (inject_Z cz * chunkSize E - chunkSize E / 2 <= vz p
   /\ vz p <= inject_Z cz * chunkSize E + chunkSize E / 2).

(** A box whose base is at y = 0: its centre is at half its height. *)
Definition on_ground (geo : Geometry) (p : Vector3) : Prop :=
  match geo with
  | BoxGeometry _ h _ => vy p == h / 2
  | _ => False
  end.

Definition centred (E : Env) (cx cz : Z) (geo : Geometry) (p : Vector3) : Prop :=
  in_centred_square E cx cz p /\ on_ground geo p.

(** The id [saveStructure] makes up when it is called in [w]:
    [Date.now()+"_"+Math.random()]. *)
Definition structureID (E : Env) (w : World) : string :=
  JS.ToString (Date_now E (now_calls w)) +:+ "_"
  +:+ Number_toString E (Math_random E (random_calls w)).

(** *** How the heap may change *)

Definition is_object (c : cell) : Prop :=
  match c with
  | CObject3D _ => True
  | _ => False
  end.

(** Two states of one object: a vector or an Euler triple may have new
    components, an [Object3D] new children; its references stay, and a
    geometry or a material does not change. *)
Definition similar (c c' : cell) : Prop :=
  match c, c' with
  | CVector3 _, CVector3 _ => True
  | CEuler _, CEuler _ => True
  | CObject3D o, CObject3D o' =>
      geometry o = geometry o' /\ material o = material o' /\
      position o = position o' /\ rotation o = rotation o'
  | _, _ => c = c'
  end.

(** [l] is the position or the rotation of some object. *)
Definition referenced (h : gmap loc cell) (l : loc) : Prop :=
  exists m o, h !! m = Some (CObject3D o) /\ (l = position o \/ l = rotation o).

(** The references of a newly allocated object are new as well. *)
Definition new_cell (lo hi : loc) (c : cell) : Prop :=
  match c with
  | CObject3D o =>
      (lo <= position o < hi)%nat /\ (lo <= rotation o < hi)%nat
  | _ => True
  end.

Definition heap_below (h : gmap loc cell) (n : loc) : Prop :=
  forall l c, h !! l = Some c -> (l < n)%nat.

Definition objects_below (h : gmap loc cell) (n : loc) : Prop :=
  forall l o, h !! l = Some (CObject3D o) ->
    (position o < n)%nat /\ (rotation o < n)%nat.

(** From heap [h] with next free location [n] to heap [h'] with [n']: cells
    are only added, at the locations from [n] on; a cell that was there keeps
    its class and its references, and changes at all only if it is an object
    or the position or rotation of one. *)
Definition heap_evolves (h : gmap loc cell) (n : loc)
    (h' : gmap loc cell) (n' : loc) : Prop :=
  heap_below h n ->
  (n <= n')%nat /\
  (forall l c, h !! l = Some c ->
     exists c', h' !! l = Some c' /\ similar c c' /\
                (c' = c \/ is_object c \/ referenced h l)) /\
  (forall l c', h' !! l = Some c' ->
     is_Some (h !! l) \/ ((n <= l < n')%nat /\ new_cell n n' c')).

Definition evolves (w w' : World) : Prop :=
  heap_evolves (heap w) (next w) (heap w') (next w').

(** *** Well-formed states *)

(** The chunk registry holds only keys printed by [chunkKey]. *)
Definition keys_printed (m : list (string * loc)) : Prop :=
  forall id, id ∈ JS.keys m -> exists x z, id = chunkKey x z.

(** [player.mesh] is an object whose position is a vector. *)
Definition player_allocated (w : World) : Prop :=
  exists m o v,
    player_mesh w = Some m /\
    heap w !! m = Some (CObject3D o) /\
    heap w !! position o = Some (CVector3 v).

(** A cell that is no object and that no object refers to as its position or
    rotation: what [saveStructure] stores. *)
Definition snapshot_cell (h : gmap loc cell) (l : loc) : Prop :=
  (exists c, h !! l = Some c /\ ~ is_object c) /\ ~ referenced h l.

Definition snapshot_ok (h : gmap loc cell) (s : Structure) : Prop :=
  snapshot_cell h (s_geometry s) /\ snapshot_cell h (s_material s) /\
  snapshot_cell h (s_position s) /\ snapshot_cell h (s_rotation s).

Record wf (w : World) : Prop := mk_wf {
  wf_heap_below : heap_below (heap w) (next w);
  wf_objects_below : objects_below (heap w) (next w);
  wf_player : player_allocated w;
  wf_keys_printed : keys_printed (chunks w);
  wf_keys_NoDup : NoDup (JS.keys (chunks w));
  wf_structures : forall e, e ∈ playerStructures w -> snapshot_ok (heap w) e.2
}.

(** [mesh] is a [Mesh]: an object with a geometry and a material, a vector
    for its position and an Euler triple for its rotation. *)
Definition is_mesh (w : World) (mesh : loc) (o : Object3D)
    (geo : Geometry) (mat : Material) (p : Vector3) (r : Euler) : Prop :=
  exists g m,
    heap w !! mesh = Some (CObject3D o) /\
    geometry o = Some g /\ material o = Some m /\
    heap w !! g = Some (CGeometry geo) /\
    heap w !! m = Some (CMaterial mat) /\
    heap w !! position o = Some (CVector3 p) /\
    heap w !! rotation o = Some (CEuler r).

(** *** The load window *)

(** [id] is the key of a chunk within Chebyshev distance [loadedRadius] of
    [(cx, cz)]. *)
Definition in_window (E : Env) (cx cz : Z) (id : string) : Prop :=
  exists x z, id = chunkKey x z /\
              (Z.abs (x - cx) <= loadedRadius E)%Z /\
              (Z.abs (z - cz) <= loadedRadius E)%Z.

(** *** What can happen to a vehicle's mesh after it was recorded *)

(** A frame (with its hover animation), an assignment to the mesh's
    position or rotation, or its removal from the scene. *)
Inductive mutation (E : Env) (mesh : loc) : World -> World -> Prop :=
| mutation_frame delta w :
    mutation E mesh w (animate E delta w)
| mutation_position f w :
    mutation E mesh w (modify_position mesh f w)
| mutation_rotation f w :
    mutation E mesh w (modify_rotation mesh f w)
| mutation_remove w :
    mutation E mesh w (scene_remove mesh w).

(** *** Calls of the chunk lifecycle manager *)

Inductive lifecycle_call :=
| call_updateChunks
| call_unloadChunk (id : string).

Definition run_call (E : Env) (c : lifecycle_call) (w : World) : World :=
  match c with
  | call_updateChunks => updateChunks E w
  | call_unloadChunk id => unloadChunk id w
  end.

(** *** Parts of the state *)

(** The module's variables, apart from the objects they point to and from
    the two call counters. *)
Definition variables (w : World) :=
  (scene w, chunks w, playerStructures w, keys w, vehicles w,
   player_x w, player_y w, player_z w, player_mesh w, dirLight w).

(** What is not the chunk lifecycle manager's: everything but the chunk
    registry, the scene, the heap and the random numbers drawn. *)
Definition outside_chunks (w : World) :=
  (playerStructures w, keys w, vehicles w,
   player_x w, player_y w, player_z w, player_mesh w, dirLight w, now_calls w).

(** Allocation only: no cell that was there is written to. *)
Definition grows (w w' : World) : Prop :=
  (next w <= next w')%nat /\
  forall l, (l < next w)%nat -> heap w' !! l = heap w !! l.

(** The four cells of a recorded structure. *)
Definition structure_cells (s : Structure) : list loc :=
  [s_geometry s; s_material s; s_position s; s_rotation s].

(** Where a vehicle is put when the player stands where the module's
    declarations put it, at (0, 2, 0): [player.x + 2], then [player.y + 1]
    for a plane and 0.25 for a boat, then [player.z]. *)
Definition spawn_position (type : string) : Vector3 :=
  if String.eqb type "plane" then mkVector3 2 3 0 else mkVector3 2 (1#4) 0.

(** *** Sample states *)

(** The world in which [buildVehicle("boat")], called when the scene is set
    up, calls [saveStructure], and the mesh it passes. *)
Definition boat_pushed : loc * World :=
  let '(mesh, w) := boat init_scene in
  (mesh, set_vehicles (fun v => v ++ [mesh]) (scene_add mesh w)).

(** The world after [init()], a [keydown] of "d" and one frame of one
    second: the player's mesh has moved 10 units along x. *)
Definition moved (E : Env) : World :=
  animate E 1 (handleKeys E (mkEvent "d" "keydown") (init E)).

(** The world after [init()] and a [keydown] of "b": one boat is built and
    recorded. *)
Definition with_boat (E : Env) : World :=
  handleKeys E (mkEvent "b" "keydown") (init E).

(** ** Notions used by the further properties *)

(** The chunk registered under [id] holds [n] primitives, each of them a box
    with its base at y = 0 in the square centred on
    [(x * chunkSize, z * chunkSize)]. *)
Definition generated (E : Env) (w : World) (id : string) (n : nat) (x z : Z) : Prop :=
  length (chunk_children w id) = n /\
  forall m, m ∈ chunk_children w id ->
    exists geo p, primitive_at w m = Some (geo, p) /\
                  in_centred_square E x z p /\ on_ground geo p.

(** The world after [init()]'s scene set-up and one call
    [createChunk(0, 0, "0_0")]. *)
Definition one_chunk (E : Env) : World :=
  createChunk E 0 0 "0_0" init_scene.

(** What a stretch of the load loops does to the registry: registered
    chunks stay; an id registered on the way is that of a chunk generated on
    the way, at a location that was free before. *)
Definition loads (E : Env) (w w' : World) : Prop :=
  heap_below (heap w) (next w) ->
  heap_below (heap w') (next w') /\
  grows w w' /\
  (forall id g, JS.get (chunks w) id = Some g -> JS.get (chunks w') id = Some g) /\
  (forall id g, JS.get (chunks w) id = None -> JS.get (chunks w') id = Some g ->
     (next w <= g)%nat /\
     forall x z, id = chunkKey x z -> generated E w' id 53 x z).

(** The object at [l] has a vector for its position, and no other object
    has that vector for its position. *)
Definition owns_position (h : gmap loc cell) (l : loc) : Prop :=
  exists o p,
    h !! l = Some (CObject3D o) /\
    h !! position o = Some (CVector3 p) /\
    forall l' o', h !! l' = Some (CObject3D o') ->
                  position o' = position o -> l' = l.

(** The player's mesh and the vehicles are different objects with positions
    of their own, and the directional light is not the player's mesh. *)
Record separate (w : World) : Prop := mk_separate {
  sep_player : exists m, player_mesh w = Some m /\ owns_position (heap w) m /\
                         (m ∉ vehicles w) /\ (dirLight w <> Some m);
  sep_vehicles : Forall (owns_position (heap w)) (vehicles w);
  sep_NoDup : NoDup (vehicles w)
}.

(** The registry is the window around the chunk the player's mesh stands
    in. *)
Definition windowed (E : Env) (w : World) : Prop :=
  forall cx cz, playerChunk E w = Some (cx, cz) ->
    forall id, id ∈ JS.keys (chunks w) <-> in_window E cx cz id.

(** What the scene holds: the two lights and the player's mesh that [init]
    put there, the vehicles, and the groups of the registered chunks, each
    of them once and below the next free location. *)
Record scene_accounted (w : World) : Prop := mk_scene_accounted {
  scene_contents :
    scene w ≡ₚ scene init_scene ++ vehicles w ++ (snd <$> chunks w);
  scene_NoDup : NoDup (scene w);
  scene_below : Forall (fun o => (o < next w)%nat) (scene w)
}.

(** The shapes [createChunk] makes: a terrain block is a box 1 x h x 1 with
    0 <= h < 2, a building a box w x h x d with 1 <= w, d < 4 and
    3 <= h < 8. *)
Definition block_or_building (geo : Geometry) : Prop :=
  match geo with
  | BoxGeometry w h d =>
      (w == 1 /\ d == 1 /\ 0 <= h /\ h < 2) \/
      (1 <= w /\ w < 4 /\ 3 <= h /\ h < 8 /\ 1 <= d /\ d < 4)
  | _ => False
  end.

(** main.js's configuration with a host whose clock stands still and whose
    random numbers are all 0: two calls of [saveStructure] make up the same
    id. *)
Definition E_still : Env :=
  mkEnv 50 2 (fun _ => 0) (fun _ => 0%Z) (fun _ => 0) (fun _ => 1)
    (fun _ => "0"%string).

(** The world after one [saveStructure] of the boat of [boat_pushed]. *)
Definition boat_saved (E : Env) : World :=
  saveStructure E boat_pushed.1 boat_pushed.2.

(** Every object allocated from [n0] on has its position two locations
    before itself, where the [Object3D] constructor allocated it. *)
Definition adjacent_from (n0 : loc) (h : gmap loc cell) : Prop :=
  forall l o, (n0 <= l)%nat -> h !! l = Some (CObject3D o) ->
              (2 + position o)%nat = l.

(** A primitive of the chunk registered under [id]: a mesh that is neither
    a vehicle nor the player's mesh nor the light, with a position of its
    own, and a box on the ground in the square of the chunk that [id] is the
    key of. *)
Definition primitive_ok (E : Env) (w : World) (id : string) (m : loc) : Prop :=
  (m ∉ vehicles w) /\ (player_mesh w <> Some m) /\ (dirLight w <> Some m) /\
  owns_position (heap w) m /\
  exists geo p, primitive_at w m = Some (geo, p) /\
                forall x z, id = chunkKey x z -> centred E x z geo p.

(** Every registered chunk is a group of 53 such primitives. *)
Record chunks_intact (E : Env) (w : World) : Prop := mk_chunks_intact {
  intact_light : forall d, dirLight w = Some d -> (d < next w)%nat;
  intact_chunks : forall id g, JS.get (chunks w) id = Some g ->
    exists o, object_at w g = Some o /\ length (children o) = 53%nat /\
              Forall (primitive_ok E w id) (children o)
}.
(** * Properties *)

(** ** Keys: printing and parsing *)

Section Keys.

Local Open Scope Z_scope.

Lemma split_free sep s : occurs sep s = false -> JS.split sep s = [s].
Proof.
  induction s as [|c s IH]; simpl; [done|].
  destruct (Ascii.eqb c sep); simpl; [done|].
  intros Hs. by rewrite (IH Hs).
Qed.

Lemma split_at sep s1 s2 :
  occurs sep s1 = false ->
  JS.split sep (s1 +:+ String sep s2) = s1 :: JS.split sep s2.
Proof.
  induction s1 as [|c s1 IH]; simpl.
  - intros _. by rewrite Ascii.eqb_refl.
  - destruct (Ascii.eqb c sep); simpl; [done|].
    intros Hs. by rewrite (IH Hs).
Qed.

Lemma digits_free d : occurs "_" (NilEmpty.string_of_uint d) = false.
Proof. induction d; simpl; auto. Qed.

Lemma ToString_free n : occurs "_" (JS.ToString n) = false.
Proof.
  unfold JS.ToString.
  destruct (Z.to_int n) as [d|d]; simpl;
    (destruct d; [reflexivity | apply (digits_free (_ d)) ..]).
Qed.

Lemma Number_digits d :
  d <> Decimal.Nil ->
  JS.Number (NilEmpty.string_of_uint d) = Some (Z.of_uint d).
Proof.
  intros Hd.
  assert (Hu : JS.StrDecimalDigits (NilEmpty.string_of_uint d) = Some (Z.of_uint d)).
  { unfold JS.StrDecimalDigits.
    assert (NilZero.uint_of_string (NilEmpty.string_of_uint d) = Some d) as ->; [|done].
    rewrite <- (NilZero.usu d Hd). by destruct d. }
  destruct d; try done; simpl JS.Number; exact Hu.
Qed.

(** Parsing what was printed gives the number back. *)
Lemma Number_ToString n : JS.Number (JS.ToString n) = Some n.
Proof.
  destruct n as [|p|p]; [reflexivity| |].
  - unfold JS.ToString. simpl Z.to_int. simpl NilZero.string_of_int.
    pose proof (Unsigned.to_uint_nonnil p) as Hp.
    assert (NilZero.string_of_uint (Pos.to_uint p)
            = NilEmpty.string_of_uint (Pos.to_uint p)) as -> by by destruct (Pos.to_uint p).
    rewrite Number_digits by done.
    unfold Z.of_uint. by rewrite Unsigned.of_to.
  - unfold JS.ToString. simpl Z.to_int. simpl NilZero.string_of_int.
    pose proof (Unsigned.to_uint_nonnil p) as Hp.
    unfold JS.Number. rewrite Ascii.eqb_refl.
    unfold JS.StrDecimalDigits. rewrite NilZero.usu by done. simpl.
    unfold Z.of_uint. by rewrite Unsigned.of_to.
Qed.

Lemma parseID_chunkKey a b : parseID (chunkKey a b) = (Some a, Some b).
Proof.
  unfold parseID, chunkKey.
  change ("_" +:+ JS.ToString b) with (String "_" (JS.ToString b)).
  rewrite split_at by apply ToString_free.
  rewrite split_free by apply ToString_free.
  simpl. by rewrite !Number_ToString.
Qed.

Lemma chunkKey_inj a b a' b' : chunkKey a b = chunkKey a' b' -> a = a' /\ b = b'.
Proof.
  intros Heq. pose proof (parseID_chunkKey a b) as H1.
  rewrite Heq, parseID_chunkKey in H1. by simplify_eq.
Qed.

(** C2: for every world position and every positive chunk size, the key
    printed by [chunkID] parses back, by [split("_")] and [Number], to the
    chunk coordinate (floor(x/chunkSize), floor(z/chunkSize)), negative
    coordinates included. *)
Theorem chunkID_roundtrip (E : Env) (x z : Q) :
  (0 < chunkSize E)%Q ->
  parseID (chunkID E x z)
  = (Some (JS.Math_floor (x / chunkSize E)), Some (JS.Math_floor (z / chunkSize E))).
Proof. intros _. apply parseID_chunkKey. Qed.

End Keys.

(** ** The insertion-ordered map *)

Section MapFacts.
Context {V : Type}.
Implicit Types (m : list (string * V)) (k : string) (v : V).

Lemma has_get m k : JS.has m k = true <-> is_Some (JS.get m k).
Proof.
  induction m as [|[k' v'] m IH]; simpl.
  - split; [done|]. by intros [? ?].
  - destruct (String.eqb k' k); simpl; [|done].
    split; [by eexists|done].
Qed.

Lemma has_keys m k : JS.has m k = true <-> k ∈ JS.keys m.
Proof.
  unfold JS.keys. induction m as [|[k' v'] m IH]; simpl.
  - split; [done|]. intros H. by apply elem_of_nil in H.
  - rewrite elem_of_cons, <- IH.
    destruct (String.eqb_spec k' k) as [->|Hne]; simpl; [tauto|].
    split; [tauto|]. intros [?|?]; [congruence|done].
Qed.

Lemma not_has_keys m k : JS.has m k = false <-> k ∉ JS.keys m.
Proof. rewrite <- has_keys. by destruct (JS.has m k). Qed.

Lemma get_set_eq m k v : JS.get (JS.set m k v) k = Some v.
Proof.
  induction m as [|[k' v'] m IH]; simpl.
  - by rewrite String.eqb_refl.
  - destruct (String.eqb k' k) eqn:Hk; simpl.
    + by rewrite String.eqb_refl.
    + by rewrite Hk.
Qed.

Lemma get_set_ne m k k' v : k <> k' -> JS.get (JS.set m k v) k' = JS.get m k'.
Proof.
  intros Hne. induction m as [|[k0 v0] m IH]; simpl.
  - apply String.eqb_neq in Hne. by rewrite Hne.
  - destruct (String.eqb_spec k0 k) as [->|Hk]; simpl.
    + apply String.eqb_neq in Hne. by rewrite Hne.
    + by rewrite IH.
Qed.

(** A new key goes last; an old one keeps its place. *)
Lemma keys_set_new m k v :
  JS.has m k = false -> JS.keys (JS.set m k v) = JS.keys m ++ [k].
Proof.
  unfold JS.keys. induction m as [|[k' v'] m IH]; csimpl; [done|].
  destruct (String.eqb k' k); csimpl; [done|].
  intros Hm. by rewrite IH.
Qed.

Lemma keys_set_old m k v :
  JS.has m k = true -> JS.keys (JS.set m k v) = JS.keys m.
Proof.
  unfold JS.keys. induction m as [|[k' v'] m IH]; csimpl; [done|].
  destruct (String.eqb_spec k' k) as [->|Hne]; csimpl; [done|].
  intros Hm. by rewrite IH.
Qed.

Lemma elem_of_keys_set m k v k' :
  k' ∈ JS.keys (JS.set m k v) <-> k' = k \/ k' ∈ JS.keys m.
Proof.
  destruct (JS.has m k) eqn:Hk.
  - rewrite keys_set_old by done. apply has_keys in Hk.
    split; [auto|]. by intros [->|?].
  - rewrite keys_set_new by done. rewrite elem_of_app, list_elem_of_singleton.
    tauto.
Qed.

Lemma NoDup_keys_set m k v : NoDup (JS.keys m) -> NoDup (JS.keys (JS.set m k v)).
Proof.
  intros Hm. destruct (JS.has m k) eqn:Hk.
  - by rewrite keys_set_old.
  - rewrite keys_set_new by done. apply NoDup_app. split_and!; [done| |].
    + intros x Hx ->%list_elem_of_singleton. by apply not_has_keys in Hk.
    + apply NoDup_singleton.
Qed.

(** Deleting the entry that stands right after [m1], none of whose keys
    is [k]. *)
Lemma delete_middle m1 m2 k v :
  k ∉ JS.keys m1 -> JS.delete (m1 ++ (k, v) :: m2) k = m1 ++ m2.
Proof.
  unfold JS.keys. induction m1 as [|[k' v'] m1 IH]; simpl.
  - intros _. by rewrite String.eqb_refl.
  - rewrite not_elem_of_cons. intros [Hne Hm1].
    destruct (String.eqb_spec k' k) as [->|_]; [done|]. by rewrite IH.
Qed.

Lemma get_middle m1 m2 k v :
  k ∉ JS.keys m1 -> JS.get (m1 ++ (k, v) :: m2) k = Some v.
Proof.
  unfold JS.keys. induction m1 as [|[k' v'] m1 IH]; simpl.
  - intros _. by rewrite String.eqb_refl.
  - rewrite not_elem_of_cons. intros [Hne Hm1].
    destruct (String.eqb_spec k' k) as [->|_]; [done|]. by rewrite IH.
Qed.
End MapFacts.

(** ** How the heap evolves *)

Section Evolution.

Lemma similar_refl c : similar c c.
Proof. by destruct c. Qed.

Lemma similar_trans c1 c2 c3 : similar c1 c2 -> similar c2 c3 -> similar c1 c3.
Proof.
  destruct c1, c2, c3; simpl; try done; try congruence.
  intros (-> & -> & -> & ->) (-> & -> & -> & ->). done.
Qed.

Lemma similar_object c o' :
  similar c (CObject3D o') ->
  exists o, c = CObject3D o /\ position o = position o' /\ rotation o = rotation o'.
Proof. destruct c; simpl; try done. intros (_ & _ & ? & ?). eauto. Qed.

Lemma similar_is_object c c' : similar c c' -> is_object c' -> is_object c.
Proof. by destruct c, c'. Qed.

Lemma similar_not_object c c' : similar c c' -> ~ is_object c -> ~ is_object c'.
Proof. by destruct c, c'. Qed.

Lemma similar_new_cell lo hi c c' : similar c c' -> new_cell lo hi c -> new_cell lo hi c'.
Proof.
  destruct c, c'; simpl; try done.
  intros (_ & _ & <- & <-). done.
Qed.

Lemma new_cell_mono lo hi lo' hi' c :
  (lo' <= lo)%nat -> (hi <= hi')%nat -> new_cell lo hi c -> new_cell lo' hi' c.
Proof. destruct c; simpl; try done. lia. Qed.

Lemma heap_evolves_refl h n : heap_evolves h n h n.
Proof.
  intros _. split_and!; [done| |by eauto].
  intros l c Hc. exists c. split_and!; [done|apply similar_refl|by left].
Qed.

Lemma heap_evolves_below h n h' n' :
  heap_below h n -> heap_evolves h n h' n' -> heap_below h' n'.
Proof.
  intros Hb He. destruct (He Hb) as (Hn & _ & Hnew).
  intros l c' Hc'. destruct (Hnew l c' Hc') as [[c Hc]|[? _]]; [|lia].
  apply Hb in Hc. lia.
Qed.

Lemma heap_evolves_objects h n h' n' :
  heap_below h n -> objects_below h n ->
  heap_evolves h n h' n' -> objects_below h' n'.
Proof.
  intros Hb Ho He. destruct (He Hb) as (Hn & Hold & Hnew).
  intros l o' Hl. destruct (Hnew l _ Hl) as [[c Hc]|[_ Hc]].
  - destruct (Hold l c Hc) as (c' & Hc' & Hsim & _).
    rewrite Hl in Hc'. injection Hc' as <-.
    apply similar_object in Hsim as (o & -> & Hp & Hr).
    apply Ho in Hc. lia.
  - simpl in Hc. lia.
Qed.

Lemma heap_evolves_trans h n h' n' h'' n'' :
  heap_evolves h n h' n' -> heap_evolves h' n' h'' n'' ->
  heap_evolves h n h'' n''.
Proof.
  intros H1 H2 Hb.
  pose proof (heap_evolves_below _ _ _ _ Hb H1) as Hb'.
  destruct (H1 Hb) as (Hn1 & Hold1 & Hnew1).
  destruct (H2 Hb') as (Hn2 & Hold2 & Hnew2).
  split_and!; [lia| |].
  - intros l c Hc.
    destruct (Hold1 l c Hc) as (c' & Hc' & Hs1 & Hd1).
    destruct (Hold2 l c' Hc') as (c'' & Hc'' & Hs2 & Hd2).
    exists c''. split_and!; [done|by eapply similar_trans|].
    destruct Hd2 as [->|[Hobj|(m & o' & Hm & Hl)]]; [done| |].
    + right; left. by eapply similar_is_object.
    + right; right.
      destruct (Hnew1 m _ Hm) as [[cm Hcm]|[Hfresh Hnc]].
      * destruct (Hold1 m cm Hcm) as (cm' & Hcm' & Hsm & _).
        rewrite Hm in Hcm'. injection Hcm' as <-.
        apply similar_object in Hsm as (o & -> & Hp & Hr).
        exists m, o. by rewrite Hp, Hr.
      * apply Hb in Hc. simpl in Hnc. lia.
  - intros l c'' Hc''.
    destruct (Hnew2 l c'' Hc'') as [[c' Hc']|[Hfresh Hnc]].
    + destruct (Hnew1 l c' Hc') as [?|[Hfresh Hnc]]; [by left|].
      right. split; [lia|].
      destruct (Hold2 l c' Hc') as (c3 & Hc3 & Hs & _).
      rewrite Hc'' in Hc3. injection Hc3 as <-.
      eapply new_cell_mono; [| |eapply similar_new_cell; eauto]; lia.
    + right. split; [lia|]. eapply new_cell_mono; [| |exact Hnc]; lia.
Qed.

(** An allocation of anything but an object. *)
Lemma heap_evolves_insert h n c :
  ~ is_object c -> heap_evolves h n (<[n := c]> h) (S n).
Proof.
  intros Hc Hb. split_and!; [lia| |].
  - intros l c0 Hl. exists c0.
    pose proof (Hb _ _ Hl). rewrite lookup_insert_ne by lia.
    split_and!; [done|apply similar_refl|by left].
  - intros l c'. rewrite lookup_insert. case_decide as Hl.
    + intros [= <-]. right. split; [lia|]. by destruct c.
    + intros Hc'. left. by eexists.
Qed.

(** The [Object3D] constructor. *)
Lemma heap_evolves_new_object h n geo mat v e :
  heap_evolves h n
    (<[S (S n) := CObject3D (mkObject3D geo mat n (S n) [])]>
       (<[S n := CEuler e]> (<[n := CVector3 v]> h)))
    (S (S (S n))).
Proof.
  intros Hb. split_and!; [lia| |].
  - intros l c0 Hl. exists c0.
    pose proof (Hb _ _ Hl). rewrite !lookup_insert_ne by lia.
    split_and!; [done|apply similar_refl|by left].
  - intros l c'. rewrite !lookup_insert. repeat case_decide.
    + intros [= <-]. right. split; [lia|]. simpl. lia.
    + intros [= <-]. right. split; [lia|]. done.
    + intros [= <-]. right. split; [lia|]. done.
    + intros Hc'. left. by eexists.
Qed.

(** An assignment to the components of a cell that is an object or
    belongs to one. *)
Lemma heap_evolves_alter h n f p :
  (forall c, similar c (f c)) ->
  (forall c, h !! p = Some c -> f c = c \/ is_object c \/ referenced h p) ->
  heap_evolves h n (alter f p h) n.
Proof.
  intros Hf Hp Hb. split_and!; [lia| |].
  - intros l c Hl. rewrite lookup_alter. case_decide as Hlp.
    + subst l. rewrite Hl. simpl. exists (f c). split_and!; [done|apply Hf|].
      by apply Hp.
    + exists c. split_and!; [done|apply similar_refl|by left].
  - intros l c'. rewrite lookup_alter. case_decide as Hlp.
    + subst l. destruct (h !! p) as [c|]; simpl; [|done]. intros _. by left.
    + intros Hl. left. by eexists.
Qed.

Lemma similar_on_vector f c : similar c (on_vector f c).
Proof. by destruct c. Qed.

Lemma similar_on_euler f c : similar c (on_euler f c).
Proof. by destruct c. Qed.

Lemma similar_push_child m c : similar c (push_child m c).
Proof. by destruct c. Qed.

Lemma heap_evolves_modify_position h n o f :
  heap_evolves h n (heap_modify_position o f h) n.
Proof.
  unfold heap_modify_position.
  destruct (h !! o) as [[| | | |obj]|] eqn:Ho; try apply heap_evolves_refl.
  apply heap_evolves_alter; [apply similar_on_vector|].
  intros c _. right; right. exists o, obj. auto.
Qed.

Lemma heap_evolves_modify_rotation h n o f :
  heap_evolves h n (heap_modify_rotation o f h) n.
Proof.
  unfold heap_modify_rotation.
  destruct (h !! o) as [[| | | |obj]|] eqn:Ho; try apply heap_evolves_refl.
  apply heap_evolves_alter; [apply similar_on_euler|].
  intros c _. right; right. exists o, obj. auto.
Qed.

Lemma heap_evolves_push_child h n parent child :
  heap_evolves h n (alter (push_child child) parent h) n.
Proof.
  apply heap_evolves_alter; [apply similar_push_child|].
  intros c _. destruct c; simpl; auto.
Qed.

End Evolution.

(** Lookups after an assignment through an object, and two tactics: one
    chains the evolution lemmas along a straight-line function, the other
    computes a lookup in a heap built by insertions and assignments. *)
Lemma lookup_modify_position o f h l :
  heap_modify_position o f h !! l
  = match h !! o with
    | Some (CObject3D obj) =>
        if decide (position obj = l) then on_vector f <$> h !! l else h !! l
    | _ => h !! l
    end.
Proof.
  unfold heap_modify_position. destruct (h !! o) as [[| | | |obj]|]; try done.
  rewrite lookup_alter. case_decide; by subst.
Qed.

Lemma lookup_modify_rotation o f h l :
  heap_modify_rotation o f h !! l
  = match h !! o with
    | Some (CObject3D obj) =>
        if decide (rotation obj = l) then on_euler f <$> h !! l else h !! l
    | _ => h !! l
    end.
Proof.
  unfold heap_modify_rotation. destruct (h !! o) as [[| | | |obj]|]; try done.
  rewrite lookup_alter. case_decide; by subst.
Qed.

Ltac heap_lookup :=
  repeat first
    [ rewrite lookup_insert_eq
    | rewrite lookup_alter_eq
    | rewrite lookup_insert_ne by lia
    | rewrite lookup_alter_ne by lia
    | rewrite lookup_modify_position
    | rewrite lookup_modify_rotation
    | rewrite decide_True by lia
    | rewrite decide_False by lia
    | progress simpl ].

Lemma heap_modify_position_eq o f h obj :
  h !! o = Some (CObject3D obj) ->
  heap_modify_position o f h = alter (on_vector f) (position obj) h.
Proof. unfold heap_modify_position. by intros ->. Qed.

Lemma heap_modify_rotation_eq o f h obj :
  h !! o = Some (CObject3D obj) ->
  heap_modify_rotation o f h = alter (on_euler f) (rotation obj) h.
Proof. unfold heap_modify_rotation. by intros ->. Qed.

Ltac plain_lookup :=
  repeat first
    [ rewrite lookup_insert_eq
    | rewrite lookup_alter_eq
    | rewrite lookup_insert_ne by lia
    | rewrite lookup_alter_ne by lia
    | progress cbn [fmap option_fmap option_map push_child on_vector on_euler
                    position rotation geometry material] ].

(** Turns every assignment through an object into an assignment to the
    cell it refers to, innermost first. *)
Ltac resolve_modify :=
  repeat match goal with
         | |- context [heap_modify_position ?o ?f ?h] =>
             lazymatch h with
             | context [heap_modify_position] => fail
             | context [heap_modify_rotation] => fail
             | _ => erewrite (heap_modify_position_eq o f h)
                      by (plain_lookup; reflexivity)
             end
         | |- context [heap_modify_rotation ?o ?f ?h] =>
             lazymatch h with
             | context [heap_modify_position] => fail
             | context [heap_modify_rotation] => fail
             | _ => erewrite (heap_modify_rotation_eq o f h)
                      by (plain_lookup; reflexivity)
             end
         end.

Ltac evolve_heap :=
  repeat (eapply heap_evolves_trans;
          [|first [ apply heap_evolves_modify_position
                  | apply heap_evolves_modify_rotation
                  | apply heap_evolves_push_child
                  | apply heap_evolves_new_object
                  | apply heap_evolves_insert; simpl; tauto ]]);
  apply heap_evolves_refl.



(** ** Vehicles *)

Section Vehicles.

(** C9: a build trigger whose type is neither ["plane"] nor ["boat"] does
    nothing: no mesh is created, and the scene, the vehicles list, the
    structure registry and every other part of the state stay as they
    were. *)
Theorem buildVehicle_unknown_type (E : Env) (type : string) (w : World) :
  type <> "plane"%string -> type <> "boat"%string ->
  buildVehicle E type w = w.
Proof.
  intros Hp Hb. unfold buildVehicle.
  apply String.eqb_neq in Hp, Hb. by rewrite Hp, Hb.
Qed.

End Vehicles.

(** ** Chunk generation *)

Section Generation.

Lemma iter_field {A} (proj : World -> A) (F : World -> World) n w :
  (forall w, proj (F w) = proj w) ->
  proj (Nat.iter n F w) = proj w.
Proof. intros HF. induction n as [|n IH]; simpl; [done|]. by rewrite HF. Qed.

Lemma iter_next (F : World -> World) k n w :
  (forall w, next (F w) = (k + next w)%nat) ->
  next (Nat.iter n F w) = (n * k + next w)%nat.
Proof. intros HF. induction n as [|n IH]; simpl; [done|]. rewrite HF, IH. lia. Qed.

Lemma createChunkWith_chunks nb nB E cx cz id w :
  chunks (createChunkWith nb nB E cx cz id w)
  = JS.set (chunks w) id (2 + next w)%nat.
Proof.
  unfold createChunkWith. cbn.
  by rewrite !(iter_field chunks).
Qed.

Lemma createChunkWith_scene nb nB E cx cz id w :
  scene (createChunkWith nb nB E cx cz id w) = scene w ++ [(2 + next w)%nat].
Proof.
  unfold createChunkWith. cbn.
  by rewrite !(iter_field scene).
Qed.

(** The cells of [mesh_heap]. *)
Section MeshHeap.
Context (n g : loc) (geo : Geometry) (mat : Material) (p : Vector3)
        (h : gmap loc cell).
Hypothesis Hg : (g < n)%nat.

Lemma mesh_heap_old l :
  (l < n)%nat \/ (5 + n <= l)%nat -> l <> g ->
  mesh_heap n g geo mat p h !! l = h !! l.
Proof.
  intros Hl Hne. unfold mesh_heap.
  rewrite !lookup_alter_ne, !lookup_insert_ne by lia. done.
Qed.

Lemma mesh_heap_group :
  mesh_heap n g geo mat p h !! g = push_child (4 + n)%nat <$> h !! g.
Proof.
  unfold mesh_heap. rewrite lookup_alter_eq.
  rewrite !lookup_alter_ne, !lookup_insert_ne by lia. done.
Qed.

Lemma mesh_heap_geometry :
  mesh_heap n g geo mat p h !! n = Some (CGeometry geo).
Proof.
  unfold mesh_heap.
  rewrite !lookup_alter_ne, !lookup_insert_ne by lia.
  by rewrite lookup_insert_eq.
Qed.

Lemma mesh_heap_material :
  mesh_heap n g geo mat p h !! (1 + n)%nat = Some (CMaterial mat).
Proof.
  unfold mesh_heap.
  rewrite !lookup_alter_ne, !lookup_insert_ne by lia.
  by rewrite lookup_insert_eq.
Qed.

Lemma mesh_heap_position :
  mesh_heap n g geo mat p h !! (2 + n)%nat = Some (CVector3 p).
Proof.
  unfold mesh_heap.
  rewrite lookup_alter_ne, lookup_alter_eq, !lookup_insert_ne by lia.
  by rewrite lookup_insert_eq.
Qed.

Lemma mesh_heap_rotation :
  mesh_heap n g geo mat p h !! (3 + n)%nat = Some (CEuler (mkEuler 0 0 0)).
Proof.
  unfold mesh_heap.
  rewrite !lookup_alter_ne, !lookup_insert_ne by lia.
  by rewrite lookup_insert_eq.
Qed.

Lemma mesh_heap_mesh :
  mesh_heap n g geo mat p h !! (4 + n)%nat
  = Some (CObject3D (mkObject3D (Some n) (Some (1 + n)%nat)
                       (2 + n)%nat (3 + n)%nat [])).
Proof.
  unfold mesh_heap.
  rewrite !lookup_alter_ne by lia.
  by rewrite lookup_insert_eq.
Qed.

(** A new location holds one of the five cells. *)
Lemma mesh_heap_new l c :
  (n <= l < 5 + n)%nat -> mesh_heap n g geo mat p h !! l = Some c ->
  c = CGeometry geo \/ c = CMaterial mat \/ c = CVector3 p \/
  c = CEuler (mkEuler 0 0 0) \/
  c = CObject3D (mkObject3D (Some n) (Some (1 + n)%nat)
                   (2 + n)%nat (3 + n)%nat []).
Proof.
  intros Hl Hc.
  assert (l = n \/ l = 1 + n \/ l = 2 + n \/ l = 3 + n \/ l = 4 + n)%nat
    as [->|[->|[->|[->| ->]]]] by lia.
  - rewrite mesh_heap_geometry in Hc. injection Hc as <-; auto 10.
  - rewrite mesh_heap_material in Hc. injection Hc as <-; auto 10.
  - rewrite mesh_heap_position in Hc. injection Hc as <-; auto 10.
  - rewrite mesh_heap_rotation in Hc. injection Hc as <-; auto 10.
  - rewrite mesh_heap_mesh in Hc. injection Hc as <-; auto 10.
Qed.
End MeshHeap.

Lemma terrainBlock_heap E cx cz g w :
  heap (terrainBlock E cx cz g w)
  = mesh_heap (next w) g (terrain_geometry E (random_calls w))
      (mkMaterial 0x333333 false) (terrain_position E cx cz (random_calls w))
      (heap w).
Proof.
  unfold terrainBlock. cbn. unfold heap_modify_position.
  by rewrite lookup_insert_eq.
Qed.

Lemma building_heap E cx cz g w :
  heap (building E cx cz g w)
  = mesh_heap (next w) g (building_geometry E (random_calls w))
      (mkMaterial 0x555555 true) (building_position E cx cz (random_calls w))
      (heap w).
Proof.
  unfold building. cbn. unfold heap_modify_position.
  by rewrite lookup_insert_eq.
Qed.

(** One more mesh keeps the loop invariant. *)
Lemma built_step good h0 n0 g k w w' geo mat p :
  built good h0 n0 g k w ->
  good geo p ->
  heap w' = mesh_heap (next w) g geo mat p (heap w) ->
  next w' = (5 + next w)%nat ->
  built good h0 n0 g (S k) w'.
Proof.
  intros ([Hn0 Hg] & Hold & Hfresh & o & Ho & Hk & Hch) Hgood Hh Hn.
  unfold built, fresh_objects. rewrite Hn, Hh. split_and!; try lia.
  - intros l Hl. rewrite mesh_heap_old by lia. apply Hold. lia.
  - intros l o' Hl Hlo.
    destruct (decide (l < next w)%nat) as [Hlt|Hge].
    + destruct (decide (l = g)) as [->|Hne].
      * rewrite mesh_heap_group, Ho in Hlo by done. simpl in Hlo.
        injection Hlo as <-. simpl.
        destruct (Hfresh g o) as [? ?]; [lia|done|]. lia.
      * rewrite mesh_heap_old in Hlo by (done || lia).
        destruct (Hfresh l o') as [? ?]; [lia|done|]. lia.
    + apply mesh_heap_new in Hlo as [?|[?|[?|[?|Heq]]]]; try done; try lia.
      injection Heq as ->. simpl. lia.
  - exists (mkObject3D (geometry o) (material o) (position o) (rotation o)
                      (children o ++ [(4 + next w)%nat])).
    split_and!.
    + by rewrite mesh_heap_group, Ho.
    + simpl. rewrite length_app. simpl. lia.
    + simpl. apply Forall_app. split.
      * eapply Forall_impl; [exact Hch|].
        intros m (om & gl & geo' & p' & Hm & Hgl & Hgeo & Hp & ? & ? & ? & ?).
        exists om, gl, geo', p'. unfold placed. rewrite ?Hn, ?Hh.
        rewrite !mesh_heap_old by lia. split_and!; try done; lia.
      * apply Forall_singleton.
        exists (mkObject3D (Some (next w)) (Some (1 + next w)%nat)
                  (2 + next w)%nat (3 + next w)%nat []), (next w), geo, p.
        rewrite ?Hn, ?Hh.
        split_and!; simpl; try done; try lia.
        -- by apply mesh_heap_mesh.
        -- by apply mesh_heap_geometry.
        -- by apply mesh_heap_position.
Qed.

(** The loop invariant after [k'] rounds of a loop whose body adds one mesh
    with a good geometry and position. *)
Lemma built_iter good h0 n0 g (F : World -> World) k' :
  (forall w, exists geo mat p,
      good geo p /\
      heap (F w) = mesh_heap (next w) g geo mat p (heap w) /\
      next (F w) = (5 + next w)%nat) ->
  forall k w, built good h0 n0 g k w ->
              built good h0 n0 g (k' + k) (Nat.iter k' F w).
Proof.
  intros HF. induction k' as [|k' IH]; intros k w Hw; simpl; [done|].
  destruct (HF (Nat.iter k' F w)) as (geo & mat & p & Hgood & Hh & Hn).
  eapply built_step; eauto.
Qed.

(** The invariant holds when the loops start. *)
Lemma built_new_Group good w :
  built good (heap w) (next w) (2 + next w) 0 (new_Group w).2.
Proof.
  unfold built, fresh_objects, new_Group, new_Object3D. cbn. split_and!; try lia.
  - intros l Hl. by rewrite !lookup_insert_ne by lia.
  - intros l o Hl Hlo.
    assert (l = next w \/ l = S (next w) \/ l = S (S (next w)))
      as [->|[->| ->]] by lia.
    + rewrite !lookup_insert_ne, lookup_insert_eq in Hlo by lia. done.
    + rewrite lookup_insert_ne, lookup_insert_eq in Hlo by lia. done.
    + rewrite lookup_insert_eq in Hlo. injection Hlo as <-. simpl. lia.
  - eexists. rewrite lookup_insert_eq. split_and!; [done|done|]. simpl. constructor.
Qed.

Lemma built_ext good h0 n0 g k w w' :
  heap w' = heap w -> next w' = next w ->
  built good h0 n0 g k w -> built good h0 n0 g k w'.
Proof.
  unfold built, fresh_objects, placed. intros -> ->. done.
Qed.

Lemma createChunkWith_built good nb nB E cx cz id w :
  (forall rc, good (terrain_geometry E rc) (terrain_position E cx cz rc)) ->
  (forall rc, good (building_geometry E rc) (building_position E cx cz rc)) ->
  built good (heap w) (next w) (2 + next w) (nB + (nb + 0))
    (createChunkWith nb nB E cx cz id w).
Proof.
  intros Ht Hb. unfold createChunkWith.
  pose proof (built_new_Group good w) as H0.
  destruct (new_Group w) as [group w1] eqn:Hnew.
  assert (group = (2 + next w)%nat) as -> by (by injection Hnew as <- _).
  simpl in H0.
  eapply (built_ext _ _ _ _ _
            (Nat.iter nB (building E cx cz (2 + next w)%nat)
               (Nat.iter nb (terrainBlock E cx cz (2 + next w)%nat) w1)));
    [done|done|].
  apply built_iter.
  { intros w2. eexists _, _, _. split; [apply Hb|].
    split; [apply building_heap|done]. }
  apply built_iter; [|done].
  intros w2. eexists _, _, _. split; [apply Ht|].
  split; [apply terrainBlock_heap|done].
Qed.

Lemma createChunkWith_next nb nB E cx cz id w :
  next (createChunkWith nb nB E cx cz id w) = (nB * 5 + (nb * 5 + (3 + next w)))%nat.
Proof.
  unfold createChunkWith. cbn.
  by rewrite !(iter_next _ 5).
Qed.

Lemma createChunkWith_others nb nB E cx cz id w :
  let w' := createChunkWith nb nB E cx cz id w in
  playerStructures w' = playerStructures w /\
  vehicles w' = vehicles w /\
  keys w' = keys w /\
  (player_x w', player_y w', player_z w', player_mesh w')
  = (player_x w, player_y w, player_z w, player_mesh w) /\
  dirLight w' = dirLight w /\
  now_calls w' = now_calls w.
Proof.
  unfold createChunkWith. cbn.
  by rewrite !(iter_field playerStructures), !(iter_field vehicles),
             !(iter_field keys), !(iter_field player_x),
             !(iter_field player_y), !(iter_field player_z),
             !(iter_field player_mesh), !(iter_field dirLight),
             !(iter_field now_calls).
Qed.

(** [createChunk] allocates; it writes to no cell that was there before. *)
Lemma createChunkWith_old nb nB E cx cz id w l :
  (l < next w)%nat ->
  heap (createChunkWith nb nB E cx cz id w) !! l = heap w !! l.
Proof.
  intros Hl.
  destruct (createChunkWith_built (fun _ _ => True) nb nB E cx cz id w)
    as (_ & Hold & _); auto.
Qed.

Lemma createChunkWith_evolves nb nB E cx cz id w :
  evolves w (createChunkWith nb nB E cx cz id w).
Proof.
  destruct (createChunkWith_built (fun _ _ => True) nb nB E cx cz id w)
    as (Hn & Hold & Hfresh & _); auto.
  intros Hb. split_and!; [lia| |].
  - intros l c Hc. exists c. pose proof (Hb _ _ Hc).
    rewrite Hold by lia. split_and!; [done|apply similar_refl|by left].
  - intros l c' Hc'.
    destruct (decide (l < next w \/ next (createChunkWith nb nB E cx cz id w) <= l)%nat)
      as [Hl|Hl].
    + left. rewrite <- Hold by done. by eexists.
    + right. split; [lia|]. destruct c' as [| | | |o]; try done.
      apply Hfresh in Hc'; [exact Hc'|lia].
Qed.

(** C4, as the code has it: [createChunk] does register the chunk itself.
    It builds the group of 53 primitives at a fresh location, appends it to
    the scene and stores it in the chunk registry under [id]; it changes
    nothing else: the structure registry, the vehicles, the keys, the
    player and every object that existed before are as they were. *)
Theorem createChunk_registers (E : Env) (cx cz : Z) (id : string) (w : World) :
  let w' := createChunk E cx cz id w in
  let g := (2 + next w)%nat in
  chunks w' = JS.set (chunks w) id g /\
  JS.get (chunks w') id = Some g /\
  scene w' = scene w ++ [g] /\
  (exists o, object_at w' g = Some o /\ length (children o) = 53%nat) /\
  playerStructures w' = playerStructures w /\
  vehicles w' = vehicles w /\
  keys w' = keys w /\
  (player_x w', player_y w', player_z w', player_mesh w')
  = (player_x w, player_y w, player_z w, player_mesh w) /\
  (forall l, (l < next w)%nat -> heap w' !! l = heap w !! l).
Proof.
  intros w' g. subst w' g. unfold createChunk.
  split_and!.
  - apply createChunkWith_chunks.
  - rewrite createChunkWith_chunks. apply get_set_eq.
  - apply createChunkWith_scene.
  - destruct (createChunkWith_built (fun _ _ => True) 50 3 E cx cz id w)
      as (_ & _ & _ & o & Ho & Hlen & _); auto.
    exists o. unfold object_at. by rewrite Ho.
  - apply createChunkWith_others.
  - apply createChunkWith_others.
  - apply createChunkWith_others.
  - apply createChunkWith_others.
  - intros l Hl. by apply createChunkWith_old.
Qed.

(** C4 as stated fails: the first call that [init()] makes through
    [updateChunks], [createChunk(-2, -2, "-2_-2")] in the state that the
    scene set-up leaves, finds a registry without the chunk and leaves one
    with it. *)
Lemma createChunk_registers_counterexample :
  JS.has (chunks init_scene) "-2_-2" = false /\
  JS.has (chunks (createChunk E0 (-2) (-2) "-2_-2" init_scene)) "-2_-2" = true /\
  chunks (createChunk E0 (-2) (-2) "-2_-2" init_scene) <> chunks init_scene.
Proof.
  unfold createChunk. rewrite createChunkWith_chunks.
  change (chunks init_scene) with (@nil (string * loc)).
  split_and!; [reflexivity|reflexivity|discriminate].
Qed.

(** *** Where the primitives are *)

Local Open Scope Q_scope.

Lemma offset_bounds (r cs c : Q) :
  0 < cs -> 0 <= r -> r < 1 ->
  c * cs - cs / 2 <= (r - (1#2)) * cs + c * cs /\
  (r - (1#2)) * cs + c * cs < c * cs + cs / 2.
Proof.
  intros Hcs H0 H1.
  assert (Heq : (r - (1#2)) * cs + c * cs == c * cs - cs / 2 + r * cs) by field.
  rewrite Heq.
  assert (0 <= r * cs) by (apply Qmult_le_0_compat; lra).
  assert (r * cs < cs).
  { rewrite <- (Qmult_1_l cs) at 2. apply Qmult_lt_compat_r; lra. }
  split; lra.
Qed.

(** A point of the centred square, edges included, maps back to the chunk
    or to its neighbour on the low side. *)
Lemma floor_near (x cs : Q) (c : Z) :
  0 < cs ->
  inject_Z c * cs - cs / 2 <= x -> x <= inject_Z c * cs + cs / 2 ->
  Qfloor (x / cs) = (c - 1)%Z \/ Qfloor (x / cs) = c.
Proof.
  intros Hcs Hlo Hhi.
  assert (Hl : inject_Z c - (1#2) <= x / cs).
  { apply Qle_shift_div_l; [done|].
    assert ((inject_Z c - (1 # 2)) * cs == inject_Z c * cs - cs / 2) as -> by field.
    done. }
  assert (Hh : x / cs <= inject_Z c + (1#2)).
  { apply Qle_shift_div_r; [done|].
    assert ((inject_Z c + (1 # 2)) * cs == inject_Z c * cs + cs / 2) as -> by field.
    done. }
  pose proof (Qfloor_le (x / cs)) as Hf1.
  pose proof (Qlt_floor (x / cs)) as Hf2.
  assert (E1 : inject_Z (c + 1) == inject_Z c + 1)
    by (rewrite inject_Z_plus; reflexivity).
  assert (E2 : inject_Z (Qfloor (x / cs) + 1) == inject_Z (Qfloor (x / cs)) + 1)
    by (rewrite inject_Z_plus; reflexivity).
  assert (E3 : inject_Z (c - 2) == inject_Z c - 2).
  { unfold Z.sub. rewrite inject_Z_plus. reflexivity. }
  assert (Qfloor (x / cs) < c + 1)%Z by (rewrite Zlt_Qlt; lra).
  assert (c - 2 < Qfloor (x / cs))%Z by (rewrite Zlt_Qlt; lra).
  lia.
Qed.

Section Centred.
Context (E : Env) (cx cz : Z).
Hypothesis Hsize : 0 < chunkSize E.
Hypothesis Hrandom : forall n, 0 <= Math_random E n /\ Math_random E n < 1.

Lemma terrain_centred rc :
  centred E cx cz (terrain_geometry E rc) (terrain_position E cx cz rc).
Proof.
  unfold centred, in_centred_square, terrain_position, terrain_geometry; simpl.
  pose proof (offset_bounds (Math_random E rc) (chunkSize E) (inject_Z cx)
                Hsize (proj1 (Hrandom _)) (proj2 (Hrandom _))) as [? ?].
  pose proof (offset_bounds (Math_random E (1 + rc)) (chunkSize E) (inject_Z cz)
                Hsize (proj1 (Hrandom _)) (proj2 (Hrandom _))) as [? ?].
  split_and!; try reflexivity; simpl in *; lra.
Qed.

Lemma building_centred rc :
  centred E cx cz (building_geometry E rc) (building_position E cx cz rc).
Proof.
  unfold centred, in_centred_square, building_position, building_geometry; simpl.
  pose proof (offset_bounds (Math_random E (3 + rc)) (chunkSize E) (inject_Z cx)
                Hsize (proj1 (Hrandom _)) (proj2 (Hrandom _))) as [? ?].
  pose proof (offset_bounds (Math_random E (4 + rc)) (chunkSize E) (inject_Z cz)
                Hsize (proj1 (Hrandom _)) (proj2 (Hrandom _))) as [? ?].
  split_and!; try reflexivity; simpl in *; lra.
Qed.

(** The primitives of a chunk, whatever the two loop bounds. *)
Lemma createChunkWith_primitives nb nB id w :
  let w' := createChunkWith nb nB E cx cz id w in
  length (chunk_children w' id) = (nB + (nb + 0))%nat /\
  forall m, m ∈ chunk_children w' id ->
    exists geo p,
      primitive_at w' m = Some (geo, p) /\
      in_centred_square E cx cz p /\
      on_ground geo p /\
      (JS.Math_floor (vx p / chunkSize E) = (cx - 1)%Z
       \/ JS.Math_floor (vx p / chunkSize E) = cx) /\
      (JS.Math_floor (vz p / chunkSize E) = (cz - 1)%Z
       \/ JS.Math_floor (vz p / chunkSize E) = cz).
Proof.
  intros w'.
  destruct (createChunkWith_built (centred E cx cz) nb nB E cx cz id w)
    as (_ & _ & _ & o & Ho & Hlen & Hch);
    [apply terrain_centred | apply building_centred |].
  fold w' in Ho, Hch.
  assert (Hc : chunk_children w' id = children o).
  { unfold chunk_children, w'. rewrite createChunkWith_chunks, get_set_eq.
    unfold object_at. fold w'. by rewrite Ho. }
  clearbody w'. rewrite Hc. split; [done|].
  intros m Hm. rewrite Forall_forall in Hch.
  destruct (Hch m Hm)
    as (om & gl & geo & p & Hom & Hgl & Hgeo & Hp & _ & _ & _ & Hsq & Hgr).
  exists geo, p. split_and!; try done.
  - unfold primitive_at, object_at, geometry_at, vector_at.
    rewrite Hom. simpl. rewrite Hgl. simpl. rewrite Hgeo. simpl. by rewrite Hp.
  - apply floor_near; [done|apply Hsq..].
  - apply floor_near; [done|apply Hsq..].
Qed.
End Centred.

(** C5, as the code has it: every primitive of the chunk [(cx, cz)] - the 50
    terrain blocks and the 3 buildings - is a box with its base at y = 0
    (centre at half its height) that lies in the square of side [chunkSize]
    centred on [(cx * chunkSize, cz * chunkSize)], edges included; the
    coordinate mapper sends its position to [cx] or to [cx - 1], and to
    [cz] or to [cz - 1]. *)
Theorem createChunk_primitives (E : Env) (cx cz : Z) (id : string) (w : World) :
  0 < chunkSize E ->
  (forall n, 0 <= Math_random E n /\ Math_random E n < 1) ->
  let w' := createChunk E cx cz id w in
  length (chunk_children w' id) = 53%nat /\
  forall m, m ∈ chunk_children w' id ->
    exists geo p,
      primitive_at w' m = Some (geo, p) /\
      in_centred_square E cx cz p /\
      on_ground geo p /\
      (JS.Math_floor (vx p / chunkSize E) = (cx - 1)%Z
       \/ JS.Math_floor (vx p / chunkSize E) = cx) /\
      (JS.Math_floor (vz p / chunkSize E) = (cz - 1)%Z
       \/ JS.Math_floor (vz p / chunkSize E) = cz).
Proof.
  intros Hsize Hrandom. apply (createChunkWith_primitives E cx cz Hsize Hrandom 50 3).
Qed.

(** C5 as stated fails: in the first call that [init()] makes through
    [updateChunks], [createChunk(-2, -2, "-2_-2")] in the state that the
    scene set-up leaves, with random numbers below one half (here 0), the
    first terrain block stands at (-125, -125), which the coordinate mapper
    sends to chunk (-3, -3). *)
Lemma createChunk_primitives_counterexample :
  let w' := createChunk E0 (-2) (-2) "-2_-2" init_scene in
  exists m geo p,
    m ∈ chunk_children w' "-2_-2" /\
    primitive_at w' m = Some (geo, p) /\
    (vx p == -125 /\ vz p == -125) /\
    (JS.Math_floor (vx p / chunkSize E0), JS.Math_floor (vz p / chunkSize E0))
    = ((-3)%Z, (-3)%Z) /\
    (JS.Math_floor (vx p / chunkSize E0), JS.Math_floor (vz p / chunkSize E0))
    <> ((-2)%Z, (-2)%Z).
Proof.
  exists 18%nat, (BoxGeometry 1 (0 * 2) 1),
         (mkVector3 ((0 - (1#2)) * 50 + inject_Z (-2) * 50) (0 * 2 / 2)
                    ((0 - (1#2)) * 50 + inject_Z (-2) * 50)).
  split_and!.
  - apply (list_elem_of_lookup_2 _ 0%nat). vm_compute. reflexivity.
  - vm_compute. reflexivity.
  - reflexivity.
  - reflexivity.
  - vm_compute. reflexivity.
  - vm_compute. discriminate.
Qed.

End Generation.


(** ** What each function does to the heap and to the variables *)

Section Frames.

(** The components of the two tuples of variables. *)
Lemma variables_fields w w' :
  variables w' = variables w ->
  scene w' = scene w /\ chunks w' = chunks w /\
  playerStructures w' = playerStructures w /\ keys w' = keys w /\
  vehicles w' = vehicles w /\
  (player_x w', player_y w', player_z w') = (player_x w, player_y w, player_z w) /\
  player_mesh w' = player_mesh w /\ dirLight w' = dirLight w.
Proof.
  unfold variables. intros H.
  injection H as -> -> -> -> -> -> -> -> -> ->. done.
Qed.

Lemma outside_fields w w' :
  outside_chunks w' = outside_chunks w ->
  playerStructures w' = playerStructures w /\ keys w' = keys w /\
  vehicles w' = vehicles w /\
  (player_x w', player_y w', player_z w') = (player_x w, player_y w, player_z w) /\
  player_mesh w' = player_mesh w /\ dirLight w' = dirLight w /\
  now_calls w' = now_calls w.
Proof.
  unfold outside_chunks. intros H.
  injection H as -> -> -> -> -> -> -> -> ->. done.
Qed.

Lemma evolves_refl w : evolves w w.
Proof. apply heap_evolves_refl. Qed.

Lemma evolves_trans w1 w2 w3 : evolves w1 w2 -> evolves w2 w3 -> evolves w1 w3.
Proof. apply heap_evolves_trans. Qed.

Lemma evolves_same w w' : heap w' = heap w -> next w' = next w -> evolves w w'.
Proof. unfold evolves. intros -> ->. apply heap_evolves_refl. Qed.

Lemma grows_refl w : grows w w.
Proof. by split. Qed.

Lemma grows_trans w1 w2 w3 : grows w1 w2 -> grows w2 w3 -> grows w1 w3.
Proof.
  intros [Hn1 H1] [Hn2 H2]. split; [lia|].
  intros l Hl. rewrite H2, H1 by lia. done.
Qed.

Lemma grows_same w w' : heap w' = heap w -> next w' = next w -> grows w w'.
Proof. unfold grows. intros -> ->. done. Qed.

Lemma foldl_rel {A} (R : World -> World -> Prop) (F : World -> A -> World) l :
  (forall w, R w w) ->
  (forall w1 w2 w3, R w1 w2 -> R w2 w3 -> R w1 w3) ->
  (forall w x, R w (F w x)) ->
  forall w, R w (foldl F w l).
Proof.
  intros Hrefl Htrans HF. induction l as [|x l IH]; intros w; simpl; [done|].
  eapply Htrans; [apply HF|apply IH].
Qed.

Lemma foldl_field {A B} (proj : World -> B) (F : World -> A -> World) l :
  (forall w x, proj (F w x) = proj w) ->
  forall w, proj (foldl F w l) = proj w.
Proof.
  intros HF. induction l as [|x l IH]; intros w; simpl; [done|].
  by rewrite IH, HF.
Qed.

(** *** The chunk lifecycle manager *)

Lemma createChunk_grows E cx cz id w : grows w (createChunk E cx cz id w).
Proof.
  split.
  - unfold createChunk. rewrite createChunkWith_next. lia.
  - intros l Hl. by apply createChunkWith_old.
Qed.

Lemma createChunkWith_outside nb nB E cx cz id w :
  outside_chunks (createChunkWith nb nB E cx cz id w) = outside_chunks w.
Proof.
  unfold createChunkWith, outside_chunks. cbn.
  by rewrite !(iter_field playerStructures), !(iter_field vehicles),
             !(iter_field keys), !(iter_field player_x),
             !(iter_field player_y), !(iter_field player_z),
             !(iter_field player_mesh), !(iter_field dirLight),
             !(iter_field now_calls).
Qed.

Lemma createChunk_outside E cx cz id w :
  outside_chunks (createChunk E cx cz id w) = outside_chunks w.
Proof. exact (createChunkWith_outside 50 3 E cx cz id w). Qed.

Lemma unloadChunk_heap id w :
  heap (unloadChunk id w) = heap w /\ next (unloadChunk id w) = next w.
Proof. unfold unloadChunk. by destruct (JS.get (chunks w) id). Qed.

Lemma unloadChunk_outside id w :
  outside_chunks (unloadChunk id w) = outside_chunks w.
Proof. unfold unloadChunk. by destruct (JS.get (chunks w) id). Qed.

Lemma unloadChunk_counters id w :
  random_calls (unloadChunk id w) = random_calls w.
Proof. unfold unloadChunk. by destruct (JS.get (chunks w) id). Qed.

Lemma loadOne_evolves E cx cz dx dz w : evolves w (loadOne E cx cz dx dz w).
Proof.
  unfold loadOne. case_match; [apply evolves_refl|].
  apply createChunkWith_evolves.
Qed.

Lemma loadOne_grows E cx cz dx dz w : grows w (loadOne E cx cz dx dz w).
Proof.
  unfold loadOne. case_match; [apply grows_refl|apply createChunk_grows].
Qed.

Lemma loadOne_outside E cx cz dx dz w :
  outside_chunks (loadOne E cx cz dx dz w) = outside_chunks w.
Proof.
  unfold loadOne. case_match; [done|apply createChunk_outside].
Qed.

Lemma loadNear_evolves E cx cz w : evolves w (loadNear E cx cz w).
Proof.
  unfold loadNear.
  apply (foldl_rel evolves); [apply evolves_refl|apply evolves_trans|].
  intros w1 dx.
  apply (foldl_rel evolves); [apply evolves_refl|apply evolves_trans|].
  intros w2 dz. apply loadOne_evolves.
Qed.

Lemma loadNear_grows E cx cz w : grows w (loadNear E cx cz w).
Proof.
  unfold loadNear.
  apply (foldl_rel grows); [apply grows_refl|apply grows_trans|].
  intros w1 dx.
  apply (foldl_rel grows); [apply grows_refl|apply grows_trans|].
  intros w2 dz. apply loadOne_grows.
Qed.

Lemma loadNear_outside E cx cz w :
  outside_chunks (loadNear E cx cz w) = outside_chunks w.
Proof.
  unfold loadNear. apply foldl_field. intros w1 dx.
  apply foldl_field. intros w2 dz. apply loadOne_outside.
Qed.

Lemma unloadIfFar_heap E cx cz id w :
  heap (unloadIfFar E cx cz id w) = heap w /\
  next (unloadIfFar E cx cz id w) = next w.
Proof. unfold unloadIfFar. case_match; [apply unloadChunk_heap|done]. Qed.

Lemma unloadFar_heap E cx cz w :
  heap (unloadFar E cx cz w) = heap w /\ next (unloadFar E cx cz w) = next w.
Proof.
  unfold unloadFar. split.
  - apply (foldl_field heap). intros w1 e. apply unloadIfFar_heap.
  - apply (foldl_field next). intros w1 e. apply unloadIfFar_heap.
Qed.

Lemma unloadFar_outside E cx cz w :
  outside_chunks (unloadFar E cx cz w) = outside_chunks w.
Proof.
  unfold unloadFar. apply foldl_field. intros w1 e.
  unfold unloadIfFar. case_match; [apply unloadChunk_outside|done].
Qed.

Lemma updateChunks_evolves E w : evolves w (updateChunks E w).
Proof.
  unfold updateChunks. destruct (playerChunk E w) as [[cx cz]|]; [|apply evolves_refl].
  eapply evolves_trans; [apply loadNear_evolves|].
  apply evolves_same; apply unloadFar_heap.
Qed.

(** [updateChunks] allocates the new chunks and writes to no cell that was
    there before. *)
Lemma updateChunks_grows E w : grows w (updateChunks E w).
Proof.
  unfold updateChunks. destruct (playerChunk E w) as [[cx cz]|]; [|apply grows_refl].
  eapply grows_trans; [apply loadNear_grows|].
  apply grows_same; apply unloadFar_heap.
Qed.

Lemma updateChunks_outside E w :
  outside_chunks (updateChunks E w) = outside_chunks w.
Proof.
  unfold updateChunks. destruct (playerChunk E w) as [[cx cz]|]; [|done].
  by rewrite unloadFar_outside, loadNear_outside.
Qed.

(** *** The frame loop *)

Lemma modify_position_evolves o f w : evolves w (modify_position o f w).
Proof. apply heap_evolves_modify_position. Qed.

Lemma modify_rotation_evolves o f w : evolves w (modify_rotation o f w).
Proof. apply heap_evolves_modify_rotation. Qed.

Lemma on_key_evolves k f w : evolves w (on_key k f w).
Proof.
  unfold on_key, player_move. repeat case_match; try apply evolves_refl.
  apply modify_position_evolves.
Qed.

Lemma on_key_variables k f w :
  variables (on_key k f w) = variables w /\
  next (on_key k f w) = next w /\
  random_calls (on_key k f w) = random_calls w /\
  now_calls (on_key k f w) = now_calls w.
Proof. unfold on_key, player_move. by repeat case_match. Qed.

Lemma updatePlayer_evolves delta w : evolves w (updatePlayer delta w).
Proof.
  unfold updatePlayer.
  repeat (eapply evolves_trans; [|apply on_key_evolves]). apply evolves_refl.
Qed.

Lemma updatePlayer_variables delta w :
  variables (updatePlayer delta w) = variables w /\
  next (updatePlayer delta w) = next w /\
  random_calls (updatePlayer delta w) = random_calls w /\
  now_calls (updatePlayer delta w) = now_calls w.
Proof.
  unfold updatePlayer. cbv zeta.
  repeat match goal with
         | |- context [on_key ?k ?f ?w] =>
             destruct (on_key_variables k f w) as (-> & -> & -> & ->)
         end.
  done.
Qed.

Lemma hover_evolves E delta v w : evolves w (hover E delta v w).
Proof. unfold hover. cbn. apply heap_evolves_modify_position. Qed.

Lemma hover_variables E delta v w :
  variables (hover E delta v w) = variables w /\
  next (hover E delta v w) = next w /\
  random_calls (hover E delta v w) = random_calls w.
Proof. done. Qed.

Lemma animateVehicles_evolves E delta w : evolves w (animateVehicles E delta w).
Proof.
  unfold animateVehicles.
  apply (foldl_rel evolves); [apply evolves_refl|apply evolves_trans|].
  intros w1 v. apply hover_evolves.
Qed.

Lemma animateVehicles_variables E delta w :
  variables (animateVehicles E delta w) = variables w /\
  next (animateVehicles E delta w) = next w /\
  random_calls (animateVehicles E delta w) = random_calls w.
Proof.
  unfold animateVehicles. split_and!.
  - by apply (foldl_field variables).
  - by apply (foldl_field next).
  - by apply (foldl_field random_calls).
Qed.

Lemma animateImmersion_evolves E delta w : evolves w (animateImmersion E delta w).
Proof.
  unfold animateImmersion, evolves. cbn. destruct (dirLight w); cbn; evolve_heap.
Qed.

Lemma animateImmersion_variables E delta w :
  variables (animateImmersion E delta w) = variables w /\
  next (animateImmersion E delta w) = next w /\
  random_calls (animateImmersion E delta w) = random_calls w.
Proof. unfold animateImmersion. cbn. by destruct (dirLight w). Qed.

Lemma animate_evolves E delta w : evolves w (animate E delta w).
Proof.
  unfold animate.
  eapply evolves_trans; [|apply animateImmersion_evolves].
  eapply evolves_trans; [|apply animateVehicles_evolves].
  eapply evolves_trans; [|apply updateChunks_evolves].
  apply updatePlayer_evolves.
Qed.

(** *** Building and recording a vehicle *)

Lemma clone_evolves l w : evolves w (clone l w).2.
Proof.
  unfold clone, evolves. destruct (heap w !! l) as [[| | | |]|]; cbn;
    first [apply heap_evolves_refl | apply heap_evolves_insert; simpl; tauto].
Qed.

Lemma clone_variables l w :
  variables (clone l w).2 = variables w /\
  random_calls (clone l w).2 = random_calls w /\
  now_calls (clone l w).2 = now_calls w.
Proof. unfold clone. by destruct (heap w !! l) as [[| | | |]|]. Qed.

(** [saveStructure] with its four clones named. *)
Lemma saveStructure_unfold E mesh w o g m :
  object_at w mesh = Some o -> geometry o = Some g -> material o = Some m ->
  saveStructure E mesh w
  = let c1 := clone g (set_random_calls S (set_now_calls S w)) in
    let c2 := clone m c1.2 in
    let c3 := clone (position o) c2.2 in
    let c4 := clone (rotation o) c3.2 in
    set_playerStructures
      (fun s => JS.set s (structureID E w) (mkStructure c1.1 c2.1 c3.1 c4.1))
      c4.2.
Proof.
  intros Ho Hg Hm. unfold saveStructure. cbn.
  change (object_at (set_random_calls S (set_now_calls S w)) mesh)
    with (object_at w mesh).
  rewrite Ho, Hg, Hm. cbv zeta.
  by repeat destruct (clone _ _).
Qed.

Lemma saveStructure_evolves E mesh w : evolves w (saveStructure E mesh w).
Proof.
  destruct (object_at w mesh) as [o|] eqn:Ho.
  2: { unfold saveStructure. cbn.
       change (object_at (set_random_calls S (set_now_calls S w)) mesh)
         with (object_at w mesh).
       rewrite Ho. by apply evolves_same. }
  destruct (geometry o) as [g|] eqn:Hg, (material o) as [m|] eqn:Hm.
  1: { rewrite (saveStructure_unfold E mesh w o g m) by done. cbv zeta.
       eapply evolves_trans; [|apply evolves_same; done].
       repeat (eapply evolves_trans; [|apply clone_evolves]).
       by apply evolves_same. }
  all: unfold saveStructure; cbn;
    change (object_at (set_random_calls S (set_now_calls S w)) mesh)
      with (object_at w mesh);
    rewrite Ho, Hg, ?Hm; by apply evolves_same.
Qed.

Lemma register_vehicle_evolves E mesh w : evolves w (register_vehicle E mesh w).
Proof.
  unfold register_vehicle.
  eapply evolves_trans; [|apply saveStructure_evolves]. by apply evolves_same.
Qed.

Lemma plane_evolves w : evolves w (plane w).2.
Proof. unfold evolves, plane. cbn. evolve_heap. Qed.

Lemma boat_evolves w : evolves w (boat w).2.
Proof. unfold evolves, boat. cbn. evolve_heap. Qed.

Lemma buildVehicle_evolves E type w : evolves w (buildVehicle E type w).
Proof.
  unfold buildVehicle. repeat case_match; try apply evolves_refl.
  - eapply evolves_trans; [apply plane_evolves|].
    match goal with H : plane w = _ |- _ => rewrite H end.
    apply register_vehicle_evolves.
  - eapply evolves_trans; [apply boat_evolves|].
    match goal with H : boat w = _ |- _ => rewrite H end.
    apply register_vehicle_evolves.
Qed.

Lemma handleKeys_evolves E event w : evolves w (handleKeys E event w).
Proof.
  unfold handleKeys. cbv zeta.
  repeat case_match; repeat (eapply evolves_trans; [|apply buildVehicle_evolves]);
    by apply evolves_same.
Qed.

Lemma step_evolves E w w' : step E w w' -> evolves w w'.
Proof.
  destruct 1.
  - apply handleKeys_evolves.
  - by apply evolves_same.
  - apply animate_evolves.
Qed.

End Frames.

(** ** The load window *)

Section Window.

Local Open Scope Z_scope.

Lemma far_chunkKey E cx cz x z :
  far E cx cz (chunkKey x z)
  = (loadedRadius E <? Z.abs (x - cx)) || (loadedRadius E <? Z.abs (z - cz)).
Proof. unfold far. by rewrite parseID_chunkKey. Qed.

Lemma far_false_window E cx cz x z :
  far E cx cz (chunkKey x z) = false <->
  Z.abs (x - cx) <= loadedRadius E /\ Z.abs (z - cz) <= loadedRadius E.
Proof. rewrite far_chunkKey, orb_false_iff, !Z.ltb_ge. done. Qed.

Lemma elem_of_offsets E d : d ∈ offsets E <-> Z.abs d <= loadedRadius E.
Proof. unfold offsets. rewrite elem_of_seqZ. lia. Qed.

(** The keys after the first pass: those that were there, and the window. *)
Lemma loadOne_keys E cx cz dx dz w id :
  id ∈ JS.keys (chunks (loadOne E cx cz dx dz w)) <->
  id ∈ JS.keys (chunks w) \/ id = chunkKey (cx + dx) (cz + dz).
Proof.
  unfold loadOne. destruct (JS.has _ _) eqn:Hhas.
  - apply has_keys in Hhas. split; [auto|]. by intros [?| ->].
  - unfold createChunk. rewrite createChunkWith_chunks, elem_of_keys_set. tauto.
Qed.

Lemma loadRow_keys E cx cz dx (l : list Z) w id :
  id ∈ JS.keys (chunks (foldl (fun w dz => loadOne E cx cz dx dz w) w l)) <->
  id ∈ JS.keys (chunks w) \/ exists dz, dz ∈ l /\ id = chunkKey (cx + dx) (cz + dz).
Proof.
  revert w. induction l as [|dz l IH]; intros w; simpl.
  - split; [auto|]. intros [?|(dz & Hdz & _)]; [done|]. by apply elem_of_nil in Hdz.
  - rewrite IH, loadOne_keys. split.
    + intros [[?| ->]|(dz' & ? & ->)]; [by left|right..].
      * exists dz. split; [left|done].
      * exists dz'. split; [by right|done].
    + intros [?|(dz' & [->|?]%elem_of_cons & ->)]; [by left; left|by left; right|].
      right. by exists dz'.
Qed.

Lemma loadRows_keys E cx cz (l : list Z) w id :
  id ∈ JS.keys (chunks (foldl (fun w dx =>
          foldl (fun w dz => loadOne E cx cz dx dz w) w (offsets E)) w l)) <->
  id ∈ JS.keys (chunks w) \/
  exists dx dz, dx ∈ l /\ dz ∈ offsets E /\ id = chunkKey (cx + dx) (cz + dz).
Proof.
  revert w. induction l as [|dx l IH]; intros w; simpl.
  - split; [auto|]. intros [?|(dx & dz & Hdx & _)]; [done|]. by apply elem_of_nil in Hdx.
  - rewrite IH, loadRow_keys. split.
    + intros [[?|(dz & ? & ->)]|(dx' & dz & ? & ? & ->)]; [by left|right..].
      * exists dx, dz. split_and!; [left|done|done].
      * exists dx', dz. split_and!; [by right|done|done].
    + intros [?|(dx' & dz & [->|?]%elem_of_cons & ? & ->)]; [by left; left| |].
      * left; right. by exists dz.
      * right. by exists dx', dz.
Qed.

Lemma loadNear_keys E cx cz w id :
  id ∈ JS.keys (chunks (loadNear E cx cz w)) <->
  id ∈ JS.keys (chunks w) \/ in_window E cx cz id.
Proof.
  unfold loadNear. rewrite loadRows_keys. unfold in_window. split.
  - intros [?|(dx & dz & Hdx%elem_of_offsets & Hdz%elem_of_offsets & ->)]; [by left|].
    right. exists (cx + dx), (cz + dz). split_and!; [done|..].
    + by replace (cx + dx - cx) with dx by lia.
    + by replace (cz + dz - cz) with dz by lia.
  - intros [?|(x & z & -> & Hx & Hz)]; [by left|].
    right. exists (x - cx), (z - cz). rewrite !elem_of_offsets.
    split_and!; [done|done|]. f_equal; lia.
Qed.

(** Whatever holds of the registry and survives the insertion of a printed
    key holds after the first pass. *)
Lemma loadNear_registry (P : list (string * nat) -> Prop) E cx cz w :
  (forall m x z g, P m -> P (JS.set m (chunkKey x z) g)) ->
  P (chunks w) -> P (chunks (loadNear E cx cz w)).
Proof.
  intros Hset. unfold loadNear. generalize (offsets E) at 2. intros l.
  revert w. induction l as [|dx l IH]; intros w Hw; simpl; [done|].
  apply IH. clear IH. generalize (offsets E). intros l'.
  revert w Hw. induction l' as [|dz l' IH]; intros w Hw; simpl; [done|].
  apply IH. unfold loadOne. case_match; [done|].
  unfold createChunk. rewrite createChunkWith_chunks. by apply Hset.
Qed.

Lemma keys_printed_set m x z g :
  keys_printed m -> keys_printed (JS.set m (chunkKey x z) g).
Proof.
  intros Hm id [->|Hid]%elem_of_keys_set; [by exists x, z|by apply Hm].
Qed.

(** The second pass: the entries whose key is far are deleted, the others
    keep their place. *)
Lemma unloadFar_from E cx cz (todo done_ : list (string * nat)) w :
  chunks w = done_ ++ todo ->
  (forall k, k ∈ JS.keys done_ -> far E cx cz k = false) ->
  chunks (foldl (fun w e => unloadIfFar E cx cz e.1 w) w todo)
  = done_ ++ filter (fun e => far E cx cz e.1 = false) todo.
Proof.
  revert done_ w. induction todo as [|[k v] todo IH]; intros done_ w Hw Hdone; simpl.
  - by rewrite Hw.
  - unfold unloadIfFar at 2. destruct (far E cx cz k) eqn:Hk.
    + rewrite filter_cons_False by (simpl; congruence).
      assert (Hnot : k ∉ JS.keys done_).
      { intros Hin. apply Hdone in Hin. congruence. }
      apply IH; [|done].
      unfold unloadChunk. rewrite Hw, get_middle by done. simpl.
      by rewrite Hw, delete_middle.
    + rewrite filter_cons_True by done.
      rewrite (IH (done_ ++ [(k, v)])).
      * by rewrite <- app_assoc.
      * by rewrite <- app_assoc.
      * intros k'. unfold JS.keys. rewrite fmap_app, elem_of_app. simpl.
        intros [?| ->%list_elem_of_singleton]; [by apply Hdone|done].
Qed.

Lemma unloadFar_chunks E cx cz w :
  chunks (unloadFar E cx cz w)
  = filter (fun e => far E cx cz e.1 = false) (chunks w).
Proof.
  unfold unloadFar.
  rewrite (unloadFar_from E cx cz (chunks w) [] w); [done|done|].
  intros k Hk. by apply elem_of_nil in Hk.
Qed.

Lemma elem_of_keys_filter (P : string * nat -> Prop) `{!forall e, Decision (P e)}
    (Q : string -> Prop) (m : list (string * nat)) id :
  (forall e, P e <-> Q e.1) ->
  id ∈ JS.keys (filter P m) <-> id ∈ JS.keys m /\ Q id.
Proof.
  intros HPQ. unfold JS.keys. rewrite !list_elem_of_fmap. split.
  - intros ([k v] & -> & [HP Hin]%list_elem_of_filter).
    split; [by exists (k, v)|]. by apply HPQ in HP.
  - intros [([k v] & -> & Hin) HQ]. exists (k, v). split; [done|].
    apply list_elem_of_filter. split; [by apply HPQ|done].
Qed.

(** The registry after [updateChunks], for a registry of printed keys. *)
Lemma updateChunks_keys E w cx cz id :
  keys_printed (chunks w) ->
  playerChunk E w = Some (cx, cz) ->
  id ∈ JS.keys (chunks (updateChunks E w)) <-> in_window E cx cz id.
Proof.
  intros Hprinted Hp. unfold updateChunks. rewrite Hp.
  rewrite unloadFar_chunks.
  rewrite (elem_of_keys_filter _ (fun id => far E cx cz id = false)) by done.
  rewrite loadNear_keys. split.
  - intros [[Hold|Hwin] Hfar]; [|done].
    destruct (Hprinted id Hold) as (x & z & ->).
    exists x, z. split; [done|]. by apply far_false_window.
  - intros Hwin. split; [by right|].
    destruct Hwin as (x & z & -> & Hx & Hz). by apply far_false_window.
Qed.

Lemma updateChunks_keys_printed E w :
  keys_printed (chunks w) -> keys_printed (chunks (updateChunks E w)).
Proof.
  intros Hw. unfold updateChunks.
  destruct (playerChunk E w) as [[cx cz]|]; [|done].
  rewrite unloadFar_chunks. intros id Hid.
  apply (elem_of_keys_filter _ (fun id => far E cx cz id = false)) in Hid as [Hid _];
    [|done].
  revert id Hid. apply (loadNear_registry keys_printed); [|done].
  intros m x z g. apply keys_printed_set.
Qed.

Lemma updateChunks_keys_NoDup E w :
  NoDup (JS.keys (chunks w)) -> NoDup (JS.keys (chunks (updateChunks E w))).
Proof.
  intros Hw. unfold updateChunks.
  destruct (playerChunk E w) as [[cx cz]|]; [|done].
  rewrite unloadFar_chunks.
  eapply sublist_NoDup; [|apply fmap_sublist, sublist_filter].
  apply (loadNear_registry (fun m => NoDup (JS.keys m))); [|done].
  intros m x z g. apply NoDup_keys_set.
Qed.

End Window.

(** ** Well-formed states *)

Section WellFormed.

(** A snapshot cell stays what it is while the heap evolves. *)
Lemma snapshot_cell_evolves h n h' n' l :
  heap_below h n -> heap_evolves h n h' n' ->
  snapshot_cell h l -> snapshot_cell h' l /\ h' !! l = h !! l.
Proof.
  intros Hb He [(c & Hc & Hno) Hnr].
  destruct (He Hb) as (Hn & Hold & Hnew).
  destruct (Hold l c Hc) as (c' & Hc' & _ & [->|[?|?]]); try done.
  split; [|congruence]. split; [by exists c|].
  intros (m & o' & Hm & Hl).
  destruct (Hnew m _ Hm) as [[cm Hcm]|[Hfresh Hnc]].
  - destruct (Hold m cm Hcm) as (cm' & Hcm' & Hsm & _).
    rewrite Hm in Hcm'. injection Hcm' as <-.
    apply similar_object in Hsm as (o & -> & Hp & Hr).
    apply Hnr. exists m, o. by rewrite Hp, Hr.
  - apply Hb in Hc. simpl in Hnc. lia.
Qed.

Lemma snapshot_ok_evolves h n h' n' s :
  heap_below h n -> heap_evolves h n h' n' ->
  snapshot_ok h s -> snapshot_ok h' s.
Proof.
  intros Hb He (H1 & H2 & H3 & H4).
  split_and!; eapply snapshot_cell_evolves; eauto.
Qed.

Lemma player_allocated_evolves w w' :
  heap_below (heap w) (next w) -> evolves w w' ->
  player_mesh w' = player_mesh w ->
  player_allocated w -> player_allocated w'.
Proof.
  intros Hb He Hpm (m & o & v & Hm & Ho & Hv).
  destruct (He Hb) as (_ & Hold & _).
  destruct (Hold m _ Ho) as (c' & Hc' & Hs & _).
  destruct c' as [| | | |o']; try done. destruct Hs as (_ & _ & Hp & _).
  destruct (Hold _ _ Hv) as (c'' & Hc'' & Hs' & _).
  destruct c'' as [v'| | | |]; try done.
  exists m, o', v'. rewrite <- Hp. split_and!; congruence.
Qed.

Lemma wf_evolves w w' :
  wf w -> evolves w w' ->
  player_mesh w' = player_mesh w ->
  keys_printed (chunks w') ->
  NoDup (JS.keys (chunks w')) ->
  (forall e, e ∈ playerStructures w' ->
     e ∈ playerStructures w \/ snapshot_ok (heap w') e.2) ->
  wf w'.
Proof.
  intros [Hb Ho Hp Hk Hn Hs] He Hpm Hk' Hn' Hs'. split; try done.
  - by eapply heap_evolves_below.
  - by eapply heap_evolves_objects.
  - by eapply player_allocated_evolves.
  - intros e [He'|He']%Hs'; [|done].
    eapply snapshot_ok_evolves; eauto.
Qed.

(** A function that leaves the module's variables alone keeps the state
    well formed. *)
Lemma wf_variables w w' :
  wf w -> evolves w w' -> variables w' = variables w -> wf w'.
Proof.
  intros Hw He Hv.
  destruct (variables_fields _ _ Hv) as (_ & Hc & Hps & _ & _ & _ & Hpm & _).
  apply (wf_evolves w w'); try done.
  - rewrite Hc. apply Hw.
  - rewrite Hc. apply Hw.
  - intros e. rewrite Hps. auto.
Qed.

Lemma wf_updateChunks E w : wf w -> wf (updateChunks E w).
Proof.
  intros Hw.
  destruct (outside_fields _ _ (updateChunks_outside E w))
    as (Hps & _ & _ & _ & Hpm & _).
  apply (wf_evolves w); try done.
  - apply updateChunks_evolves.
  - apply updateChunks_keys_printed, Hw.
  - apply updateChunks_keys_NoDup, Hw.
  - intros e. rewrite Hps. auto.
Qed.

Lemma wf_animate E delta w : wf w -> wf (animate E delta w).
Proof.
  intros Hw. unfold animate.
  eapply wf_variables; [|apply animateImmersion_evolves|apply animateImmersion_variables].
  eapply wf_variables; [|apply animateVehicles_evolves|apply animateVehicles_variables].
  apply wf_updateChunks.
  eapply wf_variables; [|apply updatePlayer_evolves|apply updatePlayer_variables].
  done.
Qed.

(** *** Recording a structure *)

Lemma clone_value l w c :
  heap w !! l = Some c -> ~ is_object c -> clone l w = alloc c w.
Proof. intros Hl Hc. unfold clone. rewrite Hl. by destruct c. Qed.

(** What [saveStructure] does to a mesh: four allocations and one entry. *)
Lemma saveStructure_spec E mesh w o geo mat p r :
  heap_below (heap w) (next w) ->
  is_mesh w mesh o geo mat p r ->
  saveStructure E mesh w
  = set_playerStructures
      (fun s => JS.set s (structureID E w)
                  (mkStructure (next w) (1 + next w) (2 + next w) (3 + next w)))
      (set_next (fun n => 4 + n)%nat
         (set_heap (fun h => <[(3 + next w)%nat := CEuler r]>
                               (<[(2 + next w)%nat := CVector3 p]>
                                  (<[(1 + next w)%nat := CMaterial mat]>
                                     (<[next w := CGeometry geo]> h))))
            (set_random_calls S (set_now_calls S w)))).
Proof.
  intros Hb (g & m & Ho & Hg & Hm & Hgeo & Hmat & Hp & Hr).
  rewrite (saveStructure_unfold E mesh w o g m); [|by unfold object_at; rewrite Ho|done..].
  pose proof (Hb _ _ Hgeo). pose proof (Hb _ _ Hmat).
  pose proof (Hb _ _ Hp). pose proof (Hb _ _ Hr).
  cbv zeta.
  rewrite (clone_value g _ (CGeometry geo)); [|exact Hgeo|simpl; tauto]. simpl.
  rewrite (clone_value m _ (CMaterial mat)); [|by heap_lookup|simpl; tauto]. simpl.
  rewrite (clone_value (position o) _ (CVector3 p)); [|by heap_lookup|simpl; tauto]. simpl.
  rewrite (clone_value (rotation o) _ (CEuler r)); [|by heap_lookup|simpl; tauto]. simpl.
  done.
Qed.

Lemma elem_of_set {V} (m : list (string * V)) k v e :
  e ∈ JS.set m k v -> e = (k, v) \/ e ∈ m.
Proof.
  induction m as [|[k' v'] m IH]; simpl.
  - intros ->%list_elem_of_singleton. by left.
  - destruct (String.eqb k' k).
    + intros [->|?]%elem_of_cons; [by left|]. right. by right.
    + intros [->|?]%elem_of_cons; [right; by left|].
      destruct (IH H) as [->|?]; [by left|]. right. by right.
Qed.

(** The four clones are snapshot cells. *)
Lemma saveStructure_snapshot E mesh w o geo mat p r :
  heap_below (heap w) (next w) -> objects_below (heap w) (next w) ->
  is_mesh w mesh o geo mat p r ->
  snapshot_ok (heap (saveStructure E mesh w))
    (mkStructure (next w) (1 + next w) (2 + next w) (3 + next w)).
Proof.
  intros Hb Hob Hmesh. rewrite (saveStructure_spec E mesh w o geo mat p r) by done.
  assert (Hnr : forall l, (next w <= l)%nat ->
            ~ referenced (<[(3 + next w)%nat := CEuler r]>
                            (<[(2 + next w)%nat := CVector3 p]>
                               (<[(1 + next w)%nat := CMaterial mat]>
                                  (<[next w := CGeometry geo]> (heap w))))) l).
  { intros l Hl (m & o' & Hm & Hlo).
    rewrite !lookup_insert in Hm. repeat case_decide; try done.
    apply Hob in Hm. lia. }
  unfold snapshot_ok, snapshot_cell. simpl.
  split_and!; try (apply Hnr; lia); eexists; (split; [by heap_lookup|simpl; tauto]).
Qed.

Lemma wf_saveStructure E mesh w o geo mat p r :
  wf w -> is_mesh w mesh o geo mat p r -> wf (saveStructure E mesh w).
Proof.
  intros Hw Hmesh.
  apply (wf_evolves w); try done.
  - apply saveStructure_evolves.
  - rewrite (saveStructure_spec E mesh w o geo mat p r) by (done || apply Hw). done.
  - rewrite (saveStructure_spec E mesh w o geo mat p r) by (done || apply Hw). apply Hw.
  - rewrite (saveStructure_spec E mesh w o geo mat p r) by (done || apply Hw). apply Hw.
  - intros e He. pose proof (saveStructure_snapshot E mesh w o geo mat p r) as Hsn.
    rewrite (saveStructure_spec E mesh w o geo mat p r) in He, Hsn |- * by (done || apply Hw).
    simpl in He. apply elem_of_set in He as [->|He]; [|by left].
    right. apply Hsn; [apply Hw..|done].
Qed.

(** The meshes [buildVehicle] builds. *)
Lemma plane_mesh w :
  exists o,
    is_mesh (plane w).2 (plane w).1 o
      (BoxGeometry 2 (2#5) 4) (mkMaterial 0xffff00 false)
      (mkVector3 (player_x w + 2) (player_y w + 1) (player_z w))
      (mkEuler 0 0 0).
Proof.
  unfold plane, is_mesh. cbn. resolve_modify. cbn [position rotation].
  eexists. eexists _, _.
  split_and!; [plain_lookup; reflexivity|reflexivity|reflexivity|..];
    plain_lookup; reflexivity.
Qed.

Lemma boat_mesh w :
  exists o,
    is_mesh (boat w).2 (boat w).1 o
      (CylinderGeometry 1 1 (1#2) 8) (mkMaterial 0x0000ff false)
      (mkVector3 (player_x w + 2) (1#4) (player_z w))
      (mkEuler 0 0 (Math_PI / 2)).
Proof.
  unfold boat, is_mesh. cbn. resolve_modify. cbn [position rotation].
  eexists. eexists _, _.
  split_and!; [plain_lookup; reflexivity|reflexivity|reflexivity|..];
    plain_lookup; reflexivity.
Qed.

Lemma is_mesh_ext w w' mesh o geo mat p r :
  heap w' = heap w -> is_mesh w mesh o geo mat p r -> is_mesh w' mesh o geo mat p r.
Proof. unfold is_mesh. by intros ->. Qed.

Lemma wf_register_vehicle E mesh w o geo mat p r :
  wf w -> is_mesh w mesh o geo mat p r -> wf (register_vehicle E mesh w).
Proof.
  intros Hw Hmesh. unfold register_vehicle.
  eapply wf_saveStructure; [|by eapply is_mesh_ext; [|exact Hmesh]].
  eapply wf_evolves; [exact Hw|by apply evolves_same|done|apply Hw..|].
  intros e He. by left.
Qed.

Lemma wf_buildVehicle E type w : wf w -> wf (buildVehicle E type w).
Proof.
  intros Hw. unfold buildVehicle. repeat case_match; try done.
  - destruct (plane_mesh w) as [o Ho].
    match goal with H : plane w = _ |- _ => rewrite H in Ho; simpl in Ho end.
    eapply wf_register_vehicle; [|exact Ho].
    match goal with H : plane w = (?l, ?w1) |- _ =>
      change w1 with (l, w1).2; rewrite <- H end.
    eapply wf_variables; [exact Hw|apply plane_evolves|done].
  - destruct (boat_mesh w) as [o Ho].
    match goal with H : boat w = _ |- _ => rewrite H in Ho; simpl in Ho end.
    eapply wf_register_vehicle; [|exact Ho].
    match goal with H : boat w = (?l, ?w1) |- _ =>
      change w1 with (l, w1).2; rewrite <- H end.
    eapply wf_variables; [exact Hw|apply boat_evolves|done].
Qed.

Lemma wf_handleKeys E event w : wf w -> wf (handleKeys E event w).
Proof.
  intros Hw. unfold handleKeys. cbv zeta.
  assert (wf (set_keys <[JS.toLowerCase (key event) :=
                          String.eqb (type event) "keydown"]> w)) as Hw1.
  { eapply wf_evolves; [exact Hw|by apply evolves_same|done|apply Hw..|].
    intros e He. by left. }
  repeat case_match; repeat apply wf_buildVehicle; done.
Qed.

Lemma wf_step E w w' : wf w -> step E w w' -> wf w'.
Proof.
  intros Hw Hs. destruct Hs.
  - by apply wf_handleKeys.
  - eapply wf_evolves; [exact Hw|by apply evolves_same|done|apply Hw..|].
    intros e He. by left.
  - by apply wf_animate.
Qed.

Lemma wf_init_scene : wf init_scene.
Proof.
  assert (He : evolves boot init_scene).
  { unfold evolves, init_scene. cbn. evolve_heap. }
  assert (Hb : heap_below (heap boot) (next boot)).
  { intros l c Hl. unfold boot in Hl. cbn in Hl. by rewrite lookup_empty in Hl. }
  split.
  - by eapply heap_evolves_below.
  - eapply heap_evolves_objects; [exact Hb| |exact He].
    intros l o Hl. unfold boot in Hl. cbn in Hl. by rewrite lookup_empty in Hl.
  - unfold player_allocated, init_scene. cbn. eexists _, _, _.
    split_and!; [reflexivity|heap_lookup; reflexivity|simpl; heap_lookup; reflexivity].
  - intros id Hid. by apply elem_of_nil in Hid.
  - constructor.
  - intros e He'. by apply elem_of_nil in He'.
Qed.

Lemma wf_init E : wf (init E).
Proof. apply wf_updateChunks, wf_init_scene. Qed.

(** Every state the program can be in is well formed. *)
Lemma reachable_wf E w : reachable E w -> wf w.
Proof.
  induction 1 as [|w w' _ IH Hstep]; [apply wf_init|by eapply wf_step].
Qed.

End WellFormed.

(** ** The chunk lifecycle manager *)

Section Lifecycle.

Lemma wf_playerChunk E w :
  wf w -> exists cx cz, playerChunk E w = Some (cx, cz).
Proof.
  intros Hw. destruct (wf_player _ Hw) as (m & o & v & Hm & Ho & Hv).
  unfold playerChunk, player_position, object_at, vector_at.
  rewrite Hm. simpl. rewrite Ho. simpl. rewrite Hv. simpl. eauto.
Qed.

Lemma reachable_playerChunk E w :
  reachable E w -> exists cx cz, playerChunk E w = Some (cx, cz).
Proof. intros Hr. apply wf_playerChunk. exact (reachable_wf E w Hr). Qed.

(** The player's chunk does not change when the heap only grows. *)
Lemma playerChunk_grows E w w' :
  wf w -> grows w w' -> player_mesh w' = player_mesh w ->
  playerChunk E w' = playerChunk E w.
Proof.
  intros Hw [_ Hold] Hpm.
  destruct (wf_player _ Hw) as (m & o & v & Hm & Ho & Hv).
  pose proof (wf_heap_below _ Hw _ _ Ho). pose proof (wf_heap_below _ Hw _ _ Hv).
  unfold playerChunk, player_position, object_at, vector_at.
  rewrite Hpm, Hm. simpl. rewrite (Hold m), Ho by done. simpl.
  by rewrite (Hold (position o)), Hv by done.
Qed.

(** C1: for every state whose chunk registry is a map (no key twice) that
    holds only keys made by [chunkID] - whatever chunks it holds, none,
    those of another window, or more -, every radius [R >= 0] and the chunk
    [(cx, cz)] the player's mesh stands in, the keys of the chunk registry
    after one call of [updateChunks] are exactly the keys of the chunks
    within Chebyshev distance [R] of [(cx, cz)], each of them once. *)
Theorem updateChunks_window (E : Env) (w : World) (cx cz : Z) :
  keys_printed (chunks w) ->
  NoDup (JS.keys (chunks w)) ->
  (0 <= loadedRadius E)%Z ->
  playerChunk E w = Some (cx, cz) ->
  (forall id, id ∈ JS.keys (chunks (updateChunks E w)) <-> in_window E cx cz id) /\
  NoDup (JS.keys (chunks (updateChunks E w))).
Proof.
  intros Hprinted Hnodup _ Hp. split.
  - intros id. by apply updateChunks_keys.
  - by apply updateChunks_keys_NoDup.
Qed.

Lemma foldl_id {A} (F : World -> A -> World) (l : list A) w :
  (forall x, x ∈ l -> F w x = w) -> foldl F w l = w.
Proof.
  induction l as [|x l IH]; simpl; [done|].
  intros HF. rewrite (HF x) by left. apply IH. intros y Hy. apply HF. by right.
Qed.

(** C3: whatever well-formed state a first call of [updateChunks] starts
    from, it leaves the player's mesh in the chunk it was in, and a second
    call there finds every key of the window in the registry, so it creates
    no chunk, finds no key of the registry far, so it unloads none, and
    leaves the whole state as it is. *)
Theorem updateChunks_idempotent (E : Env) (w : World) :
  wf w ->
  let w1 := updateChunks E w in
  exists cx cz,
    playerChunk E w = Some (cx, cz) /\
    playerChunk E w1 = Some (cx, cz) /\
    (forall dx dz, dx ∈ offsets E -> dz ∈ offsets E ->
       JS.has (chunks w1) (chunkKey (cx + dx) (cz + dz)) = true) /\
    (forall id, id ∈ JS.keys (chunks w1) -> far E cx cz id = false) /\
    updateChunks E w1 = w1.
Proof.
  intros Hw w1.
  destruct (wf_playerChunk E w Hw) as (cx & cz & Hp).
  exists cx, cz.
  assert (Hp1 : playerChunk E w1 = Some (cx, cz)).
  { rewrite <- Hp. apply playerChunk_grows; [done|apply updateChunks_grows|].
    apply (outside_fields _ _ (updateChunks_outside E w)). }
  assert (Hkeys : forall id, id ∈ JS.keys (chunks w1) <-> in_window E cx cz id).
  { intros id. apply updateChunks_keys; [apply Hw|done]. }
  assert (Hhas : forall dx dz, dx ∈ offsets E -> dz ∈ offsets E ->
            JS.has (chunks w1) (chunkKey (cx + dx) (cz + dz)) = true).
  { intros dx dz Hdx%elem_of_offsets Hdz%elem_of_offsets.
    apply has_keys, Hkeys. exists (cx + dx)%Z, (cz + dz)%Z.
    split_and!; [done|..].
    - by replace (cx + dx - cx)%Z with dx by lia.
    - by replace (cz + dz - cz)%Z with dz by lia. }
  assert (Hfar : forall id, id ∈ JS.keys (chunks w1) -> far E cx cz id = false).
  { intros id (x & z & -> & Hx & Hz)%Hkeys. by apply far_false_window. }
  split_and!; try done.
  unfold updateChunks at 1. rewrite Hp1.
  assert (Hload : loadNear E cx cz w1 = w1).
  { unfold loadNear. apply foldl_id. intros dx Hdx.
    apply foldl_id. intros dz Hdz. unfold loadOne. by rewrite Hhas. }
  rewrite Hload. unfold unloadFar. apply foldl_id.
  intros [id g] Hin. unfold unloadIfFar. rewrite Hfar; [done|].
  apply list_elem_of_fmap. by exists (id, g).
Qed.

Lemma run_call_grows E c w : grows w (run_call E c w).
Proof.
  destruct c; simpl; [apply updateChunks_grows|].
  apply grows_same; apply unloadChunk_heap.
Qed.

Lemma run_call_outside E c w :
  outside_chunks (run_call E c w) = outside_chunks w.
Proof. destruct c; simpl; [apply updateChunks_outside|apply unloadChunk_outside]. Qed.

(** C8: whatever calls of [updateChunks] and [unloadChunk] are made, in
    whatever order, the structure registry is the same afterwards, and the
    four cells of every structure in it are still there and hold what they
    held. *)
Theorem lifecycle_keeps_structures (E : Env) (calls : list lifecycle_call)
    (w : World) :
  reachable E w ->
  let w' := foldl (fun w c => run_call E c w) w calls in
  playerStructures w' = playerStructures w /\
  forall e, e ∈ playerStructures w ->
    forall l, l ∈ structure_cells e.2 ->
      is_Some (heap w !! l) /\ heap w' !! l = heap w !! l.
Proof.
  intros Hr w'. pose proof (reachable_wf _ _ Hr) as Hw.
  assert (Hout : outside_chunks w' = outside_chunks w).
  { apply foldl_field. intros w1 c. apply run_call_outside. }
  assert (Hg : grows w w').
  { apply (foldl_rel grows); [apply grows_refl|apply grows_trans|].
    intros w1 c. apply run_call_grows. }
  split.
  - apply (outside_fields _ _ Hout).
  - intros e He l Hl.
    assert (Hc : snapshot_cell (heap w) l).
    { destruct (wf_structures _ Hw e He) as (H1 & H2 & H3 & H4).
      unfold structure_cells in Hl.
      repeat (apply elem_of_cons in Hl as [->|Hl]; [done|]).
      by apply elem_of_nil in Hl. }
    destruct Hc as [(c & Hc & _) _]. split; [by eexists|].
    apply Hg. by eapply wf_heap_below.
Qed.

End Lifecycle.

(** ** Recorded structures *)

Section Structures.

Lemma animate_playerStructures E delta w :
  playerStructures (animate E delta w) = playerStructures w.
Proof.
  unfold animate.
  destruct (variables_fields _ _
              (proj1 (animateImmersion_variables E delta
                 (animateVehicles E delta (updateChunks E (updatePlayer delta w))))))
    as (_ & _ & -> & _).
  destruct (variables_fields _ _
              (proj1 (animateVehicles_variables E delta
                 (updateChunks E (updatePlayer delta w)))))
    as (_ & _ & -> & _).
  destruct (outside_fields _ _ (updateChunks_outside E (updatePlayer delta w)))
    as (-> & _).
  apply (variables_fields _ _ (proj1 (updatePlayer_variables delta w))).
Qed.

Lemma mutation_evolves E mesh w w' : mutation E mesh w w' -> evolves w w'.
Proof.
  destruct 1.
  - apply animate_evolves.
  - apply modify_position_evolves.
  - apply modify_rotation_evolves.
  - by apply evolves_same.
Qed.

Lemma mutation_playerStructures E mesh w w' :
  mutation E mesh w w' -> playerStructures w' = playerStructures w.
Proof. destruct 1; [apply animate_playerStructures|done..]. Qed.

(** A recorded snapshot outlives every mutation of the mesh it was taken
    from. *)
Lemma mutations_keep_snapshot E mesh s w1 w2 :
  rtc (mutation E mesh) w1 w2 ->
  heap_below (heap w1) (next w1) -> snapshot_ok (heap w1) s ->
  playerStructures w2 = playerStructures w1 /\
  Forall (fun l => heap w2 !! l = heap w1 !! l) (structure_cells s).
Proof.
  induction 1 as [w|w1 w2 w3 Hstep _ IH]; intros Hb Hs.
  - split; [done|]. unfold structure_cells. by repeat constructor.
  - pose proof (mutation_evolves _ _ _ _ Hstep) as He.
    destruct IH as [Hps Hcells].
    + by eapply heap_evolves_below.
    + by eapply snapshot_ok_evolves.
    + split; [by rewrite Hps; eapply mutation_playerStructures|].
      destruct Hs as (H1 & H2 & H3 & H4).
      unfold structure_cells in *.
      apply Forall_cons in Hcells as [E1 Hcells].
      apply Forall_cons in Hcells as [E2 Hcells].
      apply Forall_cons in Hcells as [E3 Hcells].
      apply Forall_cons in Hcells as [E4 _].
      repeat constructor.
      * rewrite E1. by eapply snapshot_cell_evolves.
      * rewrite E2. by eapply snapshot_cell_evolves.
      * rewrite E3. by eapply snapshot_cell_evolves.
      * rewrite E4. by eapply snapshot_cell_evolves.
Qed.

(** C7: [saveStructure] stores, under a new id, four cells of its own that
    hold the geometry, the material, the position and the rotation the mesh
    had when it was recorded.  None of them is a cell of the mesh, and none
    changes when the mesh is later animated by a frame, moved, turned or
    removed from the scene: the entry and what it holds stay as recorded. *)
Theorem saveStructure_snapshot_independent (E : Env) (mesh : loc) (w : World)
    (o : Object3D) (geo : Geometry) (mat : Material) (p : Vector3) (r : Euler) :
  wf w ->
  is_mesh w mesh o geo mat p r ->
  let w1 := saveStructure E mesh w in
  exists s,
    JS.get (playerStructures w1) (structureID E w) = Some s /\
    Forall (fun l => (next w <= l)%nat) (structure_cells s) /\
    forall w2, rtc (mutation E mesh) w1 w2 ->
      JS.get (playerStructures w2) (structureID E w) = Some s /\
      heap w2 !! s_geometry s = Some (CGeometry geo) /\
      heap w2 !! s_material s = Some (CMaterial mat) /\
      heap w2 !! s_position s = Some (CVector3 p) /\
      heap w2 !! s_rotation s = Some (CEuler r).
Proof.
  intros Hw Hmesh w1.
  pose proof (saveStructure_spec E mesh w o geo mat p r (wf_heap_below _ Hw) Hmesh) as Hspec.
  pose proof (saveStructure_snapshot E mesh w o geo mat p r
                (wf_heap_below _ Hw) (wf_objects_below _ Hw) Hmesh) as Hsnap.
  fold w1 in Hspec, Hsnap.
  exists (mkStructure (next w) (1 + next w) (2 + next w) (3 + next w)).
  assert (Hget : JS.get (playerStructures w1) (structureID E w)
                 = Some (mkStructure (next w) (1 + next w) (2 + next w) (3 + next w))).
  { rewrite Hspec. simpl. apply get_set_eq. }
  split_and!; [done|unfold structure_cells; simpl; repeat constructor; lia|].
  intros w2 Hrtc.
  assert (Hb1 : heap_below (heap w1) (next w1)).
  { eapply heap_evolves_below; [apply (wf_heap_below _ Hw)|].
    apply saveStructure_evolves. }
  destruct (mutations_keep_snapshot E mesh _ w1 w2 Hrtc Hb1 Hsnap) as [Hps Hcells].
  unfold structure_cells in Hcells. simpl in Hcells.
  apply Forall_cons in Hcells as [E1 Hcells].
  apply Forall_cons in Hcells as [E2 Hcells].
  apply Forall_cons in Hcells as [E3 Hcells].
  apply Forall_cons in Hcells as [E4 _].
  rewrite Hps. split; [done|]. simpl.
  rewrite E1, E2, E3, E4, Hspec. simpl.
  split_and!; by heap_lookup.
Qed.

End Structures.

(** ** The player *)

Section Player.

Local Open Scope Q_scope.

(** What [saveStructure] leaves alone: everything but the heap, the
    structure registry and the two counters. *)
Lemma saveStructure_others E mesh w :
  let w' := saveStructure E mesh w in
  scene w' = scene w /\ chunks w' = chunks w /\ keys w' = keys w /\
  vehicles w' = vehicles w /\
  (player_x w', player_y w', player_z w') = (player_x w, player_y w, player_z w) /\
  player_mesh w' = player_mesh w /\ dirLight w' = dirLight w.
Proof.
  destruct (object_at w mesh) as [o|] eqn:Ho.
  2: { unfold saveStructure. cbn.
       change (object_at (set_random_calls S (set_now_calls S w)) mesh)
         with (object_at w mesh).
       by rewrite Ho. }
  destruct (geometry o) as [g|] eqn:Hg, (material o) as [m|] eqn:Hm.
  1: { rewrite (saveStructure_unfold E mesh w o g m) by done. cbv zeta.
       set (w0 := set_random_calls S (set_now_calls S w)).
       set (w1 := (clone g w0).2). set (w2 := (clone m w1).2).
       set (w3 := (clone (position o) w2).2).
       set (w4 := (clone (rotation o) w3).2).
       assert (Hv : variables w4 = variables w).
       { unfold w4. rewrite (proj1 (clone_variables _ w3)).
         unfold w3. rewrite (proj1 (clone_variables _ w2)).
         unfold w2. rewrite (proj1 (clone_variables _ w1)).
         unfold w1. by rewrite (proj1 (clone_variables _ w0)). }
       clearbody w4.
       destruct (variables_fields _ _ Hv) as (? & ? & _ & ? & ? & ? & ? & ?).
       done. }
  all: unfold saveStructure; cbn;
    change (object_at (set_random_calls S (set_now_calls S w)) mesh)
      with (object_at w mesh);
    by rewrite Ho, Hg, ?Hm.
Qed.

Lemma register_vehicle_player E mesh w :
  (player_x (register_vehicle E mesh w), player_y (register_vehicle E mesh w),
   player_z (register_vehicle E mesh w))
  = (player_x w, player_y w, player_z w).
Proof.
  unfold register_vehicle.
  exact (proj1 (proj2 (proj2 (proj2 (proj2
           (saveStructure_others E mesh
              (set_vehicles (fun v => v ++ [mesh]) (scene_add mesh w)))))))).
Qed.

Lemma plane_variables w :
  variables (plane w).2 = variables w /\
  random_calls (plane w).2 = random_calls w /\
  now_calls (plane w).2 = now_calls w.
Proof. done. Qed.

Lemma boat_variables w :
  variables (boat w).2 = variables w /\
  random_calls (boat w).2 = random_calls w /\
  now_calls (boat w).2 = now_calls w.
Proof. done. Qed.

Lemma buildVehicle_cases E type w :
  buildVehicle E type w = register_vehicle E (plane w).1 (plane w).2 \/
  buildVehicle E type w = register_vehicle E (boat w).1 (boat w).2 \/
  buildVehicle E type w = w.
Proof.
  unfold buildVehicle.
  destruct (String.eqb type "plane"); [left; by destruct (plane w)|].
  destruct (String.eqb type "boat"); [right; left; by destruct (boat w)|].
  by right; right.
Qed.

Lemma buildVehicle_player E type w :
  (player_x (buildVehicle E type w), player_y (buildVehicle E type w),
   player_z (buildVehicle E type w))
  = (player_x w, player_y w, player_z w).
Proof.
  destruct (buildVehicle_cases E type w) as [-> | [-> | ->]]; [| |done].
  - rewrite register_vehicle_player.
    apply (variables_fields _ _ (proj1 (plane_variables w))).
  - rewrite register_vehicle_player.
    apply (variables_fields _ _ (proj1 (boat_variables w))).
Qed.

Lemma animate_player E delta w :
  (player_x (animate E delta w), player_y (animate E delta w),
   player_z (animate E delta w))
  = (player_x w, player_y w, player_z w).
Proof.
  unfold animate.
  destruct (variables_fields _ _
              (proj1 (animateImmersion_variables E delta
                 (animateVehicles E delta (updateChunks E (updatePlayer delta w))))))
    as (_ & _ & _ & _ & _ & -> & _).
  destruct (variables_fields _ _
              (proj1 (animateVehicles_variables E delta
                 (updateChunks E (updatePlayer delta w)))))
    as (_ & _ & _ & _ & _ & -> & _).
  destruct (outside_fields _ _ (updateChunks_outside E (updatePlayer delta w)))
    as (_ & _ & _ & -> & _).
  apply (variables_fields _ _ (proj1 (updatePlayer_variables delta w))).
Qed.

Lemma step_player E w w' :
  step E w w' ->
  (player_x w', player_y w', player_z w') = (player_x w, player_y w, player_z w).
Proof.
  destruct 1.
  - unfold handleKeys. cbv zeta. repeat case_match; rewrite ?buildVehicle_player; done.
  - done.
  - apply animate_player.
Qed.

Lemma updateChunks_player E w :
  (player_x (updateChunks E w), player_y (updateChunks E w),
   player_z (updateChunks E w))
  = (player_x w, player_y w, player_z w).
Proof.
  apply (outside_fields _ _ (updateChunks_outside E w)).
Qed.

(** No step assigns to [player.x], [player.y] or [player.z]. *)
Lemma reachable_player E w :
  reachable E w -> (player_x w, player_y w, player_z w) = (0, 2, 0).
Proof.
  induction 1 as [|w w' _ IH Hstep].
  - unfold init. by rewrite updateChunks_player.
  - by rewrite (step_player _ _ _ Hstep).
Qed.

(** The movement step writes to one cell, the position of the player's
    mesh. *)
Lemma on_key_frame k f w l :
  (forall m o, player_mesh w = Some m -> object_at w m = Some o -> l <> position o) ->
  heap (on_key k f w) !! l = heap w !! l.
Proof.
  intros Hl. unfold on_key, player_move.
  destruct (pressed w k); [|done]. destruct (player_mesh w) as [m|]; [|done].
  cbn. rewrite lookup_modify_position.
  specialize (Hl m). unfold object_at in Hl.
  destruct (heap w !! m) as [[| | | |o]|]; try done.
  rewrite decide_False; [done|]. intros Heq. by apply (Hl o).
Qed.

Lemma on_key_object k f w x : object_at (on_key k f w) x = object_at w x.
Proof.
  unfold on_key, player_move, object_at.
  destruct (pressed w k); [|done]. destruct (player_mesh w) as [m|]; [|done].
  cbn. rewrite lookup_modify_position.
  destruct (heap w !! m) as [[| | | |o]|]; try done.
  case_decide; [|done]. by destruct (heap w !! x) as [[| | | |]|].
Qed.

Lemma updatePlayer_frame delta w l :
  (forall m o, player_mesh w = Some m -> object_at w m = Some o -> l <> position o) ->
  heap (updatePlayer delta w) !! l = heap w !! l.
Proof.
  intros Hl. unfold updatePlayer. cbv zeta.
  repeat match goal with
         | |- heap (on_key ?k ?f ?w') !! l = _ =>
             rewrite (on_key_frame k f w' l)
         end; [done|..].
  all: intros m o; rewrite ?on_key_object;
       repeat match goal with
              | |- context [player_mesh (on_key ?k ?f ?w')] =>
                  destruct (variables_fields _ _ (proj1 (on_key_variables k f w')))
                    as (_ & _ & _ & _ & _ & _ & -> & _)
              end; apply Hl.
Qed.

(** The structure [register_vehicle] records. *)
Lemma register_vehicle_records E mesh w o geo mat p r :
  heap_below (heap w) (next w) ->
  is_mesh w mesh o geo mat p r ->
  exists s,
    JS.get (playerStructures (register_vehicle E mesh w)) (structureID E w) = Some s /\
    vector_at (register_vehicle E mesh w) (s_position s) = Some p.
Proof.
  intros Hb Hmesh. unfold register_vehicle.
  rewrite (saveStructure_spec E mesh _ o geo mat p r); [|exact Hb|exact Hmesh].
  exists (mkStructure (next w) (1 + next w) (2 + next w) (3 + next w)).
  split.
  - apply (get_set_eq (playerStructures w)).
  - unfold vector_at.
    change (heap _) with (<[(3 + next w)%nat:=CEuler r]>
               (<[(2 + next w)%nat:=CVector3 p]>
                  (<[(1 + next w)%nat:=CMaterial mat]>
                     (<[next w:=CGeometry geo]> (heap w))))).
    change (s_position _) with (2 + next w)%nat.
    rewrite lookup_insert_ne by lia. by rewrite lookup_insert_eq.
Qed.

Lemma buildVehicle_plane E w :
  buildVehicle E "plane" w = register_vehicle E (plane w).1 (plane w).2.
Proof. unfold buildVehicle. simpl String.eqb. cbv iota. by destruct (plane w). Qed.

Lemma buildVehicle_boat E w :
  buildVehicle E "boat" w = register_vehicle E (boat w).1 (boat w).2.
Proof. unfold buildVehicle. simpl String.eqb. cbv iota. by destruct (boat w). Qed.

Lemma structureID_ext E w w' :
  now_calls w' = now_calls w -> random_calls w' = random_calls w ->
  structureID E w' = structureID E w.
Proof. unfold structureID. by intros -> ->. Qed.

(** The structure [buildVehicle] records. *)
Lemma buildVehicle_records E type w :
  wf w -> type = "plane"%string \/ type = "boat"%string ->
  exists s,
    JS.get (playerStructures (buildVehicle E type w)) (structureID E w) = Some s /\
    vector_at (buildVehicle E type w) (s_position s)
    = Some (mkVector3 (player_x w + 2)
              (if String.eqb type "plane" then player_y w + 1 else 1#4)
              (player_z w)).
Proof.
  intros Hw [-> | ->].
  - rewrite buildVehicle_plane.
    destruct (plane_mesh w) as [o Ho].
    destruct (plane_variables w) as (_ & Hr & Hn).
    rewrite <- (structureID_ext E w (plane w).2 Hn Hr).
    eapply register_vehicle_records; [|exact Ho].
    eapply heap_evolves_below; [apply (wf_heap_below _ Hw)|apply plane_evolves].
  - rewrite buildVehicle_boat.
    destruct (boat_mesh w) as [o Ho].
    destruct (boat_variables w) as (_ & Hr & Hn).
    rewrite <- (structureID_ext E w (boat w).2 Hn Hr).
    eapply register_vehicle_records; [|exact Ho].
    eapply heap_evolves_below; [apply (wf_heap_below _ Hw)|apply boat_evolves].
Qed.

(** What the bodies of [updatePlayer] and [buildVehicle] do in a module
    whose [keys] and [vehicles] are initialised: in every state that
    events and frames lead to, [player.x], [player.y] and [player.z] still
    hold 0, 2 and 0; the movement step changes no variable of the module
    and no cell but the position of the player's mesh; and the structure
    recorded for a plane or a boat built there stands at the same spawn
    position, whatever movement came before. *)
Lemma initialised_spawn_position (E : Env) (w : World) (type : string) :
  reachable E w ->
  type = "plane"%string \/ type = "boat"%string ->
  (player_x w, player_y w, player_z w) = (0, 2, 0) /\
  (forall delta,
      variables (updatePlayer delta w) = variables w /\
      forall l,
        (forall m o, player_mesh w = Some m -> object_at w m = Some o ->
                     l <> position o) ->
        heap (updatePlayer delta w) !! l = heap w !! l) /\
  exists s,
    JS.get (playerStructures (buildVehicle E type w)) (structureID E w) = Some s /\
    vector_at (buildVehicle E type w) (s_position s) = Some (spawn_position type).
Proof.
  intros Hr Htype. pose proof (reachable_player E w Hr) as Hp.
  split_and!; [done| |].
  - intros delta. split; [apply updatePlayer_variables|].
    intros l Hl. by apply updatePlayer_frame.
  - destruct (buildVehicle_records E type w (reachable_wf _ _ Hr) Htype)
      as (s & Hget & Hpos).
    exists s. split; [done|]. rewrite Hpos.
    injection Hp as -> -> ->. unfold spawn_position.
    by destruct Htype as [-> | ->].
Qed.

End Player.

(** ** The theorems at sample inputs *)

Lemma chunkID_roundtrip_witness :
  (0 < chunkSize E0)%Q /\
  parseID (chunkID E0 (-130) 260) = (Some (-3)%Z, Some 5%Z).
Proof.
  assert (H : (0 < chunkSize E0)%Q) by reflexivity.
  split; [exact H|].
  exact (chunkID_roundtrip E0 (-130) 260 H).
Defined.

Lemma buildVehicle_unknown_type_witness :
  "car"%string <> "plane"%string /\ "car"%string <> "boat"%string /\
  buildVehicle E0 "car" boot = boot.
Proof.
  assert (H1 : "car"%string <> "plane"%string) by discriminate.
  assert (H2 : "car"%string <> "boat"%string) by discriminate.
  split_and!; [exact H1|exact H2|].
  exact (buildVehicle_unknown_type E0 "car" boot H1 H2).
Defined.

Lemma createChunk_primitives_witness :
  (0 < chunkSize E0)%Q /\
  (forall n, (0 <= Math_random E0 n)%Q /\ (Math_random E0 n < 1)%Q) /\
  let w' := createChunk E0 (-2) (-2) "-2_-2" init_scene in
  length (chunk_children w' "-2_-2") = 53%nat /\
  forall m, m ∈ chunk_children w' "-2_-2" ->
    exists geo p,
      primitive_at w' m = Some (geo, p) /\
      in_centred_square E0 (-2) (-2) p /\
      on_ground geo p /\
      (JS.Math_floor (vx p / chunkSize E0) = (-2 - 1)%Z
       \/ JS.Math_floor (vx p / chunkSize E0) = (-2)%Z) /\
      (JS.Math_floor (vz p / chunkSize E0) = (-2 - 1)%Z
       \/ JS.Math_floor (vz p / chunkSize E0) = (-2)%Z).
Proof.
  assert (H1 : (0 < chunkSize E0)%Q) by reflexivity.
  assert (H2 : forall n, (0 <= Math_random E0 n)%Q /\ (Math_random E0 n < 1)%Q).
  { intros n. split; [discriminate|reflexivity]. }
  split_and!; [exact H1|exact H2|].
  exact (createChunk_primitives E0 (-2) (-2) "-2_-2" init_scene H1 H2).
Defined.

(** The call of [updateChunks] that [init()] makes: the registry is empty,
    the player's mesh stands in chunk (0, 0), and the 25 chunks of the
    window are loaded. *)
Lemma updateChunks_window_witness :
  keys_printed (chunks init_scene) /\
  NoDup (JS.keys (chunks init_scene)) /\
  (0 <= loadedRadius E0)%Z /\
  playerChunk E0 init_scene = Some (0%Z, 0%Z) /\
  (forall id, id ∈ JS.keys (chunks (updateChunks E0 init_scene))
              <-> in_window E0 0 0 id) /\
  NoDup (JS.keys (chunks (updateChunks E0 init_scene))).
Proof.
  assert (H1 : keys_printed (chunks init_scene)) by exact (wf_keys_printed _ wf_init_scene).
  assert (H2 : NoDup (JS.keys (chunks init_scene))) by exact (wf_keys_NoDup _ wf_init_scene).
  assert (H3 : (0 <= loadedRadius E0)%Z) by (simpl; lia).
  assert (H4 : playerChunk E0 init_scene = Some (0%Z, 0%Z)) by (vm_compute; reflexivity).
  split_and!; [exact H1|exact H2|exact H3|exact H4|..];
    apply (updateChunks_window E0 init_scene 0 0 H1 H2 H3 H4).
Defined.

(** The call of [updateChunks] that [init()] makes, and a second call after
    it. *)
Lemma updateChunks_idempotent_witness :
  wf init_scene /\
  let w1 := updateChunks E0 init_scene in
  exists cx cz,
    playerChunk E0 init_scene = Some (cx, cz) /\
    playerChunk E0 w1 = Some (cx, cz) /\
    (forall dx dz, dx ∈ offsets E0 -> dz ∈ offsets E0 ->
       JS.has (chunks w1) (chunkKey (cx + dx) (cz + dz)) = true) /\
    (forall id, id ∈ JS.keys (chunks w1) -> far E0 cx cz id = false) /\
    updateChunks E0 w1 = w1.
Proof.
  split; [exact wf_init_scene|].
  exact (updateChunks_idempotent E0 init_scene wf_init_scene).
Defined.

Lemma wf_boat f w : wf w -> wf (set_vehicles f (scene_add (boat w).1 (boat w).2)).
Proof.
  intros Hw.
  apply (wf_evolves w); [exact Hw|exact (boat_evolves w)|done|apply Hw..|].
  intros e He. by left.
Qed.

Lemma boat_pushed_eq :
  boat_pushed.2
  = set_vehicles (fun v => v ++ [(boat init_scene).1])
      (scene_add (boat init_scene).1 (boat init_scene).2).
Proof. unfold boat_pushed. by destruct (boat init_scene). Qed.

Lemma wf_boat_pushed : wf boat_pushed.2.
Proof. rewrite boat_pushed_eq. apply wf_boat, wf_init_scene. Qed.

Lemma saveStructure_snapshot_independent_witness :
  wf boat_pushed.2 /\
  is_mesh boat_pushed.2 15 (mkObject3D (Some 11%nat) (Some 12%nat) 13 14 [])
    (CylinderGeometry 1 1 (1#2) 8) (mkMaterial 0x0000ff false)
    (mkVector3 2 (1#4) 0) (mkEuler 0 0 (Math_PI / 2)) /\
  let w1 := saveStructure E0 15 boat_pushed.2 in
  exists s,
    JS.get (playerStructures w1) (structureID E0 boat_pushed.2) = Some s /\
    Forall (fun l => (next boat_pushed.2 <= l)%nat) (structure_cells s) /\
    forall w2, rtc (mutation E0 15) w1 w2 ->
      JS.get (playerStructures w2) (structureID E0 boat_pushed.2) = Some s /\
      heap w2 !! s_geometry s = Some (CGeometry (CylinderGeometry 1 1 (1#2) 8)) /\
      heap w2 !! s_material s = Some (CMaterial (mkMaterial 0x0000ff false)) /\
      heap w2 !! s_position s = Some (CVector3 (mkVector3 2 (1#4) 0)) /\
      heap w2 !! s_rotation s = Some (CEuler (mkEuler 0 0 (Math_PI / 2))).
Proof.
  assert (H1 : wf boat_pushed.2) by apply wf_boat_pushed.
  assert (H2 : is_mesh boat_pushed.2 15
                 (mkObject3D (Some 11%nat) (Some 12%nat) 13 14 [])
                 (CylinderGeometry 1 1 (1#2) 8) (mkMaterial 0x0000ff false)
                 (mkVector3 2 (1#4) 0) (mkEuler 0 0 (Math_PI / 2))).
  { exists 11%nat, 12%nat. vm_compute. repeat split. }
  split_and!; [exact H1|exact H2|].
  exact (saveStructure_snapshot_independent E0 15 boat_pushed.2 _ _ _ _ _ H1 H2).
Defined.

Lemma lifecycle_keeps_structures_witness :
  reachable E0 (with_boat E0) /\
  let w' := foldl (fun w c => run_call E0 c w) (with_boat E0)
              [call_unloadChunk "0_0"; call_updateChunks] in
  playerStructures w' = playerStructures (with_boat E0) /\
  forall e, e ∈ playerStructures (with_boat E0) ->
    forall l, l ∈ structure_cells e.2 ->
      is_Some (heap (with_boat E0) !! l) /\
      heap w' !! l = heap (with_boat E0) !! l.
Proof.
  assert (H : reachable E0 (with_boat E0)).
  { unfold with_boat. eapply reachable_step; [apply reachable_init|apply step_keydown]. }
  split; [exact H|].
  exact (lifecycle_keeps_structures E0
           [call_unloadChunk "0_0"; call_updateChunks] (with_boat E0) H).
Defined.

(** ** The module as it is loaded *)

Section Loaded.

Local Open Scope Q_scope.

Context (E : Env).

(** While [keys] is not initialised, whatever reads or assigns it throws
    before it has changed anything. *)
Lemma shipped_updatePlayer_early delta s :
  Shipped.keys_initialised s = false ->
  Shipped.updatePlayer delta s
  = (Shipped.Throw (Shipped.ReferenceError "keys"), s).
Proof. intros H. unfold Shipped.updatePlayer. by rewrite H. Qed.

Lemma shipped_handleKeys_early event s :
  Shipped.keys_initialised s = false ->
  Shipped.handleKeys E event s
  = (Shipped.Throw (Shipped.ReferenceError "keys"), s).
Proof. intros H. unfold Shipped.handleKeys. by rewrite H. Qed.

Lemma shipped_handleKeysUp_early event s :
  Shipped.keys_initialised s = false ->
  Shipped.handleKeysUp event s
  = (Shipped.Throw (Shipped.ReferenceError "keys"), s).
Proof. intros H. unfold Shipped.handleKeysUp. by rewrite H. Qed.

Lemma shipped_animate_early delta s :
  Shipped.keys_initialised s = false ->
  Shipped.animate E delta s
  = (Shipped.Throw (Shipped.ReferenceError "keys"), s).
Proof.
  intros H. unfold Shipped.animate.
  by rewrite (shipped_updatePlayer_early delta s H).
Qed.

Lemma shipped_animateVehicles_early delta s :
  Shipped.vehicles_initialised s = false ->
  Shipped.animateVehicles E delta s
  = (Shipped.Throw (Shipped.ReferenceError "vehicles"), s).
Proof. intros H. unfold Shipped.animateVehicles. by rewrite H. Qed.

(** The evaluation of the module ends in the first frame: [updatePlayer]
    throws, and lines 54 and 63 are not reached. *)
Lemma shipped_load delta :
  Shipped.load E delta
  = (Shipped.Throw (Shipped.ReferenceError "keys"), Shipped.initialised E).
Proof.
  unfold Shipped.load.
  by rewrite (shipped_animate_early delta (Shipped.initialised E) eq_refl).
Qed.

Lemma shipped_step s s' :
  Shipped.keys_initialised s = false -> Shipped.step E s s' -> s' = s.
Proof.
  intros H Hstep. revert H. destruct Hstep as [k s|k s|delta s]; intros H.
  - by rewrite (shipped_handleKeys_early _ _ H).
  - by rewrite (shipped_handleKeysUp_early _ _ H).
  - by rewrite (shipped_animate_early _ _ H).
Qed.

(** The program has one state: the one [init()] left. *)
Lemma shipped_reachable s :
  Shipped.reachable E s -> s = Shipped.initialised E.
Proof.
  induction 1 as [delta|s s' _ IH Hstep].
  - by rewrite shipped_load.
  - subst s. exact (shipped_step (Shipped.initialised E) s' eq_refl Hstep).
Qed.

(** [buildVehicle] while [vehicles] is not initialised: the mesh is built,
    positioned and added to the scene, and [vehicles.push(mesh)] throws. *)
Lemma shipped_register_vehicle_early mesh s :
  Shipped.vehicles_initialised s = false ->
  Shipped.register_vehicle E mesh s
  = (Shipped.Throw (Shipped.ReferenceError "vehicles"),
     Shipped.on_world (scene_add mesh) s).
Proof. intros H. unfold Shipped.register_vehicle. cbn. by rewrite H. Qed.

Lemma shipped_buildVehicle_plane s :
  Shipped.vehicles_initialised s = false ->
  Shipped.buildVehicle E "plane" s
  = (Shipped.Throw (Shipped.ReferenceError "vehicles"),
     Shipped.on_world
       (fun _ => scene_add (plane (Shipped.world s)).1 (plane (Shipped.world s)).2) s).
Proof.
  intros H. unfold Shipped.buildVehicle. simpl String.eqb. cbv iota.
  destruct (plane (Shipped.world s)) as [mesh w].
  by rewrite shipped_register_vehicle_early.
Qed.

Lemma shipped_buildVehicle_boat s :
  Shipped.vehicles_initialised s = false ->
  Shipped.buildVehicle E "boat" s
  = (Shipped.Throw (Shipped.ReferenceError "vehicles"),
     Shipped.on_world
       (fun _ => scene_add (boat (Shipped.world s)).1 (boat (Shipped.world s)).2) s).
Proof.
  intros H. unfold Shipped.buildVehicle. simpl String.eqb. cbv iota.
  destruct (boat (Shipped.world s)) as [mesh w].
  by rewrite shipped_register_vehicle_early.
Qed.

(** The state in which [vehicles.push(mesh)] throws, for a mesh built in a
    world [w'] that has the variables of the state before. *)
Lemma shipped_scene_added mesh w' s o geo mat p r :
  variables w' = variables (Shipped.world s) ->
  is_mesh w' mesh o geo mat p r ->
  let s' := Shipped.on_world (fun _ => scene_add mesh w') s in
  Shipped.keys_initialised s' = Shipped.keys_initialised s /\
  Shipped.vehicles_initialised s' = Shipped.vehicles_initialised s /\
  scene (Shipped.world s') = scene (Shipped.world s) ++ [mesh] /\
  is_mesh (Shipped.world s') mesh o geo mat p r /\
  playerStructures (Shipped.world s') = playerStructures (Shipped.world s) /\
  vehicles (Shipped.world s') = vehicles (Shipped.world s) /\
  chunks (Shipped.world s') = chunks (Shipped.world s) /\
  keys (Shipped.world s') = keys (Shipped.world s) /\
  (player_x (Shipped.world s'), player_y (Shipped.world s'),
   player_z (Shipped.world s'), player_mesh (Shipped.world s'))
  = (player_x (Shipped.world s), player_y (Shipped.world s),
     player_z (Shipped.world s), player_mesh (Shipped.world s)).
Proof.
  intros Hv Hm s'. subst s'.
  destruct (variables_fields _ _ Hv) as (Hsc & Hc & Hps & Hk & Hve & Hp & Hpm & _).
  destruct s as [ki vi w]. cbn in *.
  rewrite Hsc, Hc, Hps, Hk, Hve, Hpm.
  injection Hp as -> -> ->.
  split_and!; reflexivity || exact Hm.
Qed.

(** What the throwing [buildVehicle] leaves: the mesh, at its spawn
    position, is the last object of the scene; the structure registry and
    the other variables are as they were. *)
Lemma shipped_buildVehicle_early type s :
  Shipped.vehicles_initialised s = false ->
  type = "plane"%string \/ type = "boat"%string ->
  exists s' o,
    Shipped.buildVehicle E type s
    = (Shipped.Throw (Shipped.ReferenceError "vehicles"), s') /\
    Shipped.keys_initialised s' = Shipped.keys_initialised s /\
    Shipped.vehicles_initialised s' = Shipped.vehicles_initialised s /\
    scene (Shipped.world s')
    = scene (Shipped.world s) ++ [(4 + next (Shipped.world s))%nat] /\
    is_mesh (Shipped.world s') (4 + next (Shipped.world s)) o
      (if String.eqb type "plane" then BoxGeometry 2 (2#5) 4
       else CylinderGeometry 1 1 (1#2) 8)
      (mkMaterial (if String.eqb type "plane" then 0xffff00 else 0x0000ff) false)
      (mkVector3 (player_x (Shipped.world s) + 2)
         (if String.eqb type "plane" then player_y (Shipped.world s) + 1 else 1#4)
         (player_z (Shipped.world s)))
      (mkEuler 0 0 (if String.eqb type "plane" then 0 else Math_PI / 2)) /\
    playerStructures (Shipped.world s') = playerStructures (Shipped.world s) /\
    vehicles (Shipped.world s') = vehicles (Shipped.world s) /\
    chunks (Shipped.world s') = chunks (Shipped.world s) /\
    keys (Shipped.world s') = keys (Shipped.world s) /\
    (player_x (Shipped.world s'), player_y (Shipped.world s'),
     player_z (Shipped.world s'), player_mesh (Shipped.world s'))
    = (player_x (Shipped.world s), player_y (Shipped.world s),
       player_z (Shipped.world s), player_mesh (Shipped.world s)).
Proof.
  intros H [-> | ->].
  - destruct (plane_mesh (Shipped.world s)) as [o Ho].
    change (String.eqb "plane" "plane") with true. cbv iota.
    exists (Shipped.on_world
              (fun _ => scene_add (plane (Shipped.world s)).1
                          (plane (Shipped.world s)).2) s), o.
    split; [exact (shipped_buildVehicle_plane s H)|].
    change (4 + next (Shipped.world s))%nat with (plane (Shipped.world s)).1.
    exact (shipped_scene_added _ _ s o _ _ _ _
             (proj1 (plane_variables (Shipped.world s))) Ho).
  - destruct (boat_mesh (Shipped.world s)) as [o Ho].
    change (String.eqb "boat" "plane") with false. cbv iota.
    exists (Shipped.on_world
              (fun _ => scene_add (boat (Shipped.world s)).1
                          (boat (Shipped.world s)).2) s), o.
    split; [exact (shipped_buildVehicle_boat s H)|].
    change (4 + next (Shipped.world s))%nat with (boat (Shipped.world s)).1.
    exact (shipped_scene_added _ _ s o _ _ _ _
             (proj1 (boat_variables (Shipped.world s))) Ho).
Qed.




End Loaded.


(** * Further properties of the module

    The functions the properties above do not reach, and the invariants of
    the states the program can be in. *)

(** ** More on the insertion-ordered map *)

Section RegistryMap.
Context {V : Type}.
Implicit Types (m : list (string * V)) (k : string) (v : V).

Lemma get_None_keys m k : JS.get m k = None <-> k ∉ JS.keys m.
Proof.
  rewrite <- not_has_keys. destruct (JS.has m k) eqn:Hh.
  - apply has_get in Hh as [v Hv]. rewrite Hv. split; done.
  - split; [done|]. intros _. destruct (JS.get m k) eqn:Hg; [|done].
    assert (JS.has m k = true) by (apply has_get; eauto). congruence.
Qed.

Lemma get_delete_ne m k k' : k <> k' -> JS.get (JS.delete m k) k' = JS.get m k'.
Proof.
  intros Hne. induction m as [|[k0 v0] m IH]; [done|]. simpl.
  destruct (String.eqb_spec k0 k) as [->|Hk].
  - destruct (String.eqb_spec k k'); done.
  - simpl. by rewrite IH.
Qed.

Lemma keys_delete m k : JS.keys (JS.delete m k) ⊆ JS.keys m.
Proof.
  induction m as [|[k0 v0] m IH]; [done|]. simpl.
  destruct (String.eqb_spec k0 k) as [->|Hk]; unfold JS.keys in *; simpl.
  - intros x Hx. by apply elem_of_cons; right.
  - intros x [->|Hx]%elem_of_cons; apply elem_of_cons; [by left|right; by apply IH].
Qed.

Lemma get_delete_eq m k : NoDup (JS.keys m) -> JS.get (JS.delete m k) k = None.
Proof.
  intros Hnd. induction m as [|[k0 v0] m IH]; [done|]. simpl.
  unfold JS.keys in Hnd. simpl in Hnd. apply NoDup_cons in Hnd as [Hk0 Hnd].
  destruct (String.eqb_spec k0 k) as [->|Hk].
  - by apply get_None_keys.
  - simpl. destruct (String.eqb_spec k0 k); [done|]. by apply IH.
Qed.

Lemma delete_absent m k : JS.get m k = None -> JS.delete m k = m.
Proof.
  induction m as [|[k0 v0] m IH]; [done|]. simpl.
  destruct (String.eqb_spec k0 k); [done|]. intros Hg. by rewrite IH.
Qed.

Lemma set_absent m k v : JS.has m k = false -> JS.set m k v = m ++ [(k, v)].
Proof.
  induction m as [|[k0 v0] m IH]; [done|]. simpl.
  destruct (String.eqb_spec k0 k); [done|]. simpl. intros Hh. by rewrite IH.
Qed.

Lemma NoDup_keys_delete m k : NoDup (JS.keys m) -> NoDup (JS.keys (JS.delete m k)).
Proof.
  induction m as [|[k0 v0] m IH]; [done|]. unfold JS.keys in *. simpl.
  intros [Hk0 Hnd]%NoDup_cons.
  destruct (String.eqb_spec k0 k); [done|]. simpl. apply NoDup_cons. split.
  - intros Hin. apply Hk0. by apply (keys_delete m k).
  - by apply IH.
Qed.

End RegistryMap.

(** ** Unloading a chunk *)

Section Unloading.

Lemma remove_first_other o s x : x <> o -> x ∈ remove_first o s <-> x ∈ s.
Proof.
  intros Hne. induction s as [|y s IH]; [done|]. simpl.
  destruct (Nat.eqb_spec y o) as [->|Hy]; rewrite !elem_of_cons; [|rewrite IH]; tauto.
Qed.

Lemma remove_first_absent o s : o ∉ s -> remove_first o s = s.
Proof.
  induction s as [|y s IH]; [done|]. simpl. intros Hn.
  apply not_elem_of_cons in Hn as [Hne Hn].
  destruct (Nat.eqb_spec y o) as [->|Hy]; [done|]. by rewrite IH.
Qed.

Lemma remove_first_NoDup o s : NoDup s -> o ∉ remove_first o s.
Proof.
  induction s as [|y s IH]; [intros _; apply not_elem_of_nil|]. simpl.
  intros [Hy Hnd]%NoDup_cons.
  destruct (Nat.eqb_spec y o) as [->|Hne]; [done|].
  apply not_elem_of_cons. split; [done|by apply IH].
Qed.

Lemma remove_first_Permutation o s : o ∈ s -> s ≡ₚ o :: remove_first o s.
Proof.
  induction s as [|y s IH]; [by intros ?%elem_of_nil|]. simpl.
  intros [->|Hin]%elem_of_cons.
  - by rewrite Nat.eqb_refl.
  - destruct (Nat.eqb_spec y o) as [->|Hne]; [done|].
    rewrite (IH Hin) at 1. apply Permutation_swap.
Qed.

(** X2: [unloadChunk(id)] for a registered id, in a registry without
    repeated keys: afterwards the id is not registered, every other id has
    the group it had, the scene has lost the first occurrence of the group
    and nothing else (so the group is gone from a scene that held it once),
    and no object is written to or freed - the group and its primitives stay
    in the heap; the variables outside the chunk manager and the counters are
    unchanged. *)
Theorem unloadChunk_registered (id : string) (g : loc) (w : World) :
  NoDup (JS.keys (chunks w)) ->
  JS.get (chunks w) id = Some g ->
  let w' := unloadChunk id w in
  JS.get (chunks w') id = None /\
  (forall id', id' <> id -> JS.get (chunks w') id' = JS.get (chunks w) id') /\
  (forall x, x <> g -> x ∈ scene w' <-> x ∈ scene w) /\
  (NoDup (scene w) -> g ∉ scene w') /\
  heap w' = heap w /\ next w' = next w /\
  outside_chunks w' = outside_chunks w /\
  random_calls w' = random_calls w.
Proof.
  intros Hnd Hg w'.
  destruct (unloadChunk_heap id w) as [Hh Hn].
  pose proof (unloadChunk_outside id w) as Ho.
  pose proof (unloadChunk_counters id w) as Hc.
  fold w' in Hh, Hn, Ho, Hc.
  assert (Hch : chunks w' = JS.delete (chunks w) id)
    by (unfold w', unloadChunk; by rewrite Hg).
  assert (Hsc : scene w' = remove_first g (scene w))
    by (unfold w', unloadChunk; by rewrite Hg).
  clearbody w'. rewrite Hch, Hsc. split; [by apply get_delete_eq|].
  split; [intros id' Hne; by apply get_delete_ne|].
  split; [intros x Hx; by apply remove_first_other|].
  split; [apply remove_first_NoDup|]. repeat split; assumption.
Qed.

(** X3: [unloadChunk(id)] for an id that is not registered changes
    nothing, and unloading the same id twice is the same as unloading it
    once. *)
Theorem unloadChunk_idempotent (id : string) (w : World) :
  NoDup (JS.keys (chunks w)) ->
  (JS.get (chunks w) id = None -> unloadChunk id w = w) /\
  unloadChunk id (unloadChunk id w) = unloadChunk id w.
Proof.
  intros Hnd.
  assert (Hnone : forall w0, JS.get (chunks w0) id = None -> unloadChunk id w0 = w0).
  { intros w0 H0. unfold unloadChunk. by rewrite H0. }
  split; [apply Hnone|]. apply Hnone.
  destruct (JS.get (chunks w) id) as [g|] eqn:Hg.
  - unfold unloadChunk. rewrite Hg. cbn. by apply get_delete_eq.
  - by rewrite Hnone.
Qed.

End Unloading.

(** At sample inputs. *)

Lemma unloadChunk_registered_witness :
  let w := createChunk E0 0 0 "0_0" init_scene in
  NoDup (JS.keys (chunks w)) /\
  JS.get (chunks w) "0_0" = Some 13%nat /\
  let w' := unloadChunk "0_0" w in
  JS.get (chunks w') "0_0" = None /\
  (forall id', id' <> "0_0"%string -> JS.get (chunks w') id' = JS.get (chunks w) id') /\
  (forall x, x <> 13%nat -> x ∈ scene w' <-> x ∈ scene w) /\
  (NoDup (scene w) -> 13%nat ∉ scene w') /\
  heap w' = heap w /\ next w' = next w /\
  outside_chunks w' = outside_chunks w /\
  random_calls w' = random_calls w.
Proof.
  assert (H1 : NoDup (JS.keys (chunks (createChunk E0 0 0 "0_0" init_scene)))).
  { unfold createChunk. rewrite createChunkWith_chunks.
    change (chunks init_scene) with (@nil (string * loc)). simpl.
    apply NoDup_singleton. }
  assert (H2 : JS.get (chunks (createChunk E0 0 0 "0_0" init_scene)) "0_0" = Some 13%nat).
  { unfold createChunk. rewrite createChunkWith_chunks. reflexivity. }
  split; [exact H1|]. split; [exact H2|].
  exact (unloadChunk_registered "0_0" 13 _ H1 H2).
Defined.

Lemma unloadChunk_idempotent_witness :
  let w := createChunk E0 0 0 "0_0" init_scene in
  NoDup (JS.keys (chunks w)) /\
  (JS.get (chunks w) "0_0" = None -> unloadChunk "0_0" w = w) /\
  unloadChunk "0_0" (unloadChunk "0_0" w) = unloadChunk "0_0" w.
Proof.
  assert (H1 : NoDup (JS.keys (chunks (createChunk E0 0 0 "0_0" init_scene)))).
  { unfold createChunk. rewrite createChunkWith_chunks.
    change (chunks init_scene) with (@nil (string * loc)). simpl.
    apply NoDup_singleton. }
  split; [exact H1|]. exact (unloadChunk_idempotent "0_0" _ H1).
Defined.

(** ** What [updateChunks] keeps and what it generates *)

Section Retention.

Lemma get_filter_keep {V} (P : string -> bool) (m : list (string * V)) k :
  P k = true ->
  JS.get (filter (fun e => P e.1 = true) m) k = JS.get m k.
Proof.
  intros Hk. induction m as [|[k0 v0] m IH]; [done|].
  rewrite filter_cons. simpl. destruct (decide (P k0 = true)) as [H0|H0]; simpl.
  - by rewrite IH.
  - destruct (String.eqb_spec k0 k) as [->|Hne]; [congruence|done].
Qed.

Lemma unloadFar_get E cx cz w id :
  far E cx cz id = false ->
  JS.get (chunks (unloadFar E cx cz w)) id = JS.get (chunks w) id.
Proof.
  intros Hfar. rewrite unloadFar_chunks.
  induction (chunks w) as [|[k0 v0] m IH]; [done|].
  rewrite filter_cons. simpl. destruct (decide (far E cx cz k0 = false)) as [H0|H0]; simpl.
  - by rewrite IH.
  - destruct (String.eqb_spec k0 id) as [->|Hne]; [congruence|done].
Qed.

Lemma loadOne_keeps E cx cz dx dz w id g :
  JS.get (chunks w) id = Some g ->
  JS.get (chunks (loadOne E cx cz dx dz w)) id = Some g.
Proof.
  intros Hg. unfold loadOne. destruct (JS.has _ _) eqn:Hh; [done|].
  unfold createChunk. rewrite createChunkWith_chunks, get_set_ne; [done|].
  intros <-. assert (JS.has (chunks w) (chunkKey (cx + dx) (cz + dz)) = true).
  { apply has_get. eauto. }
  congruence.
Qed.

Lemma loadNear_keeps E cx cz w id g :
  JS.get (chunks w) id = Some g ->
  JS.get (chunks (loadNear E cx cz w)) id = Some g.
Proof.
  unfold loadNear. revert w.
  apply (foldl_rel (fun w w' => JS.get (chunks w) id = Some g ->
                                  JS.get (chunks w') id = Some g)); [auto|auto|].
  intros w1 dx. revert w1.
  apply (foldl_rel (fun w w' => JS.get (chunks w) id = Some g ->
                                  JS.get (chunks w') id = Some g)); [auto|auto|].
  intros w2 dz. apply loadOne_keeps.
Qed.

Lemma in_window_far E cx cz id : in_window E cx cz id -> far E cx cz id = false.
Proof. intros (x & z & -> & Hx & Hz). by apply far_false_window. Qed.

(** X4: [updateChunks] keeps what is loaded and in range: a chunk
    registered under an id of the window around the player's chunk is
    registered under that id with the same group afterwards, and no cell
    that existed before the call is written to - the chunk is not
    generated again. *)
Theorem updateChunks_retains (E : Env) (w : World) (cx cz : Z) (id : string)
    (g : loc) :
  playerChunk E w = Some (cx, cz) ->
  in_window E cx cz id ->
  JS.get (chunks w) id = Some g ->
  JS.get (chunks (updateChunks E w)) id = Some g /\
  forall l, (l < next w)%nat -> heap (updateChunks E w) !! l = heap w !! l.
Proof.
  intros Hpc Hwin Hg. split; [|apply updateChunks_grows].
  unfold updateChunks. rewrite Hpc.
  rewrite unloadFar_get by by apply in_window_far.
  by apply loadNear_keeps.
Qed.

(** What is allocated stays as it is while the heap only grows. *)
Lemma grows_lookup w w' l c :
  heap_below (heap w) (next w) -> grows w w' ->
  heap w !! l = Some c -> heap w' !! l = Some c.
Proof. intros Hb [_ Hg] Hl. rewrite Hg; [done|]. by eapply Hb. Qed.

Lemma grows_object_at w w' l o :
  heap_below (heap w) (next w) -> grows w w' ->
  object_at w l = Some o -> object_at w' l = Some o.
Proof.
  intros Hb Hg. unfold object_at.
  destruct (heap w !! l) as [c|] eqn:Hl; [|done].
  rewrite (grows_lookup w w' l c Hb Hg Hl). done.
Qed.

Lemma grows_primitive_at w w' m x :
  heap_below (heap w) (next w) -> grows w w' ->
  primitive_at w m = Some x -> primitive_at w' m = Some x.
Proof.
  intros Hb Hg. unfold primitive_at.
  destruct (object_at w m) as [o|] eqn:Ho; [|done].
  rewrite (grows_object_at w w' m o Hb Hg Ho). simpl.
  destruct (geometry o) as [gl|]; [|done]. simpl.
  unfold geometry_at, vector_at.
  destruct (heap w !! gl) as [c|] eqn:Hgl; [|done].
  rewrite (grows_lookup w w' gl c Hb Hg Hgl).
  destruct c; try done. simpl.
  destruct (heap w !! position o) as [c|] eqn:Hp; [|done].
  by rewrite (grows_lookup w w' _ c Hb Hg Hp).
Qed.

Lemma generated_grows E w w' id n x z g :
  heap_below (heap w) (next w) -> grows w w' ->
  JS.get (chunks w) id = Some g -> JS.get (chunks w') id = Some g ->
  (0 < n)%nat ->
  generated E w id n x z -> generated E w' id n x z.
Proof.
  intros Hb Hg Hid Hid' Hn [Hlen Hch].
  assert (Hc : chunk_children w' id = chunk_children w id).
  { unfold chunk_children in *. rewrite Hid in *. rewrite Hid'.
    destruct (object_at w g) as [o|] eqn:Ho.
    - by rewrite (grows_object_at w w' g o Hb Hg Ho).
    - simpl in Hlen. lia. }
  unfold generated. rewrite Hc. split; [done|].
  intros m Hm. destruct (Hch m Hm) as (geo & p & Hp & Hrest).
  exists geo, p. split; [|done]. by eapply grows_primitive_at.
Qed.

Lemma generated_ext E w w' id n x z :
  heap w' = heap w -> JS.get (chunks w') id = JS.get (chunks w) id ->
  generated E w id n x z -> generated E w' id n x z.
Proof.
  intros Hh Hc. unfold generated, chunk_children, primitive_at, object_at,
    geometry_at, vector_at. by rewrite Hh, Hc.
Qed.

Section Fresh.
Context (E : Env).
Hypothesis Hsize : (0 < chunkSize E)%Q.
Hypothesis Hrandom : forall n, (0 <= Math_random E n)%Q /\ (Math_random E n < 1)%Q.

Lemma loads_refl w : loads E w w.
Proof.
  intros Hb. split; [done|]. split; [apply grows_refl|]. split; [done|].
  intros id g H1 H2. congruence.
Qed.

Lemma loads_trans w1 w2 w3 : loads E w1 w2 -> loads E w2 w3 -> loads E w1 w3.
Proof.
  intros H12 H23 Hb1.
  destruct (H12 Hb1) as (Hb2 & Hg12 & Hk12 & Hf12).
  destruct (H23 Hb2) as (Hb3 & Hg23 & Hk23 & Hf23).
  split; [done|]. split; [by eapply grows_trans|]. split; [by auto|].
  intros id g Hn1 Hs3.
  destruct (JS.get (chunks w2) id) as [g2|] eqn:H2.
  - pose proof (Hk23 _ _ H2) as H3. assert (g2 = g) as -> by congruence.
    destruct (Hf12 id g Hn1 H2) as [Hge Hgen]. split; [done|].
    intros x z Hid. eapply (generated_grows E w2 w3); eauto. lia.
  - destruct (Hf23 id g H2 Hs3) as [Hge Hgen]. split; [|done].
    destruct Hg12. lia.
Qed.

Lemma loadOne_loads cx cz dx dz w : loads E w (loadOne E cx cz dx dz w).
Proof.
  unfold loadOne. destruct (JS.has _ _) eqn:Hh; [apply loads_refl|].
  intros Hb. split.
  { eapply heap_evolves_below; [done|]. apply createChunkWith_evolves. }
  split; [apply createChunk_grows|].
  unfold createChunk. rewrite createChunkWith_chunks.
  split.
  - intros id g Hg. rewrite get_set_ne; [done|].
    intros <-. assert (JS.has (chunks w) (chunkKey (cx + dx) (cz + dz)) = true).
    { apply has_get. eauto. }
    congruence.
  - intros id g Hn Hs.
    destruct (decide (id = chunkKey (cx + dx) (cz + dz))) as [->|Hne].
    2: { rewrite get_set_ne in Hs by done. congruence. }
    rewrite get_set_eq in Hs. injection Hs as <-. split; [lia|].
    intros x z [<- <-]%chunkKey_inj.
    destruct (createChunkWith_primitives E (cx + dx) (cz + dz) Hsize Hrandom 50 3
                (chunkKey (cx + dx) (cz + dz)) w) as [Hlen Hch].
    split; [exact Hlen|].
    intros m Hm. destruct (Hch m Hm) as (geo & p & Hp & Hsq & Hgr & _).
    by exists geo, p.
Qed.

Lemma loadNear_loads cx cz w : loads E w (loadNear E cx cz w).
Proof.
  unfold loadNear.
  apply (foldl_rel (loads E)); [apply loads_refl|apply loads_trans|].
  intros w1 dx.
  apply (foldl_rel (loads E)); [apply loads_refl|apply loads_trans|].
  intros w2 dz. apply loadOne_loads.
Qed.

End Fresh.

(** X5: [updateChunks] generates what is in range and missing: for a
    coordinate [(x, z)] of the window with no chunk registered under its
    key, the registry holds a group under that key afterwards, allocated by
    this call, with 53 primitives, each a box with its base at y = 0 in the
    square of side [chunkSize] centred on [(x * chunkSize, z * chunkSize)],
    edges included (for a positive chunk size and random numbers in
    [0, 1)). *)
Theorem updateChunks_generates (E : Env) (w : World) (cx cz x z : Z) :
  (0 < chunkSize E)%Q ->
  (forall n, (0 <= Math_random E n)%Q /\ (Math_random E n < 1)%Q) ->
  wf w ->
  playerChunk E w = Some (cx, cz) ->
  (Z.abs (x - cx) <= loadedRadius E)%Z ->
  (Z.abs (z - cz) <= loadedRadius E)%Z ->
  JS.get (chunks w) (chunkKey x z) = None ->
  let w' := updateChunks E w in
  exists g,
    JS.get (chunks w') (chunkKey x z) = Some g /\
    (next w <= g)%nat /\
    generated E w' (chunkKey x z) 53 x z.
Proof.
  intros Hsize Hrandom Hwf Hpc Hx Hz Hnone w'.
  unfold w', updateChunks. rewrite Hpc. clear w'.
  destruct (loadNear_loads E Hsize Hrandom cx cz w (wf_heap_below w Hwf))
    as (_ & _ & _ & Hfresh).
  assert (Hin : chunkKey x z ∈ JS.keys (chunks (loadNear E cx cz w))).
  { apply loadNear_keys. right. by exists x, z. }
  apply has_keys, has_get in Hin as [g Hg].
  destruct (Hfresh _ g Hnone Hg) as [Hge Hgen].
  assert (Hfar : far E cx cz (chunkKey x z) = false) by by apply far_false_window.
  exists g. split; [by rewrite unloadFar_get|]. split; [done|].
  eapply generated_ext; [apply unloadFar_heap|by apply unloadFar_get|by apply Hgen].
Qed.

End Retention.

(** At sample inputs. *)

Lemma updateChunks_retains_witness :
  playerChunk E0 (one_chunk E0) = Some (0%Z, 0%Z) /\
  in_window E0 0 0 "0_0" /\
  JS.get (chunks (one_chunk E0)) "0_0" = Some 13%nat /\
  JS.get (chunks (updateChunks E0 (one_chunk E0))) "0_0" = Some 13%nat /\
  forall l, (l < next (one_chunk E0))%nat ->
            heap (updateChunks E0 (one_chunk E0)) !! l = heap (one_chunk E0) !! l.
Proof.
  assert (H1 : playerChunk E0 (one_chunk E0) = Some (0%Z, 0%Z)) by (vm_compute; reflexivity).
  assert (H2 : in_window E0 0 0 "0_0").
  { exists 0%Z, 0%Z. split; [reflexivity|]. simpl. lia. }
  assert (H3 : JS.get (chunks (one_chunk E0)) "0_0" = Some 13%nat).
  { unfold one_chunk, createChunk. rewrite createChunkWith_chunks. reflexivity. }
  split; [exact H1|]. split; [exact H2|]. split; [exact H3|].
  exact (updateChunks_retains E0 (one_chunk E0) 0 0 "0_0" 13 H1 H2 H3).
Defined.

Lemma updateChunks_generates_witness :
  (0 < chunkSize E0)%Q /\
  (forall n, (0 <= Math_random E0 n)%Q /\ (Math_random E0 n < 1)%Q) /\
  wf init_scene /\
  playerChunk E0 init_scene = Some (0%Z, 0%Z) /\
  (Z.abs (2 - 0) <= loadedRadius E0)%Z /\
  (Z.abs (-1 - 0) <= loadedRadius E0)%Z /\
  JS.get (chunks init_scene) (chunkKey 2 (-1)) = None /\
  let w' := updateChunks E0 init_scene in
  exists g,
    JS.get (chunks w') (chunkKey 2 (-1)) = Some g /\
    (next init_scene <= g)%nat /\
    generated E0 w' (chunkKey 2 (-1)) 53 2 (-1).
Proof.
  assert (H1 : (0 < chunkSize E0)%Q) by reflexivity.
  assert (H2 : forall n, (0 <= Math_random E0 n)%Q /\ (Math_random E0 n < 1)%Q)
    by (intros n; split; [discriminate|reflexivity]).
  assert (H4 : playerChunk E0 init_scene = Some (0%Z, 0%Z)) by reflexivity.
  assert (H5 : (Z.abs (2 - 0) <= loadedRadius E0)%Z) by (simpl; lia).
  assert (H6 : (Z.abs (-1 - 0) <= loadedRadius E0)%Z) by (simpl; lia).
  assert (H7 : JS.get (chunks init_scene) (chunkKey 2 (-1)) = None) by reflexivity.
  split; [exact H1|]. split; [exact H2|]. split; [exact wf_init_scene|].
  split; [exact H4|]. split; [exact H5|]. split; [exact H6|]. split; [exact H7|].
  exact (updateChunks_generates E0 init_scene 0 0 2 (-1) H1 H2 wf_init_scene H4 H5 H6 H7).
Defined.

(** ** Positions of their own *)

Section Ownership.

Lemma owns_position_evolves h n h' n' l :
  heap_below h n -> objects_below h n -> heap_evolves h n h' n' ->
  owns_position h l -> owns_position h' l.
Proof.
  intros Hb Hob He (o & p & Ho & Hp & Huniq).
  destruct (He Hb) as (Hle & Hold & Hnew).
  destruct (Hold _ _ Ho) as (c' & Hc' & Hsim & _).
  destruct c' as [| | | |o1]; try done.
  destruct Hsim as (_ & _ & Hpos & _).
  destruct (Hold _ _ Hp) as (cp & Hcp & Hsimp & _).
  destruct cp as [p1| | | |]; try done.
  exists o1, p1. rewrite <- Hpos. split; [done|]. split; [done|].
  intros l' o' Hl' Heq.
  destruct (Hnew _ _ Hl') as [[c Hc]|[Hrange [Hnc _]]].
  - destruct (Hold _ _ Hc) as (c2 & Hc2 & Hsim2 & _).
    rewrite Hl' in Hc2. injection Hc2 as <-.
    apply similar_object in Hsim2 as (o2 & -> & Hpos2 & _).
    apply (Huniq l' o2 Hc). congruence.
  - destruct (Hob _ _ Ho) as [Hlt _]. lia.
Qed.

Lemma owns_allocated h n l : heap_below h n -> owns_position h l -> (l < n)%nat.
Proof. intros Hb (o & p & Ho & _). by eapply Hb. Qed.

Lemma separate_evolves w w' :
  wf w -> evolves w w' ->
  player_mesh w' = player_mesh w -> vehicles w' = vehicles w ->
  dirLight w' = dirLight w ->
  separate w -> separate w'.
Proof.
  intros Hw He Hm Hv Hd [(m & Hpm & Hom & Hmv & Hdm) Hveh Hnd].
  pose proof (wf_heap_below w Hw) as Hb.
  pose proof (wf_objects_below w Hw) as Hob.
  split.
  - exists m. rewrite Hm, Hv, Hd. split; [done|]. split; [|done].
    by eapply owns_position_evolves.
  - rewrite Hv. eapply Forall_impl; [exact Hveh|].
    intros v Hv'. by eapply owns_position_evolves.
  - by rewrite Hv.
Qed.

(** The mesh that [plane] or [boat] builds has a position of its own. *)
Lemma plane_owns w :
  wf w -> owns_position (heap (plane w).2) (plane w).1 /\ (plane w).1 = (4 + next w)%nat.
Proof.
  intros Hw. split; [|reflexivity].
  pose proof (wf_heap_below w Hw) as Hb.
  pose proof (wf_objects_below w Hw) as Hob.
  unfold plane, owns_position. cbn. resolve_modify. cbn [position rotation].
  eexists _, _. split; [plain_lookup; reflexivity|].
  split; [plain_lookup; reflexivity|].
  intros l' o'.
  destruct (decide (l' < next w)%nat) as [Hlt|Hge].
  { plain_lookup. intros Hl' Hpos. destruct (Hob _ _ Hl'). lia. }
  destruct (decide (10 + next w <= l')%nat) as [Hhi|Hlo].
  { plain_lookup. intros Hl'. apply Hb in Hl'. lia. }
  assert (Hcases : l' = next w \/ l' = (1 + next w)%nat \/ l' = (2 + next w)%nat \/
                   l' = (3 + next w)%nat \/ l' = (4 + next w)%nat \/
                   l' = (5 + next w)%nat \/ l' = (6 + next w)%nat \/
                   l' = (7 + next w)%nat \/ l' = (8 + next w)%nat \/
                   l' = (9 + next w)%nat) by lia.
  destruct Hcases as [->|[->|[->|[->|[->|[->|[->|[->|[->| ->]]]]]]]]];
    plain_lookup; intros Hl' Hpos; try discriminate;
    injection Hl' as <-; simpl in Hpos; lia.
Qed.

Lemma boat_owns w :
  wf w -> owns_position (heap (boat w).2) (boat w).1 /\ (boat w).1 = (4 + next w)%nat.
Proof.
  intros Hw. split; [|reflexivity].
  pose proof (wf_heap_below w Hw) as Hb.
  pose proof (wf_objects_below w Hw) as Hob.
  unfold boat, owns_position. cbn. resolve_modify. cbn [position rotation].
  eexists _, _. split; [plain_lookup; reflexivity|].
  split; [plain_lookup; reflexivity|].
  intros l' o'.
  destruct (decide (l' < next w)%nat) as [Hlt|Hge].
  { plain_lookup. intros Hl' Hpos. destruct (Hob _ _ Hl'). lia. }
  destruct (decide (5 + next w <= l')%nat) as [Hhi|Hlo].
  { plain_lookup. intros Hl'. apply Hb in Hl'. lia. }
  assert (Hcases : l' = next w \/ l' = (1 + next w)%nat \/ l' = (2 + next w)%nat \/
                   l' = (3 + next w)%nat \/ l' = (4 + next w)%nat) by lia.
  destruct Hcases as [->|[->|[->|[->| ->]]]];
    plain_lookup; intros Hl' Hpos; try discriminate;
    injection Hl' as <-; simpl in Hpos; lia.
Qed.

End Ownership.

(** ** The player's mesh, the light and the vehicles are apart *)

Section Separation.

Lemma wf_same w w' :
  wf w -> heap w' = heap w -> next w' = next w ->
  player_mesh w' = player_mesh w -> chunks w' = chunks w ->
  playerStructures w' = playerStructures w -> wf w'.
Proof.
  intros Hw Hh Hn Hm Hc Hs.
  eapply wf_evolves; [exact Hw|by apply evolves_same|done|rewrite Hc; apply Hw..|].
  intros e He. left. by rewrite <- Hs.
Qed.

Lemma separate_register_vehicle E mesh w :
  wf w -> separate w -> owns_position (heap w) mesh ->
  mesh ∉ vehicles w -> player_mesh w <> Some mesh ->
  separate (register_vehicle E mesh w).
Proof.
  intros Hw [(m & Hpm & Hom & Hmv & Hdm) Hveh Hnd] Hown Hfresh Hne.
  unfold register_vehicle.
  set (w1 := set_vehicles (fun v => v ++ [mesh]) (scene_add mesh w)).
  assert (Hw1 : wf w1) by (by apply (wf_same w w1)).
  assert (Hs1 : separate w1).
  { split.
    - exists m. split; [done|]. split; [done|]. split; [|done].
      cbn. intros [?|Hin%list_elem_of_singleton]%elem_of_app; [done|].
      apply Hne. by rewrite Hpm, Hin.
    - cbn. apply Forall_app. split; [done|]. by apply Forall_singleton.
    - cbn. apply NoDup_app. split; [done|]. split; [|apply NoDup_singleton].
      intros x Hx ->%list_elem_of_singleton. done. }
  clearbody w1.
  destruct (saveStructure_others E mesh w1) as (_ & _ & _ & Hv & _ & Hm & Hd).
  apply (separate_evolves w1); [exact Hw1|apply saveStructure_evolves|done..].
Qed.

Lemma separate_buildVehicle E type w :
  wf w -> separate w -> separate (buildVehicle E type w).
Proof.
  intros Hw Hs.
  assert (Hgen : forall (mw : loc * World),
             evolves w mw.2 -> variables mw.2 = variables w ->
             owns_position (heap mw.2) mw.1 -> mw.1 = (4 + next w)%nat ->
             separate (register_vehicle E mw.1 mw.2)).
  { intros [mesh w1] He Hv Hown Hmesh. simpl in *.
    destruct (variables_fields _ _ Hv) as (_ & _ & _ & _ & Hveh & _ & Hpm & Hd).
    assert (Hw1 : wf w1) by (by apply (wf_variables w w1)).
    assert (Hs1 : separate w1) by (by apply (separate_evolves w w1)).
    pose proof (wf_heap_below w Hw) as Hb.
    apply separate_register_vehicle; [done..| |].
    - rewrite Hveh. intros Hin.
      destruct Hs as [_ Hall _]. rewrite Forall_forall in Hall.
      pose proof (owns_allocated _ _ _ Hb (Hall _ Hin)). lia.
    - rewrite Hpm. destruct Hs as [(m & -> & Hom & _) _ _].
      pose proof (owns_allocated _ _ _ Hb Hom). intros [= ->]. lia. }
  destruct (buildVehicle_cases E type w) as [-> | [-> | ->]]; [| |done].
  - apply Hgen; [apply plane_evolves|apply plane_variables|apply plane_owns; done..].
  - apply Hgen; [apply boat_evolves|apply boat_variables|apply boat_owns; done..].
Qed.

Lemma separate_keys f w : separate w -> separate (set_keys f w).
Proof. intros [? ? ?]. by split. Qed.

Lemma wf_keys f w : wf w -> wf (set_keys f w).
Proof. intros Hw. by apply (wf_same w). Qed.

Lemma separate_handleKeys E event w :
  wf w -> separate w -> separate (handleKeys E event w).
Proof.
  intros Hw Hs. unfold handleKeys. cbv zeta.
  pose proof (wf_keys (<[JS.toLowerCase (key event) :=
                          String.eqb (type event) "keydown"]>) w Hw) as Hw1.
  pose proof (separate_keys (<[JS.toLowerCase (key event) :=
                          String.eqb (type event) "keydown"]>) w Hs) as Hs1.
  destruct (String.eqb (key event) "p"), (String.eqb (key event) "b");
    repeat first [ apply separate_buildVehicle | apply wf_buildVehicle ]; done.
Qed.

Lemma animate_fields E delta w :
  chunks (animate E delta w) = chunks (updateChunks E (updatePlayer delta w)) /\
  vehicles (animate E delta w) = vehicles w /\
  player_mesh (animate E delta w) = player_mesh w /\
  dirLight (animate E delta w) = dirLight w /\
  keys (animate E delta w) = keys w /\
  scene (animate E delta w) = scene (updateChunks E (updatePlayer delta w)).
Proof.
  unfold animate. cbv zeta.
  set (w1 := updatePlayer delta w).
  set (w2 := updateChunks E w1).
  set (w3 := animateVehicles E delta w2).
  destruct (variables_fields _ _ (proj1 (animateImmersion_variables E delta w3)))
    as (Hs4 & Hc4 & _ & Hk4 & Hv4 & _ & Hm4 & Hd4).
  destruct (variables_fields _ _ (proj1 (animateVehicles_variables E delta w2)))
    as (Hs3 & Hc3 & _ & Hk3 & Hv3 & _ & Hm3 & Hd3).
  destruct (outside_fields _ _ (updateChunks_outside E w1))
    as (_ & Hk2 & Hv2 & _ & Hm2 & Hd2 & _).
  destruct (variables_fields _ _ (proj1 (updatePlayer_variables delta w)))
    as (_ & _ & _ & Hk1 & Hv1 & _ & Hm1 & Hd1).
  fold w1 in Hk1, Hv1, Hm1, Hd1. fold w2 in Hk2, Hv2, Hm2, Hd2.
  fold w3 in Hs3, Hc3, Hk3, Hv3, Hm3, Hd3.
  clearbody w3 w2 w1.
  rewrite Hs4, Hc4, Hk4, Hv4, Hm4, Hd4, Hs3, Hc3, Hk3, Hv3, Hm3, Hd3,
    Hk2, Hv2, Hm2, Hd2, Hk1, Hv1, Hm1, Hd1. done.
Qed.

Lemma separate_animate E delta w :
  wf w -> separate w -> separate (animate E delta w).
Proof.
  intros Hw Hs. destruct (animate_fields E delta w) as (_ & Hv & Hm & Hd & _).
  apply (separate_evolves w); [exact Hw|apply animate_evolves|done..].
Qed.

Lemma separate_step E w w' : wf w -> separate w -> step E w w' -> separate w'.
Proof.
  intros Hw Hs Hstep. destruct Hstep.
  - by apply separate_handleKeys.
  - by apply separate_keys.
  - by apply separate_animate.
Qed.

Lemma separate_init_scene : separate init_scene.
Proof.
  split.
  - exists 10%nat. split; [reflexivity|]. split; [|split; [apply not_elem_of_nil|discriminate]].
    pose proof (wf_heap_below _ wf_init_scene) as Hb.
    unfold init_scene, owns_position. cbn. resolve_modify. cbn [position rotation].
    eexists _, _. split; [plain_lookup; reflexivity|].
    split; [plain_lookup; reflexivity|].
    intros l' o' Hl' Hpos.
    assert (Hlt : (l' < 11)%nat).
    { eapply Hb. unfold init_scene. cbn. resolve_modify. exact Hl'. }
    revert Hl' Hpos.
    assert (Hcases : (l' = 0 \/ l' = 1 \/ l' = 2 \/ l' = 3 \/ l' = 4 \/ l' = 5 \/
                      l' = 6 \/ l' = 7 \/ l' = 8 \/ l' = 9 \/ l' = 10)%nat) by lia.
    destruct Hcases as [->|[->|[->|[->|[->|[->|[->|[->|[->|[->| ->]]]]]]]]]];
      plain_lookup; intros Hl' Hpos; try discriminate; try reflexivity;
      injection Hl' as <-; simpl in Hpos; lia.
  - constructor.
  - constructor.
Qed.

Lemma separate_init E : separate (init E).
Proof.
  destruct (outside_fields _ _ (updateChunks_outside E init_scene))
    as (_ & _ & Hv & _ & Hm & Hd & _).
  eapply separate_evolves;
    [apply wf_init_scene|apply updateChunks_evolves|done..|apply separate_init_scene].
Qed.

Lemma reachable_separate E w : reachable E w -> separate w.
Proof.
  induction 1 as [|w w' Hr IH Hstep]; [apply separate_init|].
  eapply separate_step; [|exact IH|exact Hstep]. by eapply reachable_wf.
Qed.

End Separation.

(** ** Recording and building only allocate *)

Section Allocation.

Lemma alloc_grows c w : grows w (alloc c w).2.
Proof.
  split; [cbn; lia|]. intros l Hl. cbn. by rewrite lookup_insert_ne by lia.
Qed.

Lemma clone_grows l w : grows w (clone l w).2.
Proof.
  unfold clone. destruct (heap w !! l) as [[| | | |]|];
    first [apply grows_refl | apply alloc_grows].
Qed.

Lemma saveStructure_grows E mesh w : grows w (saveStructure E mesh w).
Proof.
  destruct (object_at w mesh) as [o|] eqn:Ho.
  2: { unfold saveStructure. cbn.
       change (object_at (set_random_calls S (set_now_calls S w)) mesh)
         with (object_at w mesh).
       rewrite Ho. by apply grows_same. }
  destruct (geometry o) as [g|] eqn:Hg, (material o) as [m|] eqn:Hm.
  1: { rewrite (saveStructure_unfold E mesh w o g m) by done. cbv zeta.
       set (w0 := set_random_calls S (set_now_calls S w)).
       eapply (grows_trans w w0); [by apply grows_same|].
       eapply grows_trans; [apply (clone_grows g)|].
       eapply grows_trans; [apply (clone_grows m)|].
       eapply grows_trans; [apply (clone_grows (position o))|].
       eapply grows_trans; [apply (clone_grows (rotation o))|].
       by apply grows_same. }
  all: unfold saveStructure; cbn;
    change (object_at (set_random_calls S (set_now_calls S w)) mesh)
      with (object_at w mesh);
    rewrite Ho, Hg, ?Hm; by apply grows_same.
Qed.

Lemma register_vehicle_grows E mesh w : grows w (register_vehicle E mesh w).
Proof.
  unfold register_vehicle.
  eapply grows_trans; [|apply saveStructure_grows]. by apply grows_same.
Qed.

Lemma plane_grows w : grows w (plane w).2.
Proof.
  split; [cbn; lia|]. intros l Hl. unfold plane. cbn. resolve_modify.
  cbn [position rotation]. plain_lookup. reflexivity.
Qed.

Lemma boat_grows w : grows w (boat w).2.
Proof.
  split; [cbn; lia|]. intros l Hl. unfold boat. cbn. resolve_modify.
  cbn [position rotation]. plain_lookup. reflexivity.
Qed.

Lemma buildVehicle_grows E type w : grows w (buildVehicle E type w).
Proof.
  destruct (buildVehicle_cases E type w) as [-> | [-> | ->]]; [| |apply grows_refl].
  - eapply grows_trans; [apply plane_grows|apply register_vehicle_grows].
  - eapply grows_trans; [apply boat_grows|apply register_vehicle_grows].
Qed.

Lemma handleKeys_grows E event w : grows w (handleKeys E event w).
Proof.
  unfold handleKeys. cbv zeta.
  destruct (String.eqb (key event) "p"), (String.eqb (key event) "b");
    repeat (eapply grows_trans; [|apply buildVehicle_grows]); by apply grows_same.
Qed.

End Allocation.

(** ** What moves the player's mesh *)

Section PlayerFrame.

Lemma modify_position_object o f w x :
  object_at (modify_position o f w) x = object_at w x.
Proof.
  unfold object_at. cbn. rewrite lookup_modify_position.
  destruct (heap w !! o) as [[| | | |obj]|]; try done.
  case_decide; [|done]. by destruct (heap w !! x) as [[| | | |]|].
Qed.

Lemma modify_position_frame o f w l :
  (forall obj, object_at w o = Some obj -> l <> position obj) ->
  heap (modify_position o f w) !! l = heap w !! l.
Proof.
  intros Hl. cbn. rewrite lookup_modify_position.
  unfold object_at in Hl.
  destruct (heap w !! o) as [[| | | |obj]|]; try done.
  rewrite decide_False; [done|]. intros Heq. by apply (Hl obj).
Qed.

Lemma hover_object E delta v w x :
  object_at (hover E delta v w) x = object_at w x.
Proof. unfold hover. cbn -[modify_position]. by rewrite modify_position_object. Qed.

Lemma hover_frame E delta v w l :
  (forall o, object_at w v = Some o -> l <> position o) ->
  heap (hover E delta v w) !! l = heap w !! l.
Proof.
  intros Hl. unfold hover. cbn -[modify_position].
  by rewrite modify_position_frame.
Qed.

Lemma animateVehicles_object E delta w x :
  object_at (animateVehicles E delta w) x = object_at w x.
Proof.
  unfold animateVehicles. apply (foldl_field (fun w => object_at w x)).
  intros w1 v. apply hover_object.
Qed.

Lemma hovers_frame E delta (vs : list loc) w l :
  (forall v o, v ∈ vs -> object_at w v = Some o -> l <> position o) ->
  heap (foldl (fun w v => hover E delta v w) w vs) !! l = heap w !! l.
Proof.
  revert w. induction vs as [|v vs IH]; intros w Hl; [done|]. simpl.
  rewrite IH.
  - apply hover_frame. intros o. apply Hl. by left.
  - intros v' o Hv'. rewrite hover_object. apply Hl. by right.
Qed.

Lemma animateVehicles_frame E delta w l :
  (forall v o, v ∈ vehicles w -> object_at w v = Some o -> l <> position o) ->
  heap (animateVehicles E delta w) !! l = heap w !! l.
Proof. apply hovers_frame. Qed.

Lemma animateImmersion_object E delta w x :
  object_at (animateImmersion E delta w) x = object_at w x.
Proof.
  unfold animateImmersion. cbn -[modify_position].
  destruct (dirLight w) as [d|]; [|done].
  by rewrite !modify_position_object.
Qed.

Lemma animateImmersion_frame E delta w l :
  (forall d o, dirLight w = Some d -> object_at w d = Some o -> l <> position o) ->
  heap (animateImmersion E delta w) !! l = heap w !! l.
Proof.
  intros Hl. unfold animateImmersion. cbn -[modify_position].
  destruct (dirLight w) as [d|] eqn:Hd; [|done].
  rewrite modify_position_frame.
  - rewrite modify_position_frame; [done|]. intros o Ho. by apply (Hl d).
  - intros o. rewrite modify_position_object. intros Ho. by apply (Hl d).
Qed.

Lemma player_position_ext w w' :
  player_mesh w' = player_mesh w ->
  (forall x, object_at w' x = object_at w x) ->
  (forall m o, player_mesh w = Some m -> object_at w m = Some o ->
     heap w' !! position o = heap w !! position o) ->
  player_position w' = player_position w.
Proof.
  intros Hm Hobj Hpos. unfold player_position. rewrite Hm.
  destruct (player_mesh w) as [m|] eqn:Hpm; [|done]. simpl.
  rewrite Hobj. destruct (object_at w m) as [o|] eqn:Ho; [|done]. simpl.
  unfold vector_at. by rewrite (Hpos m o).
Qed.

Lemma player_position_grows w w' :
  wf w -> grows w w' -> player_mesh w' = player_mesh w ->
  player_position w' = player_position w.
Proof.
  intros Hw [_ Hold] Hpm.
  destruct (wf_player _ Hw) as (m & o & v & Hm & Ho & Hv).
  pose proof (wf_heap_below _ Hw _ _ Ho). pose proof (wf_heap_below _ Hw _ _ Hv).
  unfold player_position, object_at, vector_at.
  rewrite Hpm, Hm. simpl. rewrite (Hold m), Ho by done. simpl.
  by rewrite (Hold (position o)) by done.
Qed.

(** In a frame, only [updatePlayer] moves the player's mesh. *)
Lemma animate_player_position E delta w :
  wf w -> separate w ->
  player_position (animate E delta w) = player_position (updatePlayer delta w).
Proof.
  intros Hw Hs.
  set (w1 := updatePlayer delta w).
  assert (Hw1 : wf w1).
  { apply (wf_variables w); [done|apply updatePlayer_evolves|apply updatePlayer_variables]. }
  assert (Hs1 : separate w1).
  { destruct (variables_fields _ _ (proj1 (updatePlayer_variables delta w)))
      as (_ & _ & _ & _ & Hv & _ & Hm & Hd).
    apply (separate_evolves w); [done|apply updatePlayer_evolves|done..]. }
  set (w2 := updateChunks E w1).
  assert (Hw2 : wf w2) by by apply wf_updateChunks.
  assert (Hs2 : separate w2).
  { destruct (outside_fields _ _ (updateChunks_outside E w1))
      as (_ & _ & Hv & _ & Hm & Hd & _).
    apply (separate_evolves w1); [done|apply updateChunks_evolves|done..]. }
  assert (H12 : player_position w2 = player_position w1).
  { apply (player_position_grows w1 w2); [done|apply updateChunks_grows|].
    by destruct (outside_fields _ _ (updateChunks_outside E w1))
      as (_ & _ & _ & _ & ? & _). }
  rewrite <- H12. unfold animate. cbv zeta. fold w1. fold w2.
  clearbody w2. clear H12 Hs1 Hw1. clearbody w1. clear w1.
  destruct Hs2 as [(m & Hpm & (om & pm & Hom & Hpos & Huniq) & Hmv & Hdm) _ _].
  set (w3 := animateVehicles E delta w2).
  destruct (variables_fields _ _ (proj1 (animateVehicles_variables E delta w2)))
    as (_ & _ & _ & _ & Hv3 & _ & Hm3 & Hd3).
  fold w3 in Hv3, Hm3, Hd3.
  assert (H23 : player_position w3 = player_position w2).
  { apply player_position_ext; [done|apply animateVehicles_object|].
    intros m' o' Hm' Ho'. apply animateVehicles_frame.
    intros v o Hv Ho Heq.
    rewrite Hpm in Hm'. injection Hm' as <-.
    unfold object_at in Ho', Ho. rewrite Hom in Ho'. injection Ho' as <-.
    destruct (heap w2 !! v) as [[| | | |ov]|] eqn:Hlv; try done.
    injection Ho as <-. apply Hmv. by rewrite <- (Huniq v ov Hlv). }
  rewrite <- H23.
  apply player_position_ext.
  - by destruct (variables_fields _ _ (proj1 (animateImmersion_variables E delta w3)))
      as (_ & _ & _ & _ & _ & _ & ? & _).
  - apply animateImmersion_object.
  - intros m' o' Hm' Ho'. apply animateImmersion_frame.
    intros d o Hd Ho Heq.
    rewrite Hm3, Hpm in Hm'. injection Hm' as <-.
    unfold w3 in Ho', Ho. rewrite animateVehicles_object in Ho', Ho.
    unfold object_at in Ho', Ho. rewrite Hom in Ho'. injection Ho' as <-.
    destruct (heap w2 !! d) as [[| | | |od]|] eqn:Hld; try done.
    injection Ho as <-. apply Hdm. rewrite <- Hd3, Hd.
    by rewrite (Huniq d od Hld).
Qed.

End PlayerFrame.

(** ** The registry in the states the program can be in *)

Section RegistryInvariant.
Local Open Scope Z_scope.

Lemma buildVehicle_fields E type w :
  chunks (buildVehicle E type w) = chunks w /\
  keys (buildVehicle E type w) = keys w /\
  player_mesh (buildVehicle E type w) = player_mesh w /\
  dirLight (buildVehicle E type w) = dirLight w.
Proof.
  assert (Hreg : forall mesh w1, variables w1 = variables w ->
            chunks (register_vehicle E mesh w1) = chunks w /\
            keys (register_vehicle E mesh w1) = keys w /\
            player_mesh (register_vehicle E mesh w1) = player_mesh w /\
            dirLight (register_vehicle E mesh w1) = dirLight w).
  { intros mesh w1 Hv. unfold register_vehicle.
    destruct (saveStructure_others E mesh
                (set_vehicles (fun v => v ++ [mesh]) (scene_add mesh w1)))
      as (_ & -> & -> & _ & _ & -> & ->).
    destruct (variables_fields _ _ Hv) as (_ & ? & _ & ? & _ & _ & ? & ?). done. }
  destruct (buildVehicle_cases E type w) as [-> | [-> | ->]]; [| |done].
  - apply Hreg, plane_variables.
  - apply Hreg, boat_variables.
Qed.

Lemma handleKeys_fields E event w :
  chunks (handleKeys E event w) = chunks w /\
  player_mesh (handleKeys E event w) = player_mesh w /\
  dirLight (handleKeys E event w) = dirLight w /\
  keys (handleKeys E event w)
  = <[JS.toLowerCase (key event) := String.eqb (type event) "keydown"]> (keys w).
Proof.
  unfold handleKeys. cbv zeta.
  set (w1 := set_keys _ w).
  assert (H1 : chunks w1 = chunks w /\ player_mesh w1 = player_mesh w /\
               dirLight w1 = dirLight w /\
               keys w1 = <[JS.toLowerCase (key event) :=
                             String.eqb (type event) "keydown"]> (keys w)) by done.
  clearbody w1.
  assert (Hb : forall ty w2,
             (chunks w2 = chunks w /\ player_mesh w2 = player_mesh w /\
              dirLight w2 = dirLight w /\
              keys w2 = <[JS.toLowerCase (key event) :=
                            String.eqb (type event) "keydown"]> (keys w)) ->
             chunks (buildVehicle E ty w2) = chunks w /\
             player_mesh (buildVehicle E ty w2) = player_mesh w /\
             dirLight (buildVehicle E ty w2) = dirLight w /\
             keys (buildVehicle E ty w2)
             = <[JS.toLowerCase (key event) :=
                   String.eqb (type event) "keydown"]> (keys w)).
  { intros ty w2 (Hc & Hm & Hd & Hk).
    destruct (buildVehicle_fields E ty w2) as (-> & -> & -> & ->). done. }
  destruct (String.eqb (key event) "p"), (String.eqb (key event) "b");
    repeat apply Hb; exact H1.
Qed.

Lemma windowed_updateChunks E w : wf w -> windowed E (updateChunks E w).
Proof.
  intros Hw cx cz Hpc id.
  rewrite (playerChunk_grows E w) in Hpc;
    [|done|apply updateChunks_grows
     |by destruct (outside_fields _ _ (updateChunks_outside E w)) as (_&_&_&_&?&_)].
  apply updateChunks_keys; [apply Hw|done].
Qed.

Lemma windowed_same E w w' :
  wf w -> grows w w' -> player_mesh w' = player_mesh w -> chunks w' = chunks w ->
  windowed E w -> windowed E w'.
Proof.
  intros Hw Hg Hm Hc Hwin cx cz Hpc id.
  rewrite (playerChunk_grows E w w') in Hpc by done. rewrite Hc. by apply Hwin.
Qed.

Lemma windowed_animate E delta w :
  wf w -> separate w -> windowed E (animate E delta w).
Proof.
  intros Hw Hs cx cz Hpc id.
  unfold playerChunk in Hpc. rewrite animate_player_position in Hpc by done.
  destruct (animate_fields E delta w) as (-> & _).
  set (w1 := updatePlayer delta w) in *.
  assert (Hw1 : wf w1).
  { apply (wf_variables w); [done|apply updatePlayer_evolves|apply updatePlayer_variables]. }
  apply updateChunks_keys; [apply Hw1|done].
Qed.

Lemma reachable_windowed E w : reachable E w -> windowed E w.
Proof.
  induction 1 as [|w w' Hr IH Hstep].
  - apply windowed_updateChunks, wf_init_scene.
  - pose proof (reachable_wf _ _ Hr) as Hw.
    pose proof (reachable_separate _ _ Hr) as Hs.
    destruct Hstep.
    + destruct (handleKeys_fields E (mkEvent k "keydown") w) as (Hc & Hm & _).
      apply (windowed_same E w); [done|apply handleKeys_grows|done..].
    + apply (windowed_same E w); [done|by apply grows_same|done..].
    + by apply windowed_animate.
Qed.

(** The window has [(2 * loadedRadius + 1)^2] keys. *)
Lemma length_bind_const {A B} (f : A -> list B) (l : list A) k :
  (forall x, length (f x) = k) -> length (l ≫= f) = (length l * k)%nat.
Proof.
  intros Hf. induction l as [|x l IH]; [done|].
  rewrite bind_cons, length_app, Hf, IH. simpl. lia.
Qed.

Lemma window_count E cx cz (ks : list string) :
  NoDup ks -> (forall id, id ∈ ks <-> in_window E cx cz id) ->
  length ks = (Z.to_nat (2 * loadedRadius E + 1) * Z.to_nat (2 * loadedRadius E + 1))%nat.
Proof.
  intros Hnd Hks.
  set (row := fun dx => (fun dz => chunkKey (cx + dx) (cz + dz)) <$> offsets E).
  assert (Hperm : ks ≡ₚ offsets E ≫= row).
  { apply NoDup_Permutation; [done| |].
    - apply NoDup_bind.
      + intros dx1 dx2 id _ _ (dz1 & -> & _)%list_elem_of_fmap
          (dz2 & Heq & _)%list_elem_of_fmap.
        apply chunkKey_inj in Heq. lia.
      + intros dx _. apply NoDup_fmap_2_strong; [|apply NoDup_seqZ].
        intros dz1 dz2 _ _ Heq. apply chunkKey_inj in Heq. lia.
      + apply NoDup_seqZ.
    - intros id. rewrite Hks, list_elem_of_bind. split.
      + intros (x & z & -> & Hx & Hz). exists (x - cx). split.
        * apply list_elem_of_fmap. exists (z - cz). split; [f_equal; lia|].
          by apply elem_of_offsets.
        * by apply elem_of_offsets.
      + intros (dx & (dz & -> & Hdz)%list_elem_of_fmap & Hdx).
        apply elem_of_offsets in Hdx, Hdz.
        exists (cx + dx), (cz + dz). split; [done|]. split; [|].
        * replace (cx + dx - cx) with dx by lia. done.
        * replace (cz + dz - cz) with dz by lia. done. }
  rewrite Hperm. rewrite (length_bind_const row _ (Z.to_nat (2 * loadedRadius E + 1))).
  - unfold offsets. by rewrite length_seqZ.
  - intros dx. unfold row, offsets. by rewrite length_fmap, length_seqZ.
Qed.

(** X6: in every state the program can be in - after [init], between
    events and after every frame - the chunk registry holds exactly the
    chunks within [loadedRadius] of the chunk the player's mesh stands in,
    each once: [(2 * loadedRadius + 1)^2] of them (25 with main.js's
    radius).  Building vehicles and animating them or the light never moves
    the player's mesh, and a frame moves it before it updates the chunks. *)
Theorem reachable_registry_window (E : Env) (w : World) :
  reachable E w ->
  exists cx cz,
    playerChunk E w = Some (cx, cz) /\
    (forall id, id ∈ JS.keys (chunks w) <-> in_window E cx cz id) /\
    NoDup (JS.keys (chunks w)) /\
    length (chunks w)
    = (Z.to_nat (2 * loadedRadius E + 1) * Z.to_nat (2 * loadedRadius E + 1))%nat.
Proof.
  intros Hr. destruct (reachable_playerChunk E w Hr) as (cx & cz & Hpc).
  pose proof (reachable_windowed E w Hr cx cz Hpc) as Hwin.
  pose proof (wf_keys_NoDup w (reachable_wf E w Hr)) as Hnd.
  exists cx, cz. split; [done|]. split; [done|]. split; [done|].
  rewrite <- (window_count E cx cz (JS.keys (chunks w))) by done.
  unfold JS.keys. by rewrite length_fmap.
Qed.

End RegistryInvariant.

(** At sample inputs. *)

Lemma reachable_registry_window_witness :
  reachable E0 (moved E0) /\
  exists cx cz,
    playerChunk E0 (moved E0) = Some (cx, cz) /\
    (forall id, id ∈ JS.keys (chunks (moved E0)) <-> in_window E0 cx cz id) /\
    NoDup (JS.keys (chunks (moved E0))) /\
    length (chunks (moved E0))
    = (Z.to_nat (2 * loadedRadius E0 + 1) * Z.to_nat (2 * loadedRadius E0 + 1))%nat.
Proof.
  assert (H : reachable E0 (moved E0)).
  { unfold moved. eapply reachable_step; [|apply step_frame].
    eapply reachable_step; [apply reachable_init|apply step_keydown]. }
  split; [exact H|]. exact (reachable_registry_window E0 (moved E0) H).
Defined.

(** ** Frames that stay in a chunk, and [init] *)

Section Settled.
Local Open Scope Z_scope.

Lemma updateChunks_settled E w cx cz :
  playerChunk E w = Some (cx, cz) ->
  (forall id, id ∈ JS.keys (chunks w) <-> in_window E cx cz id) ->
  updateChunks E w = w.
Proof.
  intros Hpc Hkeys. unfold updateChunks. rewrite Hpc.
  assert (Hload : loadNear E cx cz w = w).
  { unfold loadNear. apply foldl_id. intros dx Hdx%elem_of_offsets.
    apply foldl_id. intros dz Hdz%elem_of_offsets. unfold loadOne.
    rewrite (proj2 (has_keys _ _)); [done|].
    apply Hkeys. exists (cx + dx), (cz + dz). split; [done|]. split.
    - by replace (cx + dx - cx) with dx by lia.
    - by replace (cz + dz - cz) with dz by lia. }
  rewrite Hload. unfold unloadFar. apply foldl_id.
  intros [id g] Hin. unfold unloadIfFar. rewrite in_window_far; [done|].
  apply Hkeys, list_elem_of_fmap. by exists (id, g).
Qed.

(** X7: in every state the program can be in, a further call of
    [updateChunks] changes nothing: it creates no chunk and unloads none. *)
Theorem reachable_updateChunks_settled (E : Env) (w : World) :
  reachable E w -> updateChunks E w = w.
Proof.
  intros Hr. destruct (reachable_playerChunk E w Hr) as (cx & cz & Hpc).
  apply (updateChunks_settled E w cx cz Hpc).
  by apply reachable_windowed.
Qed.

Lemma updatePlayer_idle delta w :
  pressed w "w" = false -> pressed w "s" = false ->
  pressed w "a" = false -> pressed w "d" = false ->
  updatePlayer delta w = w.
Proof.
  intros Hw Hs Ha Hd. unfold updatePlayer, on_key. cbv zeta.
  by rewrite Hw, Hs, Ha, Hd.
Qed.

(** X8: a frame in which the player's mesh stays in its chunk allocates
    nothing and draws no random number: the registry, the scene and the next
    free location are what they were.  Chunks are generated and unloaded
    only in a frame in which the player crosses a chunk border. *)
Theorem frame_within_chunk (E : Env) (delta : Q) (w : World) :
  reachable E w ->
  playerChunk E (updatePlayer delta w) = playerChunk E w ->
  let w' := animate E delta w in
  chunks w' = chunks w /\ scene w' = scene w /\
  next w' = next w /\ random_calls w' = random_calls w.
Proof.
  intros Hr Hsame w'.
  destruct (reachable_playerChunk E w Hr) as (cx & cz & Hpc).
  pose proof (reachable_windowed E w Hr cx cz Hpc) as Hkeys.
  destruct (updatePlayer_variables delta w) as (Hv1 & Hn1 & Hr1 & _).
  destruct (variables_fields _ _ Hv1) as (Hs1 & Hc1 & _).
  assert (Hnoop : updateChunks E (updatePlayer delta w) = updatePlayer delta w).
  { apply (updateChunks_settled E _ cx cz); [by rewrite Hsame|]. by rewrite Hc1. }
  unfold w', animate. cbv zeta. rewrite Hnoop.
  set (w1 := updatePlayer delta w) in *.
  destruct (animateVehicles_variables E delta w1) as (Hv2 & Hn2 & Hr2).
  destruct (variables_fields _ _ Hv2) as (Hs2 & Hc2 & _).
  set (w2 := animateVehicles E delta w1) in *.
  destruct (animateImmersion_variables E delta w2) as (Hv3 & Hn3 & Hr3).
  destruct (variables_fields _ _ Hv3) as (Hs3 & Hc3 & _).
  clearbody w2 w1. split_and!; congruence.
Qed.

(** X9: [init] leaves the player's mesh at (0, 2, 0), in chunk (0, 0),
    and, for a radius [>= 0], the registry holding exactly the window
    around (0, 0), the chunk "0_0" included: the first chunk is there
    before the first frame. *)
Theorem init_loads_first_chunk (E : Env) :
  0 <= loadedRadius E ->
  playerChunk E (init E) = Some (0, 0) /\
  player_position (init E) = Some (mkVector3 0 2 0) /\
  (forall id, id ∈ JS.keys (chunks (init E)) <-> in_window E 0 0 id) /\
  JS.has (chunks (init E)) "0_0" = true.
Proof.
  intros HR.
  assert (Hpos0 : player_position init_scene = Some (mkVector3 0 2 0))
    by (vm_compute; reflexivity).
  assert (Hpos : player_position (init E) = Some (mkVector3 0 2 0)).
  { rewrite <- Hpos0.
    apply (player_position_grows init_scene (init E));
      [exact wf_init_scene|exact (updateChunks_grows E init_scene)|].
    exact (proj1 (proj2 (proj2 (proj2 (proj2
             (outside_fields _ _ (updateChunks_outside E init_scene))))))). }
  assert (Hpc : playerChunk E (init E) = Some (0, 0)).
  { unfold playerChunk. rewrite Hpos. cbn [mbind option_bind vx vz].
    unfold JS.Math_floor.
    assert (Hz : (0 / chunkSize E == 0)%Q) by (unfold Qdiv; ring).
    by rewrite Hz. }
  pose proof (reachable_windowed E (init E) (reachable_init E) 0 0 Hpc) as Hkeys.
  split; [done|]. split; [done|]. split; [done|].
  apply has_keys, Hkeys. exists 0, 0. split; [reflexivity|]. simpl. lia.
Qed.

End Settled.

(** At sample inputs. *)

Lemma reachable_updateChunks_settled_witness :
  reachable E0 (moved E0) /\ updateChunks E0 (moved E0) = moved E0.
Proof.
  assert (H : reachable E0 (moved E0)).
  { unfold moved. eapply reachable_step; [|apply step_frame].
    eapply reachable_step; [apply reachable_init|apply step_keydown]. }
  split; [exact H|]. exact (reachable_updateChunks_settled E0 (moved E0) H).
Defined.

Lemma frame_within_chunk_witness :
  reachable E0 (init E0) /\
  playerChunk E0 (updatePlayer 1 (init E0)) = playerChunk E0 (init E0) /\
  let w' := animate E0 1 (init E0) in
  chunks w' = chunks (init E0) /\ scene w' = scene (init E0) /\
  next w' = next (init E0) /\ random_calls w' = random_calls (init E0).
Proof.
  assert (H1 : reachable E0 (init E0)) by apply reachable_init.
  assert (Hk : forall k, pressed (init E0) k = false).
  { intros k. unfold pressed, init.
    rewrite (proj1 (proj2 (outside_fields _ _ (updateChunks_outside E0 init_scene)))).
    reflexivity. }
  assert (H2 : playerChunk E0 (updatePlayer 1 (init E0)) = playerChunk E0 (init E0)).
  { rewrite updatePlayer_idle by apply Hk. reflexivity. }
  split; [exact H1|]. split; [exact H2|].
  exact (frame_within_chunk E0 1 (init E0) H1 H2).
Defined.

Lemma init_loads_first_chunk_witness :
  (0 <= loadedRadius E0)%Z /\
  playerChunk E0 (init E0) = Some (0%Z, 0%Z) /\
  player_position (init E0) = Some (mkVector3 0 2 0) /\
  (forall id, id ∈ JS.keys (chunks (init E0)) <-> in_window E0 0 0 id) /\
  JS.has (chunks (init E0)) "0_0" = true.
Proof.
  assert (H : (0 <= loadedRadius E0)%Z) by (simpl; lia).
  split; [exact H|]. exact (init_loads_first_chunk E0 H).
Defined.

(** ** The scene *)

Section SceneInvariant.

Lemma delete_values {V} (m : list (string * V)) k v :
  JS.get m k = Some v -> snd <$> m ≡ₚ v :: (snd <$> JS.delete m k).
Proof.
  induction m as [|[k0 v0] m IH]; [done|]. simpl.
  destruct (String.eqb_spec k0 k) as [->|Hne].
  - by intros [= ->].
  - intros Hg. csimpl. rewrite (IH Hg). apply Permutation_swap.
Qed.

Lemma remove_first_elem o s x : x ∈ remove_first o s -> x ∈ s.
Proof.
  induction s as [|y s IH]; [done|]. simpl.
  destruct (Nat.eqb y o); rewrite !elem_of_cons; tauto.
Qed.

Lemma remove_first_keeps_NoDup o s : NoDup s -> NoDup (remove_first o s).
Proof.
  induction s as [|y s IH]; [done|]. simpl. intros [Hy Hnd]%NoDup_cons.
  destruct (Nat.eqb y o); [done|]. apply NoDup_cons. split; [|by apply IH].
  intros Hin. by apply Hy, (remove_first_elem o).
Qed.

Lemma scene_accounted_ext w w' :
  scene w' = scene w -> vehicles w' = vehicles w -> chunks w' = chunks w ->
  (next w <= next w')%nat ->
  scene_accounted w -> scene_accounted w'.
Proof.
  intros Hs Hv Hc Hn [H1 H2 H3]. split; rewrite Hs, ?Hv, ?Hc; [done..|].
  eapply Forall_impl; [exact H3|]. simpl. lia.
Qed.

Lemma scene_accounted_append w w' o :
  scene w' = scene w ++ [o] -> (next w <= o < next w')%nat ->
  scene init_scene ++ vehicles w' ++ (snd <$> chunks w')
  ≡ₚ (scene init_scene ++ vehicles w ++ (snd <$> chunks w)) ++ [o] ->
  scene_accounted w -> scene_accounted w'.
Proof.
  intros Hs Ho Hp [H1 H2 H3]. split; rewrite Hs.
  - by rewrite Hp, H1.
  - apply NoDup_app. split; [done|]. split; [|apply NoDup_singleton].
    intros x Hx ->%list_elem_of_singleton.
    rewrite Forall_forall in H3. specialize (H3 _ Hx). lia.
  - apply Forall_app. split; [|apply Forall_singleton; lia].
    eapply Forall_impl; [exact H3|]. simpl. lia.
Qed.

Lemma scene_accounted_createChunk E cx cz id w :
  JS.has (chunks w) id = false ->
  scene_accounted w -> scene_accounted (createChunk E cx cz id w).
Proof.
  intros Hh. unfold createChunk.
  apply (scene_accounted_append _ _ (2 + next w)%nat).
  - apply createChunkWith_scene.
  - rewrite createChunkWith_next. lia.
  - rewrite createChunkWith_chunks, set_absent by done.
    destruct (createChunkWith_others 50 3 E cx cz id w) as (_ & -> & _).
    rewrite fmap_app. change (snd <$> [(id, (2 + next w)%nat)]) with [(2 + next w)%nat].
    by rewrite <- !(assoc_L (++)).
Qed.

Lemma scene_accounted_loadOne E cx cz dx dz w :
  scene_accounted w -> scene_accounted (loadOne E cx cz dx dz w).
Proof.
  unfold loadOne. destruct (JS.has _ _) eqn:Hh; [done|].
  by apply scene_accounted_createChunk.
Qed.

Lemma scene_accounted_loadNear E cx cz w :
  scene_accounted w -> scene_accounted (loadNear E cx cz w).
Proof.
  unfold loadNear. revert w.
  apply (foldl_rel (fun w w' => scene_accounted w -> scene_accounted w'));
    [auto|auto|].
  intros w1 dx. revert w1.
  apply (foldl_rel (fun w w' => scene_accounted w -> scene_accounted w'));
    [auto|auto|].
  intros w2 dz. apply scene_accounted_loadOne.
Qed.

Lemma scene_accounted_unloadChunk id w :
  scene_accounted w -> scene_accounted (unloadChunk id w).
Proof.
  intros [H1 H2 H3]. unfold unloadChunk.
  destruct (JS.get (chunks w) id) as [g|] eqn:Hg; [|done].
  split; cbn.
  - apply (Permutation_cons_inv (a := g)).
    rewrite <- remove_first_Permutation.
    + rewrite H1, (delete_values _ _ _ Hg).
      by rewrite <- !Permutation_middle.
    + rewrite H1, (delete_values _ _ _ Hg), !elem_of_app. right. right. by left.
  - by apply remove_first_keeps_NoDup.
  - rewrite Forall_forall in H3. apply Forall_forall. intros x Hx.
    by apply H3, (remove_first_elem g).
Qed.

Lemma scene_accounted_unloadFar E cx cz w :
  scene_accounted w -> scene_accounted (unloadFar E cx cz w).
Proof.
  unfold unloadFar. generalize (chunks w) at 1. intros l. revert w.
  apply (foldl_rel (fun w w' => scene_accounted w -> scene_accounted w'));
    [auto|auto|].
  intros w1 e. unfold unloadIfFar. destruct (far _ _ _ _); [|done].
  apply scene_accounted_unloadChunk.
Qed.

Lemma scene_accounted_updateChunks E w :
  scene_accounted w -> scene_accounted (updateChunks E w).
Proof.
  intros Hs. unfold updateChunks. destruct (playerChunk E w) as [[cx cz]|]; [|done].
  by apply scene_accounted_unloadFar, scene_accounted_loadNear.
Qed.

Lemma scene_accounted_animate E delta w :
  scene_accounted w -> scene_accounted (animate E delta w).
Proof.
  intros Hs. destruct (animate_fields E delta w) as (Hc & Hv & _ & _ & _ & Hsc).
  destruct (variables_fields _ _ (proj1 (updatePlayer_variables delta w)))
    as (Hs1 & Hc1 & _ & _ & Hv1 & _).
  pose proof (proj1 (proj2 (updatePlayer_variables delta w))) as Hn1.
  assert (Hacc1 : scene_accounted (updatePlayer delta w)).
  { apply (scene_accounted_ext w); [done..|lia|done]. }
  apply (scene_accounted_updateChunks E) in Hacc1.
  destruct (outside_fields _ _ (updateChunks_outside E (updatePlayer delta w)))
    as (_ & _ & Hv2 & _).
  apply (scene_accounted_ext (updateChunks E (updatePlayer delta w)));
    [done|congruence|done| |done].
  unfold animate. cbv zeta.
  rewrite (proj1 (proj2 (animateImmersion_variables E delta _))).
  by rewrite (proj1 (proj2 (animateVehicles_variables E delta _))).
Qed.

Lemma Permutation_insert {A} (a b c : list A) x :
  a ++ (b ++ [x]) ++ c ≡ₚ (a ++ b ++ c) ++ [x].
Proof.
  rewrite <- !(assoc_L (++)). do 2 f_equiv. apply Permutation_app_comm.
Qed.

Lemma saveStructure_next E mesh w : (next w <= next (saveStructure E mesh w))%nat.
Proof. apply saveStructure_grows. Qed.

Lemma scene_accounted_register_vehicle E mesh w0 w :
  scene w = scene w0 -> vehicles w = vehicles w0 -> chunks w = chunks w0 ->
  (next w0 <= mesh < next w)%nat ->
  scene_accounted w0 -> scene_accounted (register_vehicle E mesh w).
Proof.
  intros Hs Hv Hc Hm Hacc. unfold register_vehicle.
  set (w1 := set_vehicles (fun v => v ++ [mesh]) (scene_add mesh w)).
  destruct (saveStructure_others E mesh w1) as (Hs2 & Hc2 & _ & Hv2 & _).
  pose proof (saveStructure_next E mesh w1) as Hn2.
  apply (scene_accounted_append w0 _ mesh).
  - rewrite Hs2. change (scene w1) with (scene w ++ [mesh]). by rewrite Hs.
  - change (next w1) with (next w) in Hn2. lia.
  - rewrite Hc2, Hv2. change (vehicles w1) with (vehicles w ++ [mesh]).
    change (chunks w1) with (chunks w). rewrite Hv, Hc.
    apply Permutation_insert.
  - done.
Qed.

Lemma scene_accounted_buildVehicle E type w :
  scene_accounted w -> scene_accounted (buildVehicle E type w).
Proof.
  intros Hs.
  destruct (buildVehicle_cases E type w) as [-> | [-> | ->]]; [| |done].
  - destruct (variables_fields _ _ (proj1 (plane_variables w)))
      as (? & ? & _ & _ & ? & _).
    apply (scene_accounted_register_vehicle E _ w); [done..| |done].
    cbn. lia.
  - destruct (variables_fields _ _ (proj1 (boat_variables w)))
      as (? & ? & _ & _ & ? & _).
    apply (scene_accounted_register_vehicle E _ w); [done..| |done].
    cbn. lia.
Qed.

Lemma scene_accounted_handleKeys E event w :
  scene_accounted w -> scene_accounted (handleKeys E event w).
Proof.
  intros Hs. unfold handleKeys. cbv zeta.
  assert (Hs1 : scene_accounted (set_keys <[JS.toLowerCase (key event) :=
                 String.eqb (type event) "keydown"]> w))
    by (by apply (scene_accounted_ext w)).
  destruct (String.eqb (key event) "p"), (String.eqb (key event) "b");
    repeat apply scene_accounted_buildVehicle; exact Hs1.
Qed.

Lemma scene_accounted_init_scene : scene_accounted init_scene.
Proof.
  split.
  - by cbn.
  - cbn. apply (bool_decide_unpack _). by vm_compute.
  - cbn. repeat constructor.
Qed.

Lemma reachable_scene_accounted E w : reachable E w -> scene_accounted w.
Proof.
  induction 1 as [|w w' Hr IH Hstep].
  - apply scene_accounted_updateChunks, scene_accounted_init_scene.
  - destruct Hstep.
    + by apply scene_accounted_handleKeys.
    + by apply (scene_accounted_ext w).
    + by apply scene_accounted_animate.
Qed.

(** X10: in every state the program can be in, the scene holds the two
    lights and the player's mesh that [init] added, the vehicles and the
    groups of the registered chunks, and nothing else, each of them once;
    distinct chunks have distinct groups, none of them a vehicle.  So the
    group of every registered chunk is in the scene, and after
    [unloadChunk(id)] the group that was registered under [id] is not. *)
Theorem reachable_scene (E : Env) (w : World) :
  reachable E w ->
  scene w ≡ₚ scene init_scene ++ vehicles w ++ (snd <$> chunks w) /\
  NoDup (scene w) /\
  NoDup (vehicles w ++ (snd <$> chunks w)) /\
  (forall id g, JS.get (chunks w) id = Some g -> g ∈ scene w) /\
  (forall id g, JS.get (chunks w) id = Some g ->
     g ∉ scene (unloadChunk id w)).
Proof.
  intros Hr. destruct (reachable_scene_accounted E w Hr) as [H1 H2 H3].
  split; [done|]. split; [done|].
  split; [by rewrite H1 in H2; apply NoDup_app in H2 as (_ & _ & ?)|].
  assert (Hin : forall id g, JS.get (chunks w) id = Some g -> g ∈ scene w).
  { intros id g Hg. rewrite H1, (delete_values _ _ _ Hg), !elem_of_app.
    right. right. by left. }
  split; [exact Hin|].
  intros id g Hg. unfold unloadChunk. rewrite Hg. cbn.
  by apply remove_first_NoDup.
Qed.

End SceneInvariant.

(** At sample inputs. *)

Lemma reachable_scene_witness :
  reachable E0 (with_boat E0) /\
  scene (with_boat E0)
  ≡ₚ scene init_scene ++ vehicles (with_boat E0) ++ (snd <$> chunks (with_boat E0)) /\
  NoDup (scene (with_boat E0)) /\
  NoDup (vehicles (with_boat E0) ++ (snd <$> chunks (with_boat E0))) /\
  (forall id g, JS.get (chunks (with_boat E0)) id = Some g -> g ∈ scene (with_boat E0)) /\
  (forall id g, JS.get (chunks (with_boat E0)) id = Some g ->
     g ∉ scene (unloadChunk id (with_boat E0))).
Proof.
  assert (H : reachable E0 (with_boat E0)).
  { unfold with_boat. eapply reachable_step; [apply reachable_init|apply step_keydown]. }
  split; [exact H|]. exact (reachable_scene E0 (with_boat E0) H).
Defined.

(** ** The key handlers *)

Section KeyHandler.

Lemma register_vehicle_vehicles E mesh w :
  vehicles (register_vehicle E mesh w) = vehicles w ++ [mesh] /\
  scene (register_vehicle E mesh w) = scene w ++ [mesh].
Proof.
  unfold register_vehicle.
  by destruct (saveStructure_others E mesh
                 (set_vehicles (fun v => v ++ [mesh]) (scene_add mesh w)))
    as (-> & _ & _ & -> & _).
Qed.

Lemma buildVehicle_vehicles E type w :
  type = "plane"%string \/ type = "boat"%string ->
  vehicles (buildVehicle E type w) = vehicles w ++ [(4 + next w)%nat] /\
  scene (buildVehicle E type w) = scene w ++ [(4 + next w)%nat].
Proof.
  intros [-> | ->].
  - rewrite buildVehicle_plane.
    destruct (register_vehicle_vehicles E (plane w).1 (plane w).2) as [-> ->].
    destruct (variables_fields _ _ (proj1 (plane_variables w)))
      as (-> & _ & _ & _ & -> & _).
    done.
  - rewrite buildVehicle_boat.
    destruct (register_vehicle_vehicles E (boat w).1 (boat w).2) as [-> ->].
    destruct (variables_fields _ _ (proj1 (boat_variables w)))
      as (-> & _ & _ & _ & -> & _).
    done.
Qed.


End KeyHandler.

(** ** Vehicles and structures stay *)

Section Persistence.





Lemma get_elem_of {V} (m : list (string * V)) k v :
  JS.get m k = Some v -> (k, v) ∈ m.
Proof.
  induction m as [|[k0 v0] m IH]; [done|]. simpl.
  destruct (String.eqb_spec k0 k) as [->|Hne].
  - intros [= ->]. by left.
  - intros Hg. right. by apply IH.
Qed.

(** X14: what [saveStructure(mesh)] does to the structure registry, for a
    mesh in a well-formed state: the id it makes up maps to the four new
    clones; every other id maps to what it did; an id that was not there is
    appended as the last entry; an id that was there - a second structure
    saved at the same clock reading with the same random number - keeps its
    place while its structure is replaced by the new one: the registry does
    not grow and the earlier structure is lost. *)
Theorem saveStructure_registry (E : Env) (mesh : loc) (w : World)
    (o : Object3D) (geo : Geometry) (mat : Material) (p : Vector3) (r : Euler) :
  wf w ->
  is_mesh w mesh o geo mat p r ->
  let w' := saveStructure E mesh w in
  let id := structureID E w in
  let s := mkStructure (next w) (1 + next w) (2 + next w) (3 + next w) in
  JS.get (playerStructures w') id = Some s /\
  (forall k, k <> id ->
     JS.get (playerStructures w') k = JS.get (playerStructures w) k) /\
  (JS.has (playerStructures w) id = false ->
     playerStructures w' = playerStructures w ++ [(id, s)]) /\
  (forall s0, JS.get (playerStructures w) id = Some s0 ->
     s0 <> s /\
     JS.keys (playerStructures w') = JS.keys (playerStructures w) /\
     length (playerStructures w') = length (playerStructures w)).
Proof.
  intros Hw Hmesh w' id s.
  assert (Hps : playerStructures w' = JS.set (playerStructures w) id s).
  { unfold w'. by rewrite (saveStructure_spec E mesh w o geo mat p r (wf_heap_below w Hw) Hmesh). }
  clearbody w'. rewrite Hps.
  split; [apply get_set_eq|]. split; [intros k Hk; by apply get_set_ne|].
  split; [apply set_absent|].
  intros s0 Hs0. split.
  - intros ->. apply get_elem_of in Hs0.
    destruct (wf_structures w Hw _ Hs0) as [[(c & Hc & _) _] _].
    apply (wf_heap_below w Hw) in Hc. simpl in Hc. lia.
  - assert (Hhas : JS.has (playerStructures w) id = true) by (apply has_get; eauto).
    pose proof (keys_set_old (playerStructures w) id s Hhas) as Hkeys.
    split; [done|].
    transitivity (length (JS.keys (JS.set (playerStructures w) id s))).
    + unfold JS.keys. by rewrite length_fmap.
    + rewrite Hkeys. unfold JS.keys. by rewrite length_fmap.
Qed.

End Persistence.

(** At sample inputs. *)


Lemma wf_boat_saved E : wf (boat_saved E).
Proof.
  unfold boat_saved.
  apply (wf_saveStructure E _ _ (mkObject3D (Some 11%nat) (Some 12%nat) 13 14 [])
           (CylinderGeometry 1 1 (1#2) 8) (mkMaterial 0x0000ff false)
           (mkVector3 2 (1#4) 0) (mkEuler 0 0 (Math_PI / 2))).
  - apply wf_boat_pushed.
  - exists 11%nat, 12%nat. vm_compute. repeat split.
Qed.

Lemma saveStructure_registry_witness :
  wf (boat_saved E_still) /\
  is_mesh (boat_saved E_still) 15 (mkObject3D (Some 11%nat) (Some 12%nat) 13 14 [])
    (CylinderGeometry 1 1 (1#2) 8) (mkMaterial 0x0000ff false)
    (mkVector3 2 (1#4) 0) (mkEuler 0 0 (Math_PI / 2)) /\
  JS.has (playerStructures (boat_saved E_still)) (structureID E_still (boat_saved E_still))
  = true /\
  let w := boat_saved E_still in
  let w' := saveStructure E_still 15 w in
  let id := structureID E_still w in
  let s := mkStructure (next w) (1 + next w) (2 + next w) (3 + next w) in
  JS.get (playerStructures w') id = Some s /\
  (forall k, k <> id ->
     JS.get (playerStructures w') k = JS.get (playerStructures w) k) /\
  (JS.has (playerStructures w) id = false ->
     playerStructures w' = playerStructures w ++ [(id, s)]) /\
  (forall s0, JS.get (playerStructures w) id = Some s0 ->
     s0 <> s /\
     JS.keys (playerStructures w') = JS.keys (playerStructures w) /\
     length (playerStructures w') = length (playerStructures w)).
Proof.
  assert (H1 : wf (boat_saved E_still)) by apply wf_boat_saved.
  assert (H2 : is_mesh (boat_saved E_still) 15
                 (mkObject3D (Some 11%nat) (Some 12%nat) 13 14 [])
                 (CylinderGeometry 1 1 (1#2) 8) (mkMaterial 0x0000ff false)
                 (mkVector3 2 (1#4) 0) (mkEuler 0 0 (Math_PI / 2))).
  { exists 11%nat, 12%nat. vm_compute. repeat split. }
  split; [exact H1|]. split; [exact H2|]. split; [vm_compute; reflexivity|].
  exact (saveStructure_registry E_still 15 (boat_saved E_still) _ _ _ _ _ H1 H2).
Defined.

(** ** Shapes of a chunk *)

Section Shapes.

Lemma createChunkWith_children (good : Geometry -> Vector3 -> Prop)
    nb nB E cx cz id w :
  (forall rc, good (terrain_geometry E rc) (terrain_position E cx cz rc)) ->
  (forall rc, good (building_geometry E rc) (building_position E cx cz rc)) ->
  let w' := createChunkWith nb nB E cx cz id w in
  length (chunk_children w' id) = (nB + (nb + 0))%nat /\
  forall m, m ∈ chunk_children w' id ->
    exists geo p, primitive_at w' m = Some (geo, p) /\ good geo p.
Proof.
  intros Ht Hb w'.
  destruct (createChunkWith_built good nb nB E cx cz id w Ht Hb)
    as (_ & _ & _ & o & Ho & Hlen & Hch).
  fold w' in Ho, Hch.
  assert (Hc : chunk_children w' id = children o).
  { unfold chunk_children, w'. rewrite createChunkWith_chunks, get_set_eq.
    unfold object_at. fold w'. by rewrite Ho. }
  clearbody w'. rewrite Hc. split; [done|].
  intros m Hm. rewrite Forall_forall in Hch.
  destruct (Hch m Hm)
    as (om & gl & geo & p & Hom & Hgl & Hgeo & Hp & _ & _ & _ & Hgood).
  exists geo, p. split; [|done].
  unfold primitive_at, object_at, geometry_at, vector_at.
  rewrite Hom. simpl. rewrite Hgl. simpl. rewrite Hgeo. simpl. by rewrite Hp.
Qed.

(** X16: the shapes [createChunk] makes, for random numbers in [0, 1) and
    whatever the two loop bounds (50 and 3 in main.js, 100 and 5 in its
    earlier revision): the group holds as many primitives as the two bounds
    add up to, and each is a terrain block, a box 1 x h x 1 with
    [0 <= h < 2], or a building, a box w x h x d with [1 <= w, d < 4] and
    [3 <= h < 8].  A terrain block can have height 0. *)
Theorem createChunk_shapes (nb nB : nat) (E : Env) (cx cz : Z) (id : string)
    (w : World) :
  (forall n, 0 <= Math_random E n /\ Math_random E n < 1) ->
  let w' := createChunkWith nb nB E cx cz id w in
  length (chunk_children w' id) = (nb + nB)%nat /\
  forall m, m ∈ chunk_children w' id ->
    exists geo p, primitive_at w' m = Some (geo, p) /\ block_or_building geo.
Proof.
  intros Hr w'.
  destruct (createChunkWith_children (fun geo _ => block_or_building geo)
              nb nB E cx cz id w) as [Hlen Hch].
  - intros rc. left. unfold block_or_building, terrain_geometry.
    destruct (Hr (2 + rc)%nat). split_and!; try reflexivity; lra.
  - intros rc. right. unfold block_or_building, building_geometry.
    destruct (Hr rc), (Hr (1 + rc)%nat), (Hr (2 + rc)%nat). split_and!; lra.
  - fold w' in Hlen, Hch. split; [lia|done].
Qed.

End Shapes.

(** At sample inputs. *)

Lemma createChunk_shapes_witness :
  (forall n, 0 <= Math_random E0 n /\ Math_random E0 n < 1) /\
  let w' := createChunkWith 50 3 E0 0 0 "0_0" init_scene in
  length (chunk_children w' "0_0") = (50 + 3)%nat /\
  forall m, m ∈ chunk_children w' "0_0" ->
    exists geo p, primitive_at w' m = Some (geo, p) /\ block_or_building geo.
Proof.
  assert (H : forall n, 0 <= Math_random E0 n /\ Math_random E0 n < 1).
  { intros n. split; [discriminate|reflexivity]. }
  split; [exact H|]. exact (createChunk_shapes 50 3 E0 0 0 "0_0" init_scene H).
Defined.

(** ** The two animations *)

Section Hover.

Lemma modify_position_objects o f h x ox :
  heap_modify_position o f h !! x = Some (CObject3D ox) <->
  h !! x = Some (CObject3D ox).
Proof.
  rewrite lookup_modify_position.
  destruct (h !! o) as [[| | | |obj]|]; try done.
  case_decide; [|done]. by destruct (h !! x) as [[| | | |]|].
Qed.

Lemma modify_position_vectors o f h x p :
  h !! x = Some (CVector3 p) ->
  exists p', heap_modify_position o f h !! x = Some (CVector3 p').
Proof.
  intros Hx. rewrite lookup_modify_position, Hx.
  destruct (h !! o) as [[| | | |obj]|]; eauto.
  case_decide; simpl; eauto.
Qed.

Lemma owns_position_modify o f h l :
  owns_position h l -> owns_position (heap_modify_position o f h) l.
Proof.
  intros (ol & p & Hl & Hp & Huniq).
  destruct (modify_position_vectors o f h _ _ Hp) as [p' Hp'].
  exists ol, p'. split; [by apply modify_position_objects|]. split; [done|].
  intros l' o' Hl'%modify_position_objects. by apply Huniq.
Qed.

(** X19: [animateImmersion(delta)] puts the directional light at
    [(Math.sin(time) * 50, y, Math.cos(time) * 50)], where [y] is the height
    it had and [time] one clock reading times 0.001; it writes to no other
    cell, assigns no variable and does not use [delta]. *)
Theorem animateImmersion_light (E : Env) (delta : Q) (w : World)
    (d : loc) (o : Object3D) (p : Vector3) :
  dirLight w = Some d ->
  object_at w d = Some o ->
  vector_at w (position o) = Some p ->
  let w' := animateImmersion E delta w in
  let time := inject_Z (Date_now E (now_calls w)) * (1#1000) in
  vector_at w' (position o)
  = Some (mkVector3 (Math_sin E time * 50) (vy p) (Math_cos E time * 50)) /\
  (forall l, l <> position o -> heap w' !! l = heap w !! l) /\
  now_calls w' = S (now_calls w) /\
  variables w' = variables w.
Proof.
  intros Hd Ho Hp w' time.
  assert (Ho' : heap w !! d = Some (CObject3D o)).
  { unfold object_at in Ho. by destruct (heap w !! d) as [[| | | |]|]; simplify_eq. }
  assert (Hp' : heap w !! position o = Some (CVector3 p)).
  { unfold vector_at in Hp. by destruct (heap w !! position o) as [[| | | |]|]; simplify_eq. }
  split; [|split; [|split]].
  - unfold w', animateImmersion, vector_at. cbn. rewrite Hd. cbn.
    rewrite lookup_modify_position.
    rewrite (proj2 (modify_position_objects _ _ _ _ _) Ho').
    rewrite decide_True by done.
    rewrite lookup_modify_position, Ho', decide_True by done.
    by rewrite Hp'.
  - intros l Hl. unfold w'. apply animateImmersion_frame.
    intros d' o' Hd' Ho2. rewrite Hd in Hd'. injection Hd' as <-.
    rewrite Ho in Ho2. by injection Ho2 as <-.
  - unfold w', animateImmersion. cbn. by destruct (dirLight w).
  - apply animateImmersion_variables.
Qed.

End Hover.

(** At sample inputs. *)

Lemma animateImmersion_light_witness :
  dirLight init_scene = Some 5%nat /\
  object_at init_scene 5 = Some (mkObject3D None None 3 4 []) /\
  vector_at init_scene (position (mkObject3D None None 3 4 []))
  = Some (mkVector3 20 50 20) /\
  let w' := animateImmersion E0 1 init_scene in
  let time := inject_Z (Date_now E0 (now_calls init_scene)) * (1#1000) in
  vector_at w' (position (mkObject3D None None 3 4 []))
  = Some (mkVector3 (Math_sin E0 time * 50) (vy (mkVector3 20 50 20))
            (Math_cos E0 time * 50)) /\
  (forall l, l <> position (mkObject3D None None 3 4 []) ->
             heap w' !! l = heap init_scene !! l) /\
  now_calls w' = S (now_calls init_scene) /\
  variables w' = variables init_scene.
Proof.
  assert (H1 : dirLight init_scene = Some 5%nat) by reflexivity.
  assert (H2 : object_at init_scene 5 = Some (mkObject3D None None 3 4 []))
    by (vm_compute; reflexivity).
  assert (H3 : vector_at init_scene (position (mkObject3D None None 3 4 []))
               = Some (mkVector3 20 50 20)) by (vm_compute; reflexivity).
  split; [exact H1|]. split; [exact H2|]. split; [exact H3|].
  exact (animateImmersion_light E0 1 init_scene 5 _ _ H1 H2 H3).
Defined.

(** ** Loaded chunks stay as they were generated *)

Section Adjacent.

Lemma adjacent_mesh_heap n0 n g geo mat p h :
  (n0 <= g)%nat -> (g < n)%nat ->
  adjacent_from n0 h -> adjacent_from n0 (mesh_heap n g geo mat p h).
Proof.
  intros Hg0 Hg Hadj l o Hl Hlo.
  destruct (decide (l = g)) as [->|Hne].
  - rewrite mesh_heap_group in Hlo by done.
    destruct (h !! g) as [[| | | |o0]|] eqn:Hc; try done.
    simpl in Hlo. injection Hlo as <-. simpl. by apply (Hadj g o0).
  - destruct (decide (l < n \/ 5 + n <= l)%nat) as [Hout|Hin].
    + rewrite mesh_heap_old in Hlo by done. by apply Hadj.
    + assert (Hcases : l = n \/ l = (1 + n)%nat \/ l = (2 + n)%nat \/
                       l = (3 + n)%nat \/ l = (4 + n)%nat) by lia.
      destruct Hcases as [->|[->|[->|[->| ->]]]].
      * rewrite mesh_heap_geometry in Hlo by done. done.
      * rewrite mesh_heap_material in Hlo by done. done.
      * rewrite mesh_heap_position in Hlo by done. done.
      * rewrite mesh_heap_rotation in Hlo by done. done.
      * rewrite mesh_heap_mesh in Hlo by done. by injection Hlo as <-.
Qed.

Lemma adjacent_iter n0 g (F : World -> World) k :
  (forall w, exists geo mat p,
      heap (F w) = mesh_heap (next w) g geo mat p (heap w) /\
      next (F w) = (5 + next w)%nat) ->
  (n0 <= g)%nat ->
  forall w, (g < next w)%nat -> adjacent_from n0 (heap w) ->
    (g < next (Nat.iter k F w))%nat /\ adjacent_from n0 (heap (Nat.iter k F w)).
Proof.
  intros HF Hg0 w Hg Hadj. induction k as [|k [IHn IHa]]; [done|]. simpl.
  destruct (HF (Nat.iter k F w)) as (geo & mat & p & -> & ->).
  split; [lia|]. by apply adjacent_mesh_heap.
Qed.

Lemma createChunkWith_adjacent nb nB E cx cz id w :
  heap_below (heap w) (next w) ->
  adjacent_from (next w) (heap (createChunkWith nb nB E cx cz id w)).
Proof.
  intros Hb. unfold createChunkWith.
  destruct (new_Group w) as [group w1] eqn:Hnew.
  assert (Hg : group = (2 + next w)%nat) by (by injection Hnew as <- _).
  assert (Hn1 : next w1 = (3 + next w)%nat) by (by injection Hnew as _ <-).
  assert (Hadj1 : adjacent_from (next w) (heap w1)).
  { injection Hnew as _ <-. cbn. intros l o Hl Hlo.
    destruct (decide (l = (2 + next w)%nat)) as [->|Hne].
    - rewrite lookup_insert_eq in Hlo. by injection Hlo as <-.
    - rewrite lookup_insert_ne in Hlo by done.
      destruct (decide (l = (1 + next w)%nat)) as [->|Hne1].
      { by rewrite lookup_insert_eq in Hlo. }
      rewrite lookup_insert_ne in Hlo by done.
      destruct (decide (l = next w)) as [->|Hne0].
      { by rewrite lookup_insert_eq in Hlo. }
      rewrite lookup_insert_ne in Hlo by done.
      apply Hb in Hlo. lia. }
  subst group. cbn [heap set_chunks scene_add set_scene].
  destruct (adjacent_iter (next w) (2 + next w)%nat
              (terrainBlock E cx cz (2 + next w)%nat) nb) with (w := w1)
    as [Hn2 Hadj2]; [|lia|lia|done|].
  { intros w2. eexists _, _, _. split; [apply terrainBlock_heap|done]. }
  apply (adjacent_iter (next w) (2 + next w)%nat
           (building E cx cz (2 + next w)%nat) nB); [|lia|done|done].
  intros w2. eexists _, _, _. split; [apply building_heap|done].
Qed.

End Adjacent.

Section Intact.

Lemma primitive_ok_ext E w w' id m :
  heap w' = heap w -> vehicles w' = vehicles w ->
  player_mesh w' = player_mesh w -> dirLight w' = dirLight w ->
  primitive_ok E w id m -> primitive_ok E w' id m.
Proof.
  unfold primitive_ok, primitive_at, object_at, geometry_at, vector_at.
  by intros -> -> -> ->.
Qed.

Lemma chunks_intact_ext E w w' :
  heap w' = heap w -> next w' = next w -> vehicles w' = vehicles w ->
  player_mesh w' = player_mesh w -> dirLight w' = dirLight w ->
  (forall id g, JS.get (chunks w') id = Some g -> JS.get (chunks w) id = Some g) ->
  chunks_intact E w -> chunks_intact E w'.
Proof.
  intros Hh Hn Hv Hm Hd Hc [Hl Hch]. split.
  - rewrite Hd, Hn. exact Hl.
  - intros id g Hg. destruct (Hch id g (Hc id g Hg)) as (o & Ho & Hlen & Hall).
    exists o. split; [by unfold object_at in *; rewrite Hh|]. split; [done|].
    eapply Forall_impl; [exact Hall|]. intros m. by apply primitive_ok_ext.
Qed.

(** Allocation leaves the primitives as they are. *)
Lemma primitive_ok_grows E w w' id m :
  wf w -> evolves w w' -> grows w w' ->
  player_mesh w' = player_mesh w -> dirLight w' = dirLight w ->
  (forall v, v ∈ vehicles w' -> v ∈ vehicles w \/ (next w <= v)%nat) ->
  primitive_ok E w id m -> primitive_ok E w' id m.
Proof.
  intros Hw He Hg Hpm Hd Hveh (Hv & Hp & Hl & Hown & geo & p & Hprim & Hc).
  pose proof (wf_heap_below w Hw) as Hb.
  pose proof (owns_allocated _ _ _ Hb Hown) as Hm.
  split; [|split; [by rewrite Hpm|split; [by rewrite Hd|split]]].
  - intros Hin. destruct (Hveh _ Hin); [done|lia].
  - eapply owns_position_evolves; [exact Hb|apply Hw|exact He|exact Hown].
  - exists geo, p. split; [by eapply grows_primitive_at|done].
Qed.

Lemma chunks_intact_grows E w w' :
  wf w -> evolves w w' -> grows w w' ->
  player_mesh w' = player_mesh w -> dirLight w' = dirLight w ->
  chunks w' = chunks w ->
  (forall v, v ∈ vehicles w' -> v ∈ vehicles w \/ (next w <= v)%nat) ->
  chunks_intact E w -> chunks_intact E w'.
Proof.
  intros Hw He Hg Hpm Hd Hc Hveh [Hl Hch]. split.
  - intros d Hd'. rewrite Hd in Hd'. specialize (Hl d Hd'). destruct Hg. lia.
  - intros id g Hget. rewrite Hc in Hget.
    destruct (Hch id g Hget) as (o & Ho & Hlen & Hall).
    exists o. split; [by eapply grows_object_at; [apply Hw|..]|]. split; [done|].
    eapply Forall_impl; [exact Hall|]. intros m. by apply primitive_ok_grows.
Qed.

(** Assigning to the position of a vehicle, of the player's mesh or of the
    light leaves the primitives as they are. *)
Lemma primitive_ok_modify E w id m x f :
  x <> m -> primitive_ok E w id m -> primitive_ok E (modify_position x f w) id m.
Proof.
  intros Hx (Hv & Hp & Hl & Hown & geo & p & Hprim & Hc).
  split; [done|]. split; [done|]. split; [done|].
  split; [by apply owns_position_modify|].
  exists geo, p. split; [|done].
  destruct Hown as (om & pm & Hom & Hpm & Huniq).
  revert Hprim. unfold primitive_at. rewrite modify_position_object.
  unfold object_at. rewrite Hom. simpl.
  destruct (geometry om) as [gl|]; [|done]. simpl.
  unfold geometry_at, vector_at. cbn [heap modify_position set_heap].
  rewrite !lookup_modify_position.
  destruct (heap w !! x) as [[| | | |ox]|] eqn:Hox; try done.
  destruct (heap w !! gl) as [[| | |geo'|]|] eqn:Hgl; try done.
  assert (Hne : position ox <> position om).
  { intros Heq. apply Hx. by apply (Huniq x ox). }
  rewrite (decide_False (P := position ox = position om)) by done.
  by case_decide.
Qed.

Lemma chunks_intact_modify E w x f :
  x ∈ vehicles w \/ player_mesh w = Some x \/ dirLight w = Some x ->
  chunks_intact E w -> chunks_intact E (modify_position x f w).
Proof.
  intros Hx [Hl Hch]. split; [exact Hl|].
  intros id g Hget. destruct (Hch id g Hget) as (o & Ho & Hlen & Hall).
  exists o. split; [by rewrite modify_position_object|]. split; [done|].
  eapply Forall_impl; [exact Hall|]. intros m Hm.
  apply primitive_ok_modify; [|done].
  destruct Hm as (Hv & Hp & Hd & _). intros ->.
  destruct Hx as [?|[?|?]]; done.
Qed.

Lemma chunks_intact_on_key E k f w :
  chunks_intact E w -> chunks_intact E (on_key k f w).
Proof.
  intros Hi. unfold on_key, player_move. destruct (pressed w k); [|done].
  destruct (player_mesh w) as [m|] eqn:Hm; [|done].
  apply chunks_intact_modify; [|done]. right. by left.
Qed.

Lemma chunks_intact_updatePlayer E delta w :
  chunks_intact E w -> chunks_intact E (updatePlayer delta w).
Proof.
  intros Hi. unfold updatePlayer. cbv zeta.
  by repeat apply chunks_intact_on_key.
Qed.

Lemma chunks_intact_hovers E delta (vs : list loc) w :
  (forall v, v ∈ vs -> v ∈ vehicles w) ->
  chunks_intact E w ->
  chunks_intact E (foldl (fun w v => hover E delta v w) w vs).
Proof.
  revert w. induction vs as [|v vs IH]; intros w Hvs Hi; [done|]. simpl.
  apply IH.
  - intros v' Hv'. change (vehicles (hover E delta v w)) with (vehicles w).
    apply Hvs. by right.
  - unfold hover. cbn -[modify_position].
    apply chunks_intact_modify; [left; apply Hvs; by left|].
    by apply (chunks_intact_ext E w).
Qed.

Lemma chunks_intact_animateVehicles E delta w :
  chunks_intact E w -> chunks_intact E (animateVehicles E delta w).
Proof. intros Hi. by apply chunks_intact_hovers. Qed.

Lemma chunks_intact_animateImmersion E delta w :
  chunks_intact E w -> chunks_intact E (animateImmersion E delta w).
Proof.
  intros Hi. unfold animateImmersion. cbn -[modify_position].
  assert (Hi1 : chunks_intact E (set_now_calls S w))
    by (by apply (chunks_intact_ext E w)).
  destruct (dirLight w) as [d|] eqn:Hd; [|done].
  apply chunks_intact_modify; [by right; right|].
  apply chunks_intact_modify; [by right; right|done].
Qed.

End Intact.

Section IntactChunks.
Context (E : Env).
Hypothesis Hsize : 0 < chunkSize E.
Hypothesis Hrandom : forall n, 0 <= Math_random E n /\ Math_random E n < 1.

Lemma wf_createChunk x z w : wf w -> wf (createChunk E x z (chunkKey x z) w).
Proof.
  intros Hw. unfold createChunk.
  destruct (createChunkWith_others 50 3 E x z (chunkKey x z) w)
    as (Hps & _ & _ & Hpl & _).
  apply (wf_evolves w); [done|apply createChunkWith_evolves|congruence|..].
  - rewrite createChunkWith_chunks. apply keys_printed_set, Hw.
  - rewrite createChunkWith_chunks. apply NoDup_keys_set, Hw.
  - intros e He. left. by rewrite <- Hps.
Qed.

Lemma separate_createChunk x z id w :
  wf w -> separate w -> separate (createChunk E x z id w).
Proof.
  intros Hw Hs. unfold createChunk.
  destruct (createChunkWith_others 50 3 E x z id w)
    as (_ & Hv & _ & Hpl & Hd & _).
  apply (separate_evolves w); [done|apply createChunkWith_evolves|congruence|done..].
Qed.

(** A new chunk is a group of 53 primitives, and those of the other chunks
    are as they were. *)
Lemma chunks_intact_new x z w w' g o :
  wf w -> separate w -> chunks_intact E w ->
  evolves w w' -> grows w w' -> adjacent_from (next w) (heap w') ->
  chunks w' = JS.set (chunks w) (chunkKey x z) g ->
  vehicles w' = vehicles w -> player_mesh w' = player_mesh w ->
  dirLight w' = dirLight w ->
  (next w <= g)%nat ->
  heap w' !! g = Some (CObject3D o) -> length (children o) = 53%nat ->
  Forall (placed (centred E x z) g w') (children o) ->
  chunks_intact E w'.
Proof.
  intros Hw Hs [Hl Hchunks] He Hg Hadj Hc Hv Hpm Hd Hgn Ho Hlen Hch.
  pose proof (wf_heap_below w Hw) as Hb.
  pose proof (wf_objects_below w Hw) as Hob.
  split.
  - intros d Hd'. rewrite Hd in Hd'. specialize (Hl d Hd'). destruct Hg. lia.
  - intros id g' Hget. rewrite Hc in Hget.
    destruct (decide (chunkKey x z = id)) as [<-|Hne].
    + rewrite get_set_eq in Hget. injection Hget as <-.
      exists o. split; [by unfold object_at; rewrite Ho|]. split; [done|].
      eapply Forall_impl; [exact Hch|].
      intros m (om & gl & geo & p & Hom & Hgl & Hgeo & Hp & Hglb & Hpb & Hmb & Hgood).
      split; [|split; [|split; [|split]]].
      * rewrite Hv. intros Hin. destruct Hs as [_ Hall _].
        rewrite Forall_forall in Hall.
        pose proof (owns_allocated _ _ _ Hb (Hall _ Hin)). lia.
      * rewrite Hpm. destruct Hs as [(m0 & -> & Hown & _) _ _].
        pose proof (owns_allocated _ _ _ Hb Hown). intros [= ->]. lia.
      * rewrite Hd. intros Hd'. specialize (Hl m Hd'). lia.
      * exists om, p. split; [done|]. split; [done|].
        intros l' o' Hl' Heq.
        destruct (decide (l' < next w)%nat) as [Hlt|Hge].
        -- rewrite (proj2 Hg) in Hl' by done. destruct (Hob _ _ Hl'). lia.
        -- pose proof (Hadj l' o' ltac:(lia) Hl').
           pose proof (Hadj m om ltac:(lia) Hom). lia.
      * exists geo, p. split.
        -- unfold primitive_at, object_at, geometry_at, vector_at.
           rewrite Hom. simpl. rewrite Hgl. simpl. rewrite Hgeo. simpl.
           by rewrite Hp.
        -- intros x' z' [<- <-]%chunkKey_inj. exact Hgood.
    + rewrite get_set_ne in Hget by done.
      destruct (Hchunks id g' Hget) as (o0 & Ho0 & Hlen0 & Hall).
      exists o0. split; [by eapply grows_object_at|]. split; [done|].
      eapply Forall_impl; [exact Hall|]. intros m.
      apply primitive_ok_grows; try done. intros v. rewrite Hv. by left.
Qed.

Lemma chunks_intact_createChunk x z w :
  wf w -> separate w -> chunks_intact E w ->
  chunks_intact E (createChunk E x z (chunkKey x z) w).
Proof.
  intros Hw Hs Hi. unfold createChunk.
  destruct (createChunkWith_others 50 3 E x z (chunkKey x z) w)
    as (_ & Hv & _ & Hpl & Hd & _).
  destruct (createChunkWith_built (centred E x z) 50 3 E x z (chunkKey x z) w)
    as (Hn & _ & _ & o & Ho & Hlen & Hch);
    [by apply terrain_centred|by apply building_centred|].
  refine (chunks_intact_new x z w _ (2 + next w)%nat o Hw Hs Hi
            _ _ _ _ Hv _ Hd _ Ho _ Hch).
  - apply createChunkWith_evolves.
  - split; [lia|]. intros l Hl. by apply createChunkWith_old.
  - apply createChunkWith_adjacent, Hw.
  - apply createChunkWith_chunks.
  - congruence.
  - lia.
  - exact Hlen.
Qed.

Lemma chunks_intact_loadNear cx cz w :
  wf w -> separate w -> chunks_intact E w ->
  wf (loadNear E cx cz w) /\ separate (loadNear E cx cz w) /\
  chunks_intact E (loadNear E cx cz w).
Proof.
  intros Hw Hs Hi. revert w Hw Hs Hi. unfold loadNear.
  assert (Hrel : forall l F,
            (forall w (x : Z), wf w /\ separate w /\ chunks_intact E w ->
               wf (F w x) /\ separate (F w x) /\ chunks_intact E (F w x)) ->
            forall w, wf w /\ separate w /\ chunks_intact E w ->
              wf (foldl F w l) /\ separate (foldl F w l)
              /\ chunks_intact E (foldl F w l)).
  { intros l F HF. induction l as [|x l IH]; intros w H; [done|].
    simpl. apply IH, HF, H. }
  intros w Hw Hs Hi. apply Hrel; [|done].
  intros w1 dx H1. apply Hrel; [|done].
  intros w2 dz (Hw2 & Hs2 & Hi2). unfold loadOne.
  destruct (JS.has _ _); [done|].
  split; [by apply wf_createChunk|]. split; [by apply separate_createChunk|].
  by apply chunks_intact_createChunk.
Qed.

Lemma unloadFar_get_Some cx cz w id g :
  JS.get (chunks (unloadFar E cx cz w)) id = Some g ->
  JS.get (chunks w) id = Some g.
Proof.
  rewrite unloadFar_chunks.
  induction (chunks w) as [|[k0 v0] m IH]; [done|].
  rewrite filter_cons. simpl.
  destruct (decide (far E cx cz k0 = false)) as [H0|H0]; simpl.
  - by destruct (String.eqb k0 id).
  - destruct (String.eqb_spec k0 id) as [->|Hne]; [|done].
    intros Hg. exfalso. apply H0.
    assert (Hin : id ∈ JS.keys (filter (fun e => far E cx cz e.1 = false) m)).
    { apply has_keys, has_get. eauto. }
    apply list_elem_of_fmap in Hin as ([k1 v1] & -> & Hin).
    by apply list_elem_of_filter in Hin as [? _].
Qed.

Lemma chunks_intact_unloadFar cx cz w :
  chunks_intact E w -> chunks_intact E (unloadFar E cx cz w).
Proof.
  intros Hi.
  destruct (unloadFar_heap E cx cz w) as [Hh Hn].
  destruct (outside_fields _ _ (unloadFar_outside E cx cz w))
    as (_ & _ & Hv & _ & Hm & Hd & _).
  apply (chunks_intact_ext E w); try done.
  intros id g. apply unloadFar_get_Some.
Qed.

Lemma chunks_intact_updateChunks w :
  wf w -> separate w -> chunks_intact E w -> chunks_intact E (updateChunks E w).
Proof.
  intros Hw Hs Hi. unfold updateChunks.
  destruct (playerChunk E w) as [[cx cz]|]; [|done].
  apply chunks_intact_unloadFar. by apply chunks_intact_loadNear.
Qed.

Lemma buildVehicle_new_vehicles type w v :
  v ∈ vehicles (buildVehicle E type w) -> v ∈ vehicles w \/ (next w <= v)%nat.
Proof.
  destruct (buildVehicle_cases E type w) as [Heq | [Heq | ->]]; [| |by left].
  - rewrite <- buildVehicle_plane in Heq.
    rewrite Heq, (proj1 (buildVehicle_vehicles E "plane" w (or_introl eq_refl))).
    intros [?|Hx%list_elem_of_singleton]%elem_of_app; [by left|right; lia].
  - rewrite <- buildVehicle_boat in Heq.
    rewrite Heq, (proj1 (buildVehicle_vehicles E "boat" w (or_intror eq_refl))).
    intros [?|Hx%list_elem_of_singleton]%elem_of_app; [by left|right; lia].
Qed.

Lemma chunks_intact_buildVehicle type w :
  wf w -> chunks_intact E w -> chunks_intact E (buildVehicle E type w).
Proof.
  intros Hw Hi. destruct (buildVehicle_fields E type w) as (Hc & _ & Hm & Hd).
  apply (chunks_intact_grows E w);
    [done|apply buildVehicle_evolves|apply buildVehicle_grows|done..| |done].
  apply buildVehicle_new_vehicles.
Qed.

Lemma chunks_intact_handleKeys event w :
  wf w -> chunks_intact E w -> chunks_intact E (handleKeys E event w).
Proof.
  intros Hw Hi. unfold handleKeys. cbv zeta.
  pose proof (wf_keys (<[JS.toLowerCase (key event) :=
                          String.eqb (type event) "keydown"]>) w Hw) as Hw1.
  assert (Hi1 : chunks_intact E (set_keys <[JS.toLowerCase (key event) :=
                  String.eqb (type event) "keydown"]> w))
    by (by apply (chunks_intact_ext E w)).
  destruct (String.eqb (key event) "p"), (String.eqb (key event) "b");
    repeat first [ apply chunks_intact_buildVehicle | apply wf_buildVehicle ];
    done.
Qed.

Lemma chunks_intact_animate delta w :
  wf w -> separate w -> chunks_intact E w -> chunks_intact E (animate E delta w).
Proof.
  intros Hw Hs Hi. unfold animate. cbv zeta.
  apply chunks_intact_animateImmersion, chunks_intact_animateVehicles.
  apply chunks_intact_updateChunks.
  - apply (wf_variables w); [done|apply updatePlayer_evolves|apply updatePlayer_variables].
  - destruct (variables_fields _ _ (proj1 (updatePlayer_variables delta w)))
      as (_ & _ & _ & _ & Hv & _ & Hm & Hd).
    apply (separate_evolves w); [done|apply updatePlayer_evolves|done..].
  - by apply chunks_intact_updatePlayer.
Qed.

Lemma chunks_intact_init_scene : chunks_intact E init_scene.
Proof.
  split.
  - intros d [= <-]. cbn. lia.
  - intros id g Hg. done.
Qed.

Lemma reachable_chunks_intact w : reachable E w -> chunks_intact E w.
Proof.
  induction 1 as [|w w' Hr IH Hstep].
  - apply chunks_intact_updateChunks;
      [apply wf_init_scene|apply separate_init_scene|apply chunks_intact_init_scene].
  - pose proof (reachable_wf _ _ Hr) as Hw.
    pose proof (reachable_separate _ _ Hr) as Hs.
    destruct Hstep.
    + by apply chunks_intact_handleKeys.
    + by apply (chunks_intact_ext E w).
    + by apply chunks_intact_animate.
Qed.

End IntactChunks.

(** X20: in every state the program can be in (for a positive chunk size
    and random numbers in [0, 1)), every registered chunk is still what
    [createChunk] made: its id is the key of a coordinate [(x, z)], its
    group holds 53 primitives, each a box with its base at y = 0 in the
    square of side [chunkSize] centred on [(x * chunkSize, z * chunkSize)],
    edges included, and no primitive is a vehicle, the player's mesh or the
    light.  Moving
    the player, hovering the vehicles, turning the light, building vehicles
    and loading or unloading other chunks do not disturb a loaded chunk. *)
Theorem reachable_chunks_generated (E : Env) (w : World) (id : string) (g : loc) :
  0 < chunkSize E ->
  (forall n, 0 <= Math_random E n /\ Math_random E n < 1) ->
  reachable E w ->
  JS.get (chunks w) id = Some g ->
  exists x z,
    id = chunkKey x z /\
    generated E w id 53 x z /\
    forall m, m ∈ chunk_children w id ->
      (m ∉ vehicles w) /\ player_mesh w <> Some m /\ dirLight w <> Some m.
Proof.
  intros Hsize Hrandom Hr Hg.
  destruct (reachable_chunks_intact E Hsize Hrandom w Hr) as [_ Hch].
  destruct (Hch id g Hg) as (o & Ho & Hlen & Hall).
  destruct (wf_keys_printed w (reachable_wf E w Hr) id) as (x & z & Hid).
  { apply has_keys, has_get. eauto. }
  exists x, z. split; [done|].
  assert (Hc : chunk_children w id = children o).
  { unfold chunk_children. by rewrite Hg, Ho. }
  rewrite Forall_forall in Hall. unfold generated. rewrite Hc.
  split; [split; [done|]|].
  - intros m Hm. destruct (Hall m Hm) as (_ & _ & _ & _ & geo & p & Hp & Hcen).
    exists geo, p. split; [done|]. apply (Hcen x z Hid).
  - intros m Hm. destruct (Hall m Hm) as (? & ? & ? & _). done.
Qed.

(** At sample inputs. *)

Lemma reachable_chunks_generated_witness :
  0 < chunkSize E0 /\
  (forall n, 0 <= Math_random E0 n /\ Math_random E0 n < 1) /\
  reachable E0 (init E0) /\
  JS.get (chunks (init E0)) "-2_-2" = Some 13%nat /\
  exists x z,
    "-2_-2"%string = chunkKey x z /\
    generated E0 (init E0) "-2_-2" 53 x z /\
    forall m, m ∈ chunk_children (init E0) "-2_-2" ->
      (m ∉ vehicles (init E0)) /\ player_mesh (init E0) <> Some m /\
      dirLight (init E0) <> Some m.
Proof.
  assert (H1 : 0 < chunkSize E0) by reflexivity.
  assert (H2 : forall n, 0 <= Math_random E0 n /\ Math_random E0 n < 1).
  { intros n. split; [discriminate|reflexivity]. }
  assert (H3 : reachable E0 (init E0)) by apply reachable_init.
  assert (H4 : JS.get (chunks (init E0)) "-2_-2" = Some 13%nat).
  { vm_compute. reflexivity. }
  split; [exact H1|]. split; [exact H2|]. split; [exact H3|]. split; [exact H4|].
  exact (reachable_chunks_generated E0 (init E0) "-2_-2" 13 H1 H2 H3 H4).
Defined.

(** ** The module as it is loaded: what throws *)

Section Thrown.

Local Open Scope Q_scope.

(** With both declarations evaluated, each function completes normally
    and does what its body does. *)
Lemma shipped_bodies (E : Env) (s : Shipped.State) :
  Shipped.keys_initialised s = true ->
  Shipped.vehicles_initialised s = true ->
  (forall delta, Shipped.updatePlayer delta s
                 = (Shipped.Normal, Shipped.on_world (updatePlayer delta) s)) /\
  (forall event, Shipped.handleKeysUp event s
                 = (Shipped.Normal, Shipped.on_world (handleKeysUp event) s)) /\
  (forall delta, Shipped.animateVehicles E delta s
                 = (Shipped.Normal, Shipped.on_world (animateVehicles E delta) s)) /\
  (forall type, Shipped.buildVehicle E type s
                = (Shipped.Normal, Shipped.on_world (buildVehicle E type) s)) /\
  (forall event, Shipped.handleKeys E event s
                 = (Shipped.Normal, Shipped.on_world (handleKeys E event) s)) /\
  (forall delta, Shipped.animate E delta s
                 = (Shipped.Normal, Shipped.on_world (animate E delta) s)).
Proof.
  destruct s as [ki vi w]. cbn [Shipped.keys_initialised Shipped.vehicles_initialised].
  intros -> ->.
  assert (Hb : forall type w0,
            Shipped.buildVehicle E type (Shipped.mkState true true w0)
            = (Shipped.Normal, Shipped.mkState true true (buildVehicle E type w0))).
  { intros type w0. unfold Shipped.buildVehicle, buildVehicle.
    cbn [Shipped.world].
    destruct (String.eqb type "plane").
    - by destruct (plane w0).
    - destruct (String.eqb type "boat"); [|done]. by destruct (boat w0). }
  split; [reflexivity|]. split; [reflexivity|]. split; [reflexivity|].
  split; [exact (fun type => Hb type w)|].
  split; [|reflexivity].
  intros event. unfold Shipped.handleKeys, handleKeys, Shipped.on_world.
  cbn [Shipped.keys_initialised Shipped.vehicles_initialised Shipped.world].
  destruct (String.eqb (key event) "p"), (String.eqb (key event) "b");
    rewrite ?Hb; cbn [Shipped.and_then]; rewrite ?Hb; reflexivity.
Qed.

(** X11: in every state of the module as it is loaded,
    [updatePlayer(delta)] throws a [ReferenceError] at [keys["w"]], before
    it has moved the player's mesh; so a frame of [animate()] throws there
    too: [updateChunks], [animateVehicles] and [animateImmersion] are not
    run, and the state after the frame is the state before it. *)
Theorem shipped_frame_throws (E : Env) (delta : Q) (s : Shipped.State) :
  Shipped.reachable E s ->
  Shipped.updatePlayer delta s
  = (Shipped.Throw (Shipped.ReferenceError "keys"), s) /\
  Shipped.animate E delta s
  = (Shipped.Throw (Shipped.ReferenceError "keys"), s).
Proof.
  intros Hr. rewrite (shipped_reachable E s Hr). split.
  - exact (shipped_updatePlayer_early delta (Shipped.initialised E) eq_refl).
  - exact (shipped_animate_early E delta (Shipped.initialised E) eq_refl).
Qed.

(** X12: in every state of the module as it is loaded, [handleKeys(event)]
    and [handleKeysUp(event)] throw a [ReferenceError] at the assignment to
    [keys[...]], whatever the key: no key is recorded as held, a [keydown]
    of "p" or "b" does not reach [buildVehicle], and the state after the
    event is the state before it. *)
Theorem shipped_key_events_throw (E : Env) (event : KeyboardEvent)
    (s : Shipped.State) :
  Shipped.reachable E s ->
  Shipped.handleKeys E event s
  = (Shipped.Throw (Shipped.ReferenceError "keys"), s) /\
  Shipped.handleKeysUp event s
  = (Shipped.Throw (Shipped.ReferenceError "keys"), s).
Proof.
  intros Hr. rewrite (shipped_reachable E s Hr). split.
  - exact (shipped_handleKeys_early E event (Shipped.initialised E) eq_refl).
  - exact (shipped_handleKeysUp_early event (Shipped.initialised E) eq_refl).
Qed.

Lemma shipped_on_world_heap mesh w' s :
  heap (Shipped.world (Shipped.on_world (fun _ => scene_add mesh w') s)) = heap w'.
Proof. by destruct s. Qed.

(** The throwing [buildVehicle] writes to no cell that existed. *)
Lemma shipped_buildVehicle_heap (E : Env) type s s' :
  Shipped.vehicles_initialised s = false ->
  type = "plane"%string \/ type = "boat"%string ->
  Shipped.buildVehicle E type s
  = (Shipped.Throw (Shipped.ReferenceError "vehicles"), s') ->
  forall l, (l < next (Shipped.world s))%nat ->
            heap (Shipped.world s') !! l = heap (Shipped.world s) !! l.
Proof.
  intros Hv [-> | ->] Hb l Hl.
  - rewrite (shipped_buildVehicle_plane E s Hv) in Hb.
    apply (f_equal snd) in Hb. cbn [snd] in Hb. rewrite <- Hb.
    rewrite shipped_on_world_heap.
    exact (proj2 (plane_grows (Shipped.world s)) l Hl).
  - rewrite (shipped_buildVehicle_boat E s Hv) in Hb.
    apply (f_equal snd) in Hb. cbn [snd] in Hb. rewrite <- Hb.
    rewrite shipped_on_world_heap.
    exact (proj2 (boat_grows (Shipped.world s)) l Hl).
Qed.

(** X15: [buildVehicle("plane")] and [buildVehicle("boat")] while
    [vehicles] is not initialised, as in every state of the module as it
    is loaded: the mesh is built - a 2 x 0.4 x 4 yellow box at
    [(player.x + 2, player.y + 1, player.z)] for a plane, a blue cylinder
    at [(player.x + 2, 0.25, player.z)] turned by [Math.PI / 2] about z for
    a boat - and appended to the scene; then [vehicles.push(mesh)] throws a
    [ReferenceError]: [saveStructure] is not called, and the structure
    registry, the chunk registry and the player are as they were. *)
Theorem shipped_buildVehicle_throws (E : Env) (type : string)
    (s : Shipped.State) :
  Shipped.vehicles_initialised s = false ->
  type = "plane"%string \/ type = "boat"%string ->
  exists s' o,
    Shipped.buildVehicle E type s
    = (Shipped.Throw (Shipped.ReferenceError "vehicles"), s') /\
    Shipped.keys_initialised s' = Shipped.keys_initialised s /\
    Shipped.vehicles_initialised s' = false /\
    scene (Shipped.world s')
    = scene (Shipped.world s) ++ [(4 + next (Shipped.world s))%nat] /\
    is_mesh (Shipped.world s') (4 + next (Shipped.world s)) o
      (if String.eqb type "plane" then BoxGeometry 2 (2#5) 4
       else CylinderGeometry 1 1 (1#2) 8)
      (mkMaterial (if String.eqb type "plane" then 0xffff00 else 0x0000ff) false)
      (mkVector3 (player_x (Shipped.world s) + 2)
         (if String.eqb type "plane" then player_y (Shipped.world s) + 1 else 1#4)
         (player_z (Shipped.world s)))
      (mkEuler 0 0 (if String.eqb type "plane" then 0 else Math_PI / 2)) /\
    playerStructures (Shipped.world s') = playerStructures (Shipped.world s) /\
    chunks (Shipped.world s') = chunks (Shipped.world s) /\
    (player_x (Shipped.world s'), player_y (Shipped.world s'),
     player_z (Shipped.world s'), player_mesh (Shipped.world s'))
    = (player_x (Shipped.world s), player_y (Shipped.world s),
       player_z (Shipped.world s), player_mesh (Shipped.world s)) /\
    forall l, (l < next (Shipped.world s))%nat ->
              heap (Shipped.world s') !! l = heap (Shipped.world s) !! l.
Proof.
  intros Hv Ht.
  destruct (shipped_buildVehicle_early E type s Hv Ht)
    as (s' & o & Hb & Hk & Hvi & Hsc & Hm & Hps & _ & Hc & _ & Hp).
  exists s', o. rewrite Hv in Hvi.
  split; [exact Hb|]. split; [exact Hk|]. split; [exact Hvi|].
  split; [exact Hsc|]. split; [exact Hm|]. split; [exact Hps|].
  split; [exact Hc|]. split; [exact Hp|].
  exact (shipped_buildVehicle_heap E type s s' Hv Ht Hb).
Qed.

(** X18: in every state of the module as it is loaded,
    [animateVehicles(delta)] throws a [ReferenceError] at
    [vehicles.forEach]: no vehicle is moved and the clock is not read. *)
Theorem shipped_animateVehicles_throws (E : Env) (delta : Q)
    (s : Shipped.State) :
  Shipped.reachable E s ->
  Shipped.animateVehicles E delta s
  = (Shipped.Throw (Shipped.ReferenceError "vehicles"), s).
Proof.
  intros Hr. rewrite (shipped_reachable E s Hr).
  exact (shipped_animateVehicles_early E delta (Shipped.initialised E) eq_refl).
Qed.


(** X22: the module as it is loaded never leaves the state [init()] left:
    in every state the program can be in, [keys] and [vehicles] are not
    initialised, the variables and objects are those after [init()] - a
    state that events and frames lead to in the module with initialised
    bindings as well, so that what holds of all of those holds of it -,
    and whatever the host does next, a key event or a frame, leaves the
    state as it is. *)
Theorem shipped_state_stays (E : Env) (s : Shipped.State) :
  Shipped.reachable E s ->
  Shipped.keys_initialised s = false /\
  Shipped.vehicles_initialised s = false /\
  Shipped.world s = init E /\
  reachable E (Shipped.world s) /\
  forall s', Shipped.step E s s' -> s' = s.
Proof.
  intros Hr. rewrite (shipped_reachable E s Hr).
  split; [reflexivity|]. split; [reflexivity|]. split; [reflexivity|].
  split; [exact (reachable_init E)|].
  intros s' Hstep. exact (shipped_step E (Shipped.initialised E) s' eq_refl Hstep).
Qed.

End Thrown.

(** At sample inputs: the state after the module has been evaluated. *)

Lemma shipped_frame_throws_witness :
  Shipped.reachable E0 (Shipped.load E0 0).2 /\
  Shipped.updatePlayer 1 (Shipped.load E0 0).2
  = (Shipped.Throw (Shipped.ReferenceError "keys"), (Shipped.load E0 0).2) /\
  Shipped.animate E0 1 (Shipped.load E0 0).2
  = (Shipped.Throw (Shipped.ReferenceError "keys"), (Shipped.load E0 0).2).
Proof.
  split; [exact (Shipped.loaded E0 0)|].
  exact (shipped_frame_throws E0 1 (Shipped.load E0 0).2 (Shipped.loaded E0 0)).
Defined.

Lemma shipped_key_events_throw_witness :
  Shipped.reachable E0 (Shipped.load E0 0).2 /\
  Shipped.handleKeys E0 (mkEvent "p" "keydown") (Shipped.load E0 0).2
  = (Shipped.Throw (Shipped.ReferenceError "keys"), (Shipped.load E0 0).2) /\
  Shipped.handleKeysUp (mkEvent "p" "keydown") (Shipped.load E0 0).2
  = (Shipped.Throw (Shipped.ReferenceError "keys"), (Shipped.load E0 0).2).
Proof.
  split; [exact (Shipped.loaded E0 0)|].
  exact (shipped_key_events_throw E0 (mkEvent "p" "keydown") (Shipped.load E0 0).2
           (Shipped.loaded E0 0)).
Defined.

Lemma shipped_buildVehicle_throws_witness :
  Shipped.vehicles_initialised (Shipped.initialised E0) = false /\
  ("boat"%string = "plane"%string \/ "boat"%string = "boat"%string) /\
  exists s' o,
    Shipped.buildVehicle E0 "boat" (Shipped.initialised E0)
    = (Shipped.Throw (Shipped.ReferenceError "vehicles"), s') /\
    Shipped.keys_initialised s' = Shipped.keys_initialised (Shipped.initialised E0) /\
    Shipped.vehicles_initialised s' = false /\
    scene (Shipped.world s')
    = scene (Shipped.world (Shipped.initialised E0))
      ++ [(4 + next (Shipped.world (Shipped.initialised E0)))%nat] /\
    is_mesh (Shipped.world s') (4 + next (Shipped.world (Shipped.initialised E0))) o
      (if String.eqb "boat" "plane" then BoxGeometry 2 (2#5) 4
       else CylinderGeometry 1 1 (1#2) 8)
      (mkMaterial (if String.eqb "boat" "plane" then 0xffff00 else 0x0000ff) false)
      (mkVector3 (player_x (Shipped.world (Shipped.initialised E0)) + 2)
         (if String.eqb "boat" "plane"
          then player_y (Shipped.world (Shipped.initialised E0)) + 1 else 1#4)
         (player_z (Shipped.world (Shipped.initialised E0))))
      (mkEuler 0 0 (if String.eqb "boat" "plane" then 0 else Math_PI / 2)) /\
    playerStructures (Shipped.world s')
    = playerStructures (Shipped.world (Shipped.initialised E0)) /\
    chunks (Shipped.world s') = chunks (Shipped.world (Shipped.initialised E0)) /\
    (player_x (Shipped.world s'), player_y (Shipped.world s'),
     player_z (Shipped.world s'), player_mesh (Shipped.world s'))
    = (player_x (Shipped.world (Shipped.initialised E0)),
       player_y (Shipped.world (Shipped.initialised E0)),
       player_z (Shipped.world (Shipped.initialised E0)),
       player_mesh (Shipped.world (Shipped.initialised E0))) /\
    forall l, (l < next (Shipped.world (Shipped.initialised E0)))%nat ->
              heap (Shipped.world s') !! l
              = heap (Shipped.world (Shipped.initialised E0)) !! l.
Proof.
  assert (H1 : Shipped.vehicles_initialised (Shipped.initialised E0) = false)
    by reflexivity.
  assert (H2 : "boat"%string = "plane"%string \/ "boat"%string = "boat"%string)
    by (right; reflexivity).
  split; [exact H1|]. split; [exact H2|].
  exact (shipped_buildVehicle_throws E0 "boat" (Shipped.initialised E0) H1 H2).
Defined.

Lemma shipped_animateVehicles_throws_witness :
  Shipped.reachable E0 (Shipped.load E0 0).2 /\
  Shipped.animateVehicles E0 1 (Shipped.load E0 0).2
  = (Shipped.Throw (Shipped.ReferenceError "vehicles"), (Shipped.load E0 0).2).
Proof.
  split; [exact (Shipped.loaded E0 0)|].
  exact (shipped_animateVehicles_throws E0 1 (Shipped.load E0 0).2 (Shipped.loaded E0 0)).
Defined.

Lemma shipped_state_stays_witness :
  Shipped.reachable E0 (Shipped.load E0 0).2 /\
  Shipped.keys_initialised (Shipped.load E0 0).2 = false /\
  Shipped.vehicles_initialised (Shipped.load E0 0).2 = false /\
  Shipped.world (Shipped.load E0 0).2 = init E0 /\
  reachable E0 (Shipped.world (Shipped.load E0 0).2) /\
  forall s', Shipped.step E0 (Shipped.load E0 0).2 s' -> s' = (Shipped.load E0 0).2.
Proof.
  split; [exact (Shipped.loaded E0 0)|].
  exact (shipped_state_stays E0 (Shipped.load E0 0).2 (Shipped.loaded E0 0)).
Defined.
